(** * Gaussian error propagation and the driven-oscillator phase

    A verification development for the lab-course notebooks of the
    repository:

    - [S01_error_prop_01]: [error_prop], [error_prop_corr] and
      [congruence_trafo], written on top of SymPy;
    - the data generator for the damped oscillator: [x], [A] and
      [phase], written on top of NumPy.

    SymPy expressions are modelled by a small expression language with
    its symbolic differentiation; numbers are the complex numbers, as in
    SymPy, where the square root is the principal one and is defined for
    every number.

    NumPy is modelled with its types.  A float is a real number, an
    infinity or [nan]: a finite result is taken without rounding, but
    it overflows to an infinity and underflows to zero at the
    thresholds of [float64].  An integer array is [int64] or [uint64]
    and wraps around.  A Python [int] is unbounded, and is combined
    with an array by either of NumPy's promotion rules.  A call that
    raises an exception has no result. *)

From Stdlib Require Import String Reals Lra Lia ZArith QArith Qreals List.
From Stdlib Require Import Machin Permutation.
Import ListNotations.

Local Open Scope R_scope.


(** ** The angle of a point *)

Module Trig.

(** The angle of the point [(x, y)], in [(-PI, PI]]; [0] at the origin. *)
Definition atan2 (y x : R) : R :=
  if Rlt_dec 0 x then atan (y / x)
  else if Rlt_dec x 0 then
    if Rle_dec 0 y then atan (y / x) + PI else atan (y / x) - PI
  else if Rlt_dec 0 y then PI / 2
  else if Rlt_dec y 0 then - (PI / 2)
  else 0.

End Trig.

(** ** Complex numbers *)

Module Cplx.

Record C : Type := mkC { re : R; im : R }.

Definition RtoC (r : R) : C := mkC r 0.
Definition C0 : C := RtoC 0.
Definition C1 : C := RtoC 1.

Definition Cadd (a b : C) : C := mkC (re a + re b) (im a + im b).
Definition Copp (a : C) : C := mkC (- re a) (- im a).
Definition Csub (a b : C) : C := Cadd a (Copp b).
Definition Cmul (a b : C) : C :=
  mkC (re a * re b - im a * im b) (re a * im b + im a * re b).

Definition Cnorm2 (a : C) : R := re a * re a + im a * im a.
Definition Cmod (a : C) : R := sqrt (Cnorm2 a).
Definition Cinv (a : C) : C := mkC (re a / Cnorm2 a) (- im a / Cnorm2 a).

Fixpoint Cpow (a : C) (n : nat) : C :=
  match n with
  | O => C1
  | S k => Cmul a (Cpow a k)
  end.

(** Integer powers, after [powerRZ]. *)
Definition CpowZ (a : C) (z : Z) : C :=
  match z with
  | Z0 => C1
  | Zpos p => Cpow a (Pos.to_nat p)
  | Zneg p => Cinv (Cpow a (Pos.to_nat p))
  end.

(** The principal square root: the one with a non-negative real part,
    and with a non-negative imaginary part on the negative real axis. *)
Definition Csqrt (a : C) : C :=
  mkC (sqrt ((Cmod a + re a) / 2))
      ((if Rlt_dec (im a) 0 then -1 else 1) * sqrt ((Cmod a - re a) / 2)).

Definition Csum (l : list C) : C := fold_right Cadd C0 l.

End Cplx.

(** ** SymPy expressions *)

Module Sympy.
Import Cplx Trig.

(** The fragment of SymPy's expression trees that the notebook builds:
    rational numbers ([Integer], [Rational], [Float]), [pi], symbols,
    [Add], [Mul], [Pow] with an integer exponent (division is the power
    [-1]), [sqrt] and [atan2]. *)
Inductive expr : Type :=
| Num (q : Q)
| Pi
| Sym (s : string)
| Add (a b : expr)
| Mul (a b : expr)
| Pow (a : expr) (n : Z)
| Sqrt (a : expr)
| Atan2 (a b : expr).

(** SymPy's [Integer]: [S(0)], and the numbers the differentiation
    rules produce. *)
Definition Int (z : Z) : expr := Num (inject_Z z).

(** [diff(f, x)]: the symbolic partial derivative with respect to the
    symbol [x]; every other symbol is a constant. *)
Fixpoint diff (f : expr) (x : string) : expr :=
  match f with
  | Num _ => Int 0
  | Pi => Int 0
  | Sym y => if String.eqb y x then Int 1 else Int 0
  | Add a b => Add (diff a x) (diff b x)
  | Mul a b => Add (Mul (diff a x) b) (Mul a (diff b x))
  | Pow a n =>
      if (n =? 0)%Z then Int 0
      else Mul (Mul (Int n) (Pow a (n - 1))) (diff a x)
  | Sqrt a => Mul (diff a x) (Mul (Num (1 # 2)) (Pow (Sqrt a) (-1)))
  | Atan2 a b =>
      Mul (Add (Mul b (diff a x)) (Mul (Int (-1)) (Mul a (diff b x))))
          (Pow (Add (Pow a 2) (Pow b 2)) (-1))
  end.

(** *** Values *)

Definition env : Type := string -> C.
Definition renv : Type := string -> R.

(** The value of an expression at a complex point ([subs] followed by
    [evalf]).  [atan2] is a function of two real numbers. *)
Fixpoint eval (v : env) (e : expr) : C :=
  match e with
  | Num q => RtoC (Q2R q)
  | Pi => RtoC PI
  | Sym s => v s
  | Add a b => Cadd (eval v a) (eval v b)
  | Mul a b => Cmul (eval v a) (eval v b)
  | Pow a n => CpowZ (eval v a) n
  | Sqrt a => Csqrt (eval v a)
  | Atan2 a b => RtoC (atan2 (re (eval v a)) (re (eval v b)))
  end.

(** The value at a real point, in real arithmetic. *)
Fixpoint reval (r : renv) (e : expr) : R :=
  match e with
  | Num q => Q2R q
  | Pi => PI
  | Sym s => r s
  | Add a b => reval r a + reval r b
  | Mul a b => reval r a * reval r b
  | Pow a n => powerRZ (reval r a) n
  | Sqrt a => sqrt (reval r a)
  | Atan2 a b => atan2 (reval r a) (reval r b)
  end.

Definition inj (r : renv) : env := fun s => RtoC (r s).

(** [upd r x t] is the point [r] with the coordinate [x] moved to [t]. *)
Definition upd (r : renv) (x : string) (t : R) : renv :=
  fun y => if String.eqb y x then t else r y.

(** An expression is defined at a point when no negative power is
    taken of zero there (SymPy evaluates those to [zoo] or [nan]), and
    [atan2] is taken of real numbers that are not both zero. *)
Fixpoint defined (v : env) (e : expr) : Prop :=
  match e with
  | Num _ | Pi | Sym _ => True
  | Add a b | Mul a b => defined v a /\ defined v b
  | Pow a n => defined v a /\ ((n < 0)%Z -> eval v a <> C0)
  | Sqrt a => defined v a
  | Atan2 a b =>
      defined v a /\ defined v b
      /\ im (eval v a) = 0 /\ im (eval v b) = 0
      /\ (re (eval v a) <> 0 \/ re (eval v b) <> 0)
  end.

(** Defined with real values throughout: in addition, no square root
    of a negative number. *)
Fixpoint rdefined (r : renv) (e : expr) : Prop :=
  match e with
  | Num _ | Pi | Sym _ => True
  | Add a b | Mul a b => rdefined r a /\ rdefined r b
  | Pow a n => rdefined r a /\ ((n < 0)%Z -> reval r a <> 0)
  | Sqrt a => rdefined r a /\ 0 <= reval r a
  | Atan2 a b =>
      rdefined r a /\ rdefined r b /\ (reval r a <> 0 \/ reval r b <> 0)
  end.

(** Differentiable as built: in addition, every square root is taken
    of a positive number and every angle off the negative real axis. *)
Fixpoint regular (r : renv) (e : expr) : Prop :=
  match e with
  | Num _ | Pi | Sym _ => True
  | Add a b | Mul a b => regular r a /\ regular r b
  | Pow a n => regular r a /\ ((n < 0)%Z -> reval r a <> 0)
  | Sqrt a => regular r a /\ 0 < reval r a
  | Atan2 a b =>
      regular r a /\ regular r b /\ (0 < reval r b \/ reval r a <> 0)
  end.

(** [d] is the partial derivative of [f] along [x] at the point [r]. *)
Definition partial_derivative (r : renv) (f : expr) (x : string) (d : R) : Prop :=
  derivable_pt_lim (fun t => reval (upd r x t) f) (r x) d.

(** *** A simplifier

    SymPy's [simplify] is a heuristic whose output is only known to be
    equal to its input wherever the input is defined.  The functions of
    the notebook are verified for every rewriting with this property;
    [simplify_basic] is one of them: it folds constants and removes the
    neutral elements of sums and products. *)

Definition sound_simplifier (simplify : expr -> expr) : Prop :=
  forall (v : env) (e : expr),
    defined v e -> defined v (simplify e) /\ eval v (simplify e) = eval v e.

Definition mk_add (a b : expr) : expr :=
  match a, b with
  | Num p, Num q => Num (p + q)
  | Num p, _ => if Qeq_bool p 0 then b else Add a b
  | _, Num q => if Qeq_bool q 0 then a else Add a b
  | _, _ => Add a b
  end.

Definition mk_mul (a b : expr) : expr :=
  match a, b with
  | Num p, Num q => Num (p * q)
  | Num p, _ => if Qeq_bool p 1 then b else Mul a b
  | _, Num q => if Qeq_bool q 1 then a else Mul a b
  | _, _ => Mul a b
  end.

Fixpoint simplify_basic (e : expr) : expr :=
  match e with
  | Add a b => mk_add (simplify_basic a) (simplify_basic b)
  | Mul a b => mk_mul (simplify_basic a) (simplify_basic b)
  | Pow a n => Pow (simplify_basic a) n
  | Sqrt a => Sqrt (simplify_basic a)
  | Atan2 a b => Atan2 (simplify_basic a) (simplify_basic b)
  | Num _ | Pi | Sym _ => e
  end.

End Sympy.

(** ** The notebook [S01_error_prop_01] *)

Module ErrorProp.
Import Cplx Sympy.

(** *** Python's failures

    An indexing [l[i]] outside the list raises [IndexError];
    [jacobian] and the matrix product raise on a shape they do not
    accept.  A raised exception is [None]. *)

Definition bind {A B : Type} (m : option A) (k : A -> option B) : option B :=
  match m with
  | Some a => k a
  | None => None
  end.

Notation "x <- m ;; k" := (bind m (fun x => k))
  (at level 61, m at next level, right associativity).

Definition ret {A : Type} (a : A) : option A := Some a.

(** [for a in l: s = body(a, s)], where the body may raise. *)
Fixpoint for_each {A St : Type} (l : list A) (body : A -> St -> option St)
    (s : St) : option St :=
  match l with
  | [] => ret s
  | a :: l' => s' <- body a s ;; for_each l' body s'
  end.

(** [range(n)] *)
Definition range (n : nat) : list nat := seq 0 n.

(** [l[i]] for [0 <= i] *)
Definition index {A : Type} (l : list A) (i : nat) : option A := nth_error l i.

(** *** Matrices

    A SymPy [Matrix] built from a list of rows. *)
Definition Matrix : Type := list (list expr).

Definition nrows (A : Matrix) : nat := length A.
Definition ncols (A : Matrix) : nat :=
  match A with
  | [] => 0%nat
  | row :: _ => length row
  end.

(** [A[i, j]] inside the shape. *)
Definition get (A : Matrix) (i j : nat) : expr := nth j (nth i A []) (Int 0).

(** [Matrix(m, n, lambda i, j: ...)] *)
Definition mk_matrix (m n : nat) (f : nat -> nat -> expr) : Matrix :=
  map (fun i => map (fun j => f i j) (range n)) (range m).

(** [Add] of all the entries of a list; the empty sum is [0]. *)
Definition sum_expr (vec : list expr) : expr := fold_left Add vec (Int 0).

(** [A * B]: raises [ShapeError] unless [A.cols == B.rows]. *)
Definition matmul (A B : Matrix) : option Matrix :=
  if Nat.eqb (ncols A) (nrows B) then
    ret (mk_matrix (nrows A) (ncols B)
           (fun i j => sum_expr (map (fun k => Mul (get A i k) (get B k j))
                                     (range (ncols A)))))
  else None.

(** [A.transpose()] *)
Definition transpose (A : Matrix) : Matrix :=
  mk_matrix (ncols A) (nrows A) (fun i j => get A j i).

(** [Matrix(f).jacobian(Matrix(v))] for the column vectors of the
    expressions [f] and of the symbols [v]: raises [TypeError] when one
    of them is empty, as the matrix is then neither a row nor a column. *)
Definition jacobian (f : list expr) (v : list string) : option Matrix :=
  match f, v with
  | [], _ | _, [] => None
  | _, _ =>
      ret (mk_matrix (length f) (length v)
             (fun j i => diff (nth j f (Int 0)) (nth i v EmptyString)))
  end.

Section Functions.

(** SymPy's [simplify], a heuristic rewriting. *)
Variable simplify : expr -> expr.

(** [simplify(A)] works entry by entry. *)
Definition simplify_matrix (A : Matrix) : Matrix := map (map simplify) A.

(** The uncorrelated propagator. *)
Definition error_prop (f : expr) (vars : list (string * expr)) : expr :=
  let sum := Int 0 in
  let sum :=
    fold_left (fun sum '(x, sigma) =>
                 Add sum (Mul (Pow (diff f x) 2) (Pow sigma 2)))
              vars sum in
  Sqrt (simplify sum).

(** The correlated propagator; [V] is a Python list of lists. *)
Definition error_prop_corr (f : expr) (x : list string) (V : list (list expr))
    : option expr :=
  let sum := Int 0 in
  sum <- for_each (range (length x)) (fun i sum =>
           for_each (range (length x)) (fun j sum =>
             xi <- index x i ;;
             xj <- index x j ;;
             Vi <- index V i ;;
             Vij <- index Vi j ;;
             ret (Add sum (Mul (Mul (diff f xi) (diff f xj)) Vij)))
           sum)
         sum ;;
  ret (Sqrt (simplify sum)).

(** The covariance matrix of the new variables [f], from the one of
    the old variables [v]. *)
Definition congruence_trafo (f : list expr) (v : list string) (V : Matrix)
    : option Matrix :=
  G <- jacobian f v ;;
  GV <- matmul G V ;;
  GVGt <- matmul GV (transpose G) ;;
  ret (simplify_matrix GVGt).

End Functions.

(** *** What the theorems speak about *)

(** An [m] by [n] matrix. *)
Definition is_matrix (m n : nat) (A : Matrix) : Prop :=
  length A = m /\ Forall (fun row => length row = n) A.

(** The value of [sum] when the loop of [error_prop] ends: the
    expression under the square root. *)
Definition radicand (f : expr) (vars : list (string * expr)) : expr :=
  fold_left (fun sum '(x, sigma) =>
               Add sum (Mul (Pow (diff f x) 2) (Pow sigma 2)))
            vars (Int 0).

(** The summand of [error_prop_corr] for the indices [i] and [j]. *)
Definition summand (f : expr) (x : list string) (V : list (list expr))
    (i j : nat) : expr :=
  Mul (Mul (diff f (nth i x EmptyString)) (diff f (nth j x EmptyString)))
      (get V i j).

(** The value of [sum] when the loops of [error_prop_corr] end. *)
Definition radicand_corr (f : expr) (x : list string) (V : list (list expr))
    : expr :=
  fold_left (fun sum i =>
               fold_left (fun sum j => Add sum (summand f x V i j))
                         (range (length x)) sum)
            (range (length x)) (Int 0).

(** The derivatives and the entries of [V] are defined at a point. *)
Definition inputs_defined (v : env) (f : list expr) (x : list string)
    (V : list (list expr)) : Prop :=
  Forall (fun fi => Forall (fun xj => defined v (diff fi xj)) x) f
  /\ Forall (Forall (defined v)) V.

(** The same at a real point, with real values. *)
Definition inputs_regular (r : renv) (f : list expr) (V : list (list expr))
    : Prop :=
  Forall (regular r) f /\ Forall (Forall (rdefined r)) V.

(** [V] is symmetric at a point. *)
Definition symmetric_at (v : env) (n : nat) (V : Matrix) : Prop :=
  forall i j, (i < n)%nat -> (j < n)%nat ->
              eval v (get V i j) = eval v (get V j i).

(** [V] is diagonal at a point, with the squares of the uncertainties
    [sigma] on its diagonal. *)
Definition diagonal_at (v : env) (sigma : list expr) (V : list (list expr))
    : Prop :=
  forall i j, (i < length sigma)%nat -> (j < length sigma)%nat ->
    eval v (get V i j)
    = if Nat.eqb i j then CpowZ (eval v (nth i sigma (Int 0))) 2 else C0.

(** A call of one of the two propagators. *)
Inductive propagation : Type :=
| Uncorrelated (f : expr) (vars : list (string * expr))
| Correlated (f : expr) (x : list string) (V : list (list expr)).

Definition propagate (simplify : expr -> expr) (p : propagation) : option expr :=
  match p with
  | Uncorrelated f vars => Some (error_prop simplify f vars)
  | Correlated f x V => error_prop_corr simplify f x V
  end.

(** The expression under its square root. *)
Definition radicand_of (p : propagation) : expr :=
  match p with
  | Uncorrelated f vars => radicand f vars
  | Correlated f x V => radicand_corr f x V
  end.

(** The call has arguments of matching shapes, defined at the point. *)
Definition well_posed (v : env) (p : propagation) : Prop :=
  match p with
  | Uncorrelated f vars =>
      Forall (fun xs => defined v (diff f (fst xs)) /\ defined v (snd xs)) vars
  | Correlated f x V =>
      is_matrix (length x) (length x) V /\ inputs_defined v [f] x V
  end.

(** What the caller sees of a domain error: an exception, or a result
    that is not a number at the point ([nan], [zoo]). *)
Definition surfaces_domain_error (v : env) (result : option expr) : Prop :=
  match result with
  | None => True
  | Some e => ~ defined v e
  end.

(** *** What the further theorems speak about *)

(** [V[i][j]], which raises outside the lists. *)
Definition entry (V : list (list expr)) (i j : nat) : option expr :=
  Vi <- index V i ;; index Vi j.

(** [V] has the entries [V[i][j]] for all [i, j < n]. *)
Definition covers (n : nat) (V : list (list expr)) : bool :=
  Nat.leb n (length V) && forallb (fun row => Nat.leb n (length row)) (firstn n V).

(** The symbol [x] occurs in the expression [f]. *)
Fixpoint occurs (x : string) (f : expr) : bool :=
  match f with
  | Num _ | Pi => false
  | Sym y => String.eqb y x
  | Add a b | Mul a b | Atan2 a b => occurs x a || occurs x b
  | Pow a _ | Sqrt a => occurs x a
  end.

(** The Jacobian of [f] along [x] at a real point. *)
Definition jacobian_at (r : renv) (f : list expr) (x : list string)
    : nat -> nat -> R :=
  fun i j => reval r (diff (nth i f (Int 0)) (nth j x EmptyString)).

(** The entries of [V] at a real point. *)
Definition matrix_at (r : renv) (V : Matrix) : nat -> nat -> R :=
  fun i j => reval r (get V i j).

(** None of the listed variables occurs in [f]. *)
Definition independent_of (f : expr) (vars : list (string * expr)) : Prop :=
  Forall (fun xs => occurs (fst xs) f = false) vars.

End ErrorProp.

(** ** The cells of the notebook *)

Module Notebook.
Import Cplx Sympy ErrorProp.

(** [symbols('x, y, sigma_x, sigma_y, rho')] and the others *)
Definition x : expr := Sym "x".
Definition y : expr := Sym "y".
Definition sig_x : expr := Sym "sigma_x".
Definition sig_y : expr := Sym "sigma_y".
Definition rho : expr := Sym "rho".
Definition h : expr := Sym "h".
Definition r : expr := Sym "r".
Definition sig_h : expr := Sym "sigma_h".
Definition sig_r : expr := Sym "sigma_r".

(** [e.subs(l)] followed by [evalf()]: the point where the listed
    symbols have the listed values. *)
Definition subs (l : list (string * R)) : renv :=
  fun s =>
    match find (fun p => String.eqb (fst p) s) l with
    | Some p => snd p
    | None => 0
    end.

(** The covariance matrix of two variables, as every exercise builds it:
    [[[s1**2, rho*s1*s2], [rho*s1*s2, s2**2]]]. *)
Definition cov2 (s1 s2 rho : expr) : list (list expr) :=
  [[Pow s1 2; Mul (Mul rho s1) s2];
   [Mul (Mul rho s1) s2; Pow s2 2]].

(** Exercise a: [z_1 = x + y] and the covariance matrix [C]. *)
Definition z_1 : expr := Add x y.
Definition C_xy : list (list expr) :=
  [[Pow sig_x 2; Mul (Mul rho sig_x) sig_y];
   [Mul (Mul rho sig_x) sig_y; Pow sig_y 2]].

(** Exercise a: [z_2 = x - y], [z_3 = x*y] and [z_4 = x/y], as SymPy
    holds them. *)
Definition z_2 : expr := Add x (Mul (Int (-1)) y).
Definition z_3 : expr := Mul x y.
Definition z_4 : expr := Mul x (Pow y (-1)).

(** Exercise a: the acceleration of gravity [g = 4*pi**2*(L/T**2)] of
    the pendulum; SymPy holds [L/T**2] as [L * T**(-2)]. *)
Definition L : expr := Sym "L".
Definition T : expr := Sym "T".
Definition sig_L : expr := Sym "sigma_L".
Definition sig_T : expr := Sym "sigma_T".
Definition g : expr := Mul (Mul (Int 4) (Pow Pi 2)) (Mul L (Pow T (-2))).
Definition C_LT : list (list expr) :=
  [[Pow sig_L 2; Mul (Mul rho sig_L) sig_T];
   [Mul (Mul rho sig_L) sig_T; Pow sig_T 2]].

(** Exercise b: the volume [V = pi * r**2 * h] of the cylinder. *)
Definition V : expr := Mul (Mul Pi (Pow r 2)) h.
Definition C_hr : list (list expr) :=
  [[Pow sig_h 2; Mul (Mul rho sig_h) sig_r];
   [Mul (Mul rho sig_h) sig_r; Pow sig_r 2]].

Definition cylinder_vars : list (string * expr) :=
  [("h", sig_h); ("r", sig_r)]%string.

(** Exercise c: the radial distance [r = sqrt(x**2 + y**2)] and the
    scattering angle [th = atan2(y, x)]. *)
Definition r_xy : expr := Sqrt (Add (Pow x 2) (Pow y 2)).
Definition th : expr := Atan2 y x.
Definition f_new : list expr := [r_xy; th].
Definition v_old : list string := ["x"; "y"]%string.

(** The last cell of exercise c sets [rho = 0], a Python number:
    SymPy evaluates the products with it to [0]. *)
Definition V_uncorrelated : list (list expr) :=
  [[Pow sig_x 2; Int 0];
   [Int 0; Pow sig_y 2]].

(** The matrix that the cell of exercise c displays, at the position
    [(X, Y)] with the uncertainties [sx], [sy] and the correlation
    [rho]; [(X^2 + Y^2)^(3/2)] is written with a square root. *)
Definition U_polar (X Y sx sy rho : R) (i k : nat) : R :=
  match i, k with
  | O, O =>
      (sx * X * (rho * sy * Y + sx * X) + sy * Y * (rho * sx * X + sy * Y))
      / (X * X + Y * Y)
  | O, _ =>
      (- sx * Y * (rho * sy * Y + sx * X) + sy * X * (rho * sx * X + sy * Y))
      / ((X * X + Y * Y) * sqrt (X * X + Y * Y))
  | _, O =>
      (sx * X * (rho * sy * X - sx * Y) - sy * Y * (rho * sx * Y - sy * X))
      / ((X * X + Y * Y) * sqrt (X * X + Y * Y))
  | _, _ =>
      - (sx * Y * (rho * sy * X - sx * Y) + sy * X * (rho * sx * Y - sy * X))
      / ((X * X + Y * Y) * (X * X + Y * Y))
  end.

(** The position [(3, 4)], measured without correlation. *)
Definition position : renv :=
  subs [("x", 3); ("y", 4); ("sigma_x", 1 / 10); ("sigma_y", 1 / 10);
        ("rho", 0)]%string.

(** A pendulum of length [1] and period [2], both known to [0.01],
    without correlation. *)
Definition pendulum : renv :=
  subs [("L", 1); ("T", 2); ("sigma_L", 1 / 100); ("sigma_T", 1 / 100);
        ("rho", 0)]%string.

(** [h = 3], [r = 2], both uncertainties [0.05], without correlation. *)
Definition uncorrelated : renv :=
  subs [("h", 3); ("r", 2); ("sigma_h", 5 / 100); ("sigma_r", 5 / 100);
        ("rho", 0)]%string.

(** [h = 3], [r = 2], both uncertainties [0.05], fully correlated. *)
Definition measured : renv :=
  subs [("h", 3); ("r", 2); ("sigma_h", 5 / 100); ("sigma_r", 5 / 100);
        ("rho", 1)]%string.

(** A matrix that is not a covariance matrix: its off-diagonal entries
    are larger than the diagonal allows, and it makes the sum for
    [x + y] negative. *)
Definition V_indefinite : list (list expr) :=
  [[Int 1; Int (-2)]; [Int (-2); Int 1]].

Definition indefinite_call : propagation :=
  Correlated z_1 ["x"; "y"]%string V_indefinite.

Definition origin : env := inj (fun _ => 0).

End Notebook.

(** ** The data generator for the damped oscillator *)

Module Oscillator.
Import ErrorProp.

(** *** NumPy's [float64] and Python's [float]

    A float is a number, an infinity or [nan].  The finite floats are
    taken as the real numbers they stand for: a result is exact unless
    it overflows to an infinity or underflows to zero, which happen at
    the thresholds of the format.  The sign of a zero is not kept. *)
Inductive float64 : Type :=
| Number (x : R)
| PosInf
| NegInf
| NaN.

(** A result of at least this magnitude, [2^1024 - 2^970], rounds to
    an infinity. *)
Definition overflow_threshold : R := IZR (2 ^ 1024 - 2 ^ 970).

(** A product or quotient of at most this magnitude, [2^-1075], rounds
    to zero. *)
Definition underflow_threshold : R := / IZR (2 ^ 1075).

(** The infinity of the given sign. *)
Definition infinity (positive : bool) : float64 :=
  if positive then PosInf else NegInf.

(** The sign of a number that is not zero. *)
Definition is_positive (x : R) : bool := if Rlt_dec 0 x then true else false.

(** The float of the exact result of a product, a quotient or an
    exponential. *)
Definition round (x : R) : float64 :=
  if Rle_dec overflow_threshold (Rabs x) then infinity (is_positive x)
  else if Rle_dec (Rabs x) underflow_threshold then Number 0
  else Number x.

(** The float of an exact sum or difference, which does not underflow. *)
Definition round_sum (x : R) : float64 :=
  if Rle_dec overflow_threshold (Rabs x) then infinity (is_positive x)
  else Number x.

(** [- a] *)
Definition fneg (a : float64) : float64 :=
  match a with
  | Number x => Number (- x)
  | PosInf => NegInf
  | NegInf => PosInf
  | NaN => NaN
  end.

(** [a + b] *)
Definition fadd (a b : float64) : float64 :=
  match a, b with
  | NaN, _ | _, NaN => NaN
  | Number x, Number y => round_sum (x + y)
  | PosInf, NegInf | NegInf, PosInf => NaN
  | PosInf, _ | _, PosInf => PosInf
  | NegInf, _ | _, NegInf => NegInf
  end.

(** [a - b] *)
Definition fsub (a b : float64) : float64 := fadd a (fneg b).

(** [a * b] *)
Definition fmul (a b : float64) : float64 :=
  match a, b with
  | NaN, _ | _, NaN => NaN
  | Number x, Number y => round (x * y)
  | Number x, PosInf | PosInf, Number x =>
      if Req_dec_T x 0 then NaN else infinity (is_positive x)
  | Number x, NegInf | NegInf, Number x =>
      if Req_dec_T x 0 then NaN else infinity (negb (is_positive x))
  | PosInf, PosInf | NegInf, NegInf => PosInf
  | PosInf, NegInf | NegInf, PosInf => NegInf
  end.

(** [a / b] in NumPy, where a division by zero gives an infinity or
    [nan]; a zero divisor is taken as [+0.0]. *)
Definition fdiv (a b : float64) : float64 :=
  match a, b with
  | NaN, _ | _, NaN => NaN
  | Number x, Number y =>
      if Req_dec_T y 0 then
        if Req_dec_T x 0 then NaN else infinity (is_positive x)
      else round (x / y)
  | Number _, (PosInf | NegInf) => Number 0
  | PosInf, Number y => infinity (negb (if Rlt_dec y 0 then true else false))
  | NegInf, Number y => infinity (if Rlt_dec y 0 then true else false)
  | (PosInf | NegInf), (PosInf | NegInf) => NaN
  end.

(** [a > 0] *)
Definition greater_0 (a : float64) : bool :=
  match a with
  | Number x => is_positive x
  | PosInf => true
  | NegInf | NaN => false
  end.

(** [a != 0] *)
Definition nonzero (a : float64) : bool :=
  match a with
  | Number x => if Req_dec_T x 0 then false else true
  | PosInf | NegInf | NaN => true
  end.

(** [np.sqrt]: [nan] for a negative number. *)
Definition np_sqrt (a : float64) : float64 :=
  match a with
  | Number x => if Rle_dec 0 x then Number (sqrt x) else NaN
  | PosInf => PosInf
  | NegInf | NaN => NaN
  end.

(** [np.exp] *)
Definition np_exp (a : float64) : float64 :=
  match a with
  | Number x => round (exp x)
  | PosInf => PosInf
  | NegInf => Number 0
  | NaN => NaN
  end.

(** [np.cos]: [nan] at the infinities. *)
Definition np_cos (a : float64) : float64 :=
  match a with
  | Number x => Number (cos x)
  | PosInf | NegInf | NaN => NaN
  end.

(** [np.arctan] *)
Definition arctan (a : float64) : float64 :=
  match a with
  | Number x => Number (atan x)
  | PosInf => Number (PI / 2)
  | NegInf => Number (- (PI / 2))
  | NaN => NaN
  end.

(** [np.pi] *)
Definition np_pi : float64 := Number PI.

(** *** Python numbers and NumPy arrays

    A parameter is a Python [int], of any size, or a Python [float]. *)
Inductive pynum : Type :=
| PyInt (z : Z)
| PyFloat (f : float64).

(** The integer types of NumPy that a Python [int] can get, with their
    wrap-around. *)
Inductive int_dtype : Type := Int64 | UInt64.

Definition in_int64 (z : Z) : bool := ((- 2 ^ 63 <=? z) && (z <? 2 ^ 63))%Z.
Definition in_uint64 (z : Z) : bool := ((0 <=? z) && (z <? 2 ^ 64))%Z.

Definition fits (d : int_dtype) (z : Z) : bool :=
  match d with
  | Int64 => in_int64 z
  | UInt64 => in_uint64 z
  end.

Definition wrap (d : int_dtype) (z : Z) : Z :=
  match d with
  | Int64 => ((z + 2 ^ 63) mod 2 ^ 64 - 2 ^ 63)%Z
  | UInt64 => (z mod 2 ^ 64)%Z
  end.

(** A one-dimensional array of [float64], or of integers: [int64],
    NumPy's default integer, or [uint64]. *)
Inductive ndarray : Type :=
| FloatArray (a : list float64)
| IntArray (d : int_dtype) (a : list Z).

(** The entries as floats: an integer is converted to the float of
    its value. *)
Definition as_float64 (a : ndarray) : list float64 :=
  match a with
  | FloatArray l => l
  | IntArray _ l => map (fun z => Number (IZR z)) l
  end.

(** Python's conversion of an [int] to a [float], which raises
    [OverflowError] for an [int] that is too large. *)
Definition float_of_int (z : Z) : option float64 :=
  if (Z.abs z <? 2 ^ 1024 - 2 ^ 970)%Z then ret (Number (IZR z)) else None.

(** A Python number as a float. *)
Definition py_float (s : pynum) : option float64 :=
  match s with
  | PyInt z => float_of_int z
  | PyFloat f => ret f
  end.

(** [c * s] for a Python float [c] *)
Definition py_mul_float (c : float64) (s : pynum) : option float64 :=
  f <- py_float s ;; ret (fmul c f).

(** [- s] *)
Definition py_neg (s : pynum) : pynum :=
  match s with
  | PyInt z => PyInt (- z)
  | PyFloat f => PyFloat (fneg f)
  end.

(** [s ** 2]: exact for an [int]; for a [float] Python raises
    [OverflowError] where the square overflows. *)
Definition py_square (s : pynum) : option pynum :=
  match s with
  | PyInt z => ret (PyInt (z * z))
  | PyFloat (Number x) =>
      match round (x * x) with
      | PosInf | NegInf => None
      | f => ret (PyFloat f)
      end
  | PyFloat (PosInf | NegInf) => ret (PyFloat PosInf)
  | PyFloat NaN => ret (PyFloat NaN)
  end.

(** [a - b] for Python numbers *)
Definition py_sub (a b : pynum) : option pynum :=
  match a, b with
  | PyInt m, PyInt n => ret (PyInt (m - n))
  | _, _ => f <- py_float a ;; g <- py_float b ;; ret (PyFloat (fsub f g))
  end.

(** [np.sqrt] of a Python number: an [int] outside [int64] and
    [uint64] becomes an object, for which NumPy raises [TypeError]. *)
Definition np_sqrt_scalar (s : pynum) : option float64 :=
  match s with
  | PyInt z =>
      if in_int64 z || in_uint64 z then ret (np_sqrt (Number (IZR z))) else None
  | PyFloat f => ret (np_sqrt f)
  end.

(** How NumPy combines a Python [int] with an array: by the value of
    the [int] (up to NumPy 1), or weakly, with the type of the array
    (from NumPy 2). *)
Inductive promotion : Type := ValueBased | Weak.

(** The operands of an operation between a Python number and an
    array, in their common type. *)
Inductive operands : Type :=
| IntOperands (d : int_dtype) (n : Z) (l : list Z)
| FloatOperands (c : float64) (l : list float64).

(** A Python [float] makes the operation one of floats.  A Python
    [int] that fits the type of an integer array is taken in that
    type.  Otherwise, by value, an [int] of [int64] or [uint64] makes
    the operation one of floats, and a larger one an operation of
    objects, on which the functions that follow raise [TypeError];
    weakly, the [int] is converted to a float next to floats and
    raises [OverflowError] next to integers. *)
Definition promote (v : promotion) (s : pynum) (a : ndarray) : option operands :=
  match s with
  | PyFloat f => ret (FloatOperands f (as_float64 a))
  | PyInt n =>
      match a with
      | IntArray d l =>
          if fits d n then ret (IntOperands d n l)
          else
            match v with
            | ValueBased =>
                if in_int64 n || in_uint64 n
                then ret (FloatOperands (Number (IZR n)) (as_float64 a))
                else None
            | Weak => None
            end
      | FloatArray l =>
          match v with
          | ValueBased =>
              if in_int64 n || in_uint64 n
              then ret (FloatOperands (Number (IZR n)) l)
              else None
          | Weak => c <- float_of_int n ;; ret (FloatOperands c l)
          end
      end
  end.

(** [s - a], [a - s] and [s * a] *)
Definition scalar_sub_array (v : promotion) (s : pynum) (a : ndarray)
    : option ndarray :=
  ops <- promote v s a ;;
  ret match ops with
      | IntOperands d n l => IntArray d (map (fun e => wrap d (n - e)) l)
      | FloatOperands c l => FloatArray (map (fun e => fsub c e) l)
      end.

Definition array_sub_scalar (v : promotion) (a : ndarray) (s : pynum)
    : option ndarray :=
  ops <- promote v s a ;;
  ret match ops with
      | IntOperands d n l => IntArray d (map (fun e => wrap d (e - n)) l)
      | FloatOperands c l => FloatArray (map (fun e => fsub e c) l)
      end.

Definition scalar_mul_array (v : promotion) (s : pynum) (a : ndarray)
    : option ndarray :=
  ops <- promote v s a ;;
  ret match ops with
      | IntOperands d n l => IntArray d (map (fun e => wrap d (n * e)) l)
      | FloatOperands c l => FloatArray (map (fun e => fmul c e) l)
      end.

(** [a ** 2]: integers wrap around, floats overflow to [inf]. *)
Definition array_square (a : ndarray) : ndarray :=
  match a with
  | FloatArray l => FloatArray (map (fun e => fmul e e) l)
  | IntArray d l => IntArray d (map (fun e => wrap d (e * e)) l)
  end.

(** [s / a] for an array of floats.  By value, an [int] outside
    [int64] and [uint64] makes the division one of objects, which is
    Python's: it raises [ZeroDivisionError] at a zero.  The result is
    given by the values of its entries. *)
Definition divide_scalar (v : promotion) (s : pynum) (a : list float64)
    : option (list float64) :=
  k <- py_float s ;;
  match v, s with
  | ValueBased, PyInt z =>
      if in_int64 z || in_uint64 z || forallb nonzero a
      then ret (map (fun e => fdiv k e) a)
      else None
  | _, _ => ret (map (fun e => fdiv k e) a)
  end.

(** *** The functions of the notebook *)

(** What [phase] is called with: a Python number or an array. *)
Inductive pyarg : Type :=
| PyScalar (s : pynum)
| NdArray (a : ndarray).

(** [if type(omega) == float or type(omega) == int:
       omega = np.array([omega])]

    An [int] outside [int64] and [uint64] gives an array of objects,
    on which [np.arctan] raises [TypeError] in the end. *)
Definition as_array (omega : pyarg) : option ndarray :=
  match omega with
  | PyScalar (PyFloat f) => ret (FloatArray [f])
  | PyScalar (PyInt z) =>
      if in_int64 z then ret (IntArray Int64 [z])
      else if in_uint64 z then ret (IntArray UInt64 [z])
      else None
  | NdArray a => ret a
  end.

(** [np.divide(num, den, out=np.ones_like(num) * np.inf, where=(den != 0))] *)
Definition divide_entry (num den : float64) : float64 :=
  if nonzero den then fdiv num den else PosInf.

Definition divide (num den : list float64) : list float64 :=
  map (fun nd => divide_entry (fst nd) (snd nd)) (combine num den).

(** [np.where(phi > 0, phi - np.pi, phi)], for one entry *)
Definition lower_branch (phi : float64) : float64 :=
  if greater_0 phi then fsub phi np_pi else phi.

(** Phase shift of the driven oscillator. *)
Definition phase (v : promotion) (omega : pyarg) (omega_0 beta : pynum)
    : option (list float64) :=
  omega <- as_array omega ;;
  c <- py_mul_float (Number (-2)) beta ;;
  let num := map (fun e => fmul c e) (as_float64 omega) in
  square <- py_square omega_0 ;;
  den <- scalar_sub_array v square (array_square omega) ;;
  let tanphi := divide num (as_float64 den) in
  let phi := map arctan tanphi in
  let phi := map lower_branch phi in
  ret phi.

(** Free damped oscillator: position vs time (assuming [phi_0 = 0]).
    Where NumPy takes an [int] [x0] as an object, the result is given
    by the values of its entries. *)
Definition x (v : promotion) (t : ndarray) (x0 omega_0 beta : pynum)
    : option (list float64) :=
  bt <- scalar_mul_array v (py_neg beta) t ;;
  c0 <- py_float x0 ;;
  let envelope := map (fun e => fmul c0 (np_exp e)) (as_float64 bt) in
  square_0 <- py_square omega_0 ;;
  square_b <- py_square beta ;;
  d <- py_sub square_0 square_b ;;
  w <- np_sqrt_scalar d ;;
  let oscillation := map (fun ti => np_cos (fmul w ti)) (as_float64 t) in
  ret (map (fun ec => fmul (fst ec) (snd ec)) (combine envelope oscillation)).

(** Driven damped oscillator: amplitude vs. driving frequency. *)
Definition A (v : promotion) (omega : ndarray) (omega_0 beta K : pynum)
    : option (list float64) :=
  square_0 <- py_square omega_0 ;;
  d <- array_sub_scalar v (array_square omega) square_0 ;;
  c <- py_mul_float (Number 2) beta ;;
  let damping := map (fun e => let p := fmul c e in fmul p p) (as_float64 omega) in
  let radicand :=
    map (fun db => fadd (fst db) (snd db))
        (combine (as_float64 (array_square d)) damping) in
  divide_scalar v K (map np_sqrt radicand).

(** *** What the theorems speak about *)

(** A Python number that is finite, and its value. *)
Definition py_value (s : pynum) : option R :=
  match s with
  | PyInt z => Some (IZR z)
  | PyFloat (Number x) => Some x
  | PyFloat _ => None
  end.

(** An entry of an array that is finite, and its value. *)
Definition entry_value (a : ndarray) (i : nat) : option R :=
  match nth_error (as_float64 a) i with
  | Some (Number x) => Some x
  | _ => None
  end.

(** An entry of the result lies in [(-PI, 0]]. *)
Definition in_lower_half (e : float64) : Prop :=
  exists p : R, e = Number p /\ - PI < p <= 0.

(** [1e200] *)
Definition huge : R := IZR (10 ^ 200).


(** The smallest normal float, [2^-1022]. *)
Definition smallest_normal : R := / IZR (2 ^ 1022).

(** A real result that is computed as it is: it is zero, or in the
    range of the normal floats. *)
Definition exact (r : R) : Prop :=
  r = 0 \/ smallest_normal <= Rabs r < overflow_threshold.

(** The square of an [int] parameter stays below [2^63], where NumPy
    takes it as it is next to every array. *)
Definition int_square_fits (s : pynum) : Prop :=
  match s with
  | PyInt z => (z * z < 2 ^ 63)%Z
  | PyFloat _ => True
  end.






(** The square of an [int] parameter is below [2^53], where the float
    of an integer is the integer itself. *)
Definition int_square_exact (s : pynum) : Prop :=
  match s with
  | PyInt z => (z * z < 2 ^ 53)%Z
  | PyFloat _ => True
  end.

(** A real number in the range of the floats: zero, or of a magnitude
    between the two thresholds. *)
Definition in_float_range (r : R) : Prop :=
  r = 0 \/ underflow_threshold < Rabs r < overflow_threshold.

(** An entry that is a number and not negative, or [inf]. *)
Definition nonnegative (e : float64) : Prop :=
  e = PosInf \/ exists a : R, e = Number a /\ 0 <= a.






End Oscillator.

(** ** The formulas of the specification *)

Module Formula.
Import Cplx.

(** A finite sum of real numbers. *)
Definition Rsum (l : list R) : R := fold_right Rplus 0 l.

(** All the pairs [(i, j)] with [i, j < n]. *)
Definition pairs (n : nat) : list (nat * nat) := list_prod (seq 0 n) (seq 0 n).

(** Real matrices, with their product and transpose. *)
Definition Rmatrix : Type := nat -> nat -> R.

Definition mmul (n : nat) (A B : Rmatrix) : Rmatrix :=
  fun i k => Rsum (map (fun j => A i j * B j k) (seq 0 n)).

Definition mtranspose (A : Rmatrix) : Rmatrix := fun i j => A j i.

(** [sqrt( sum_i (df/dx_i)^2 * sigma_i^2 )] for the derivatives [d]
    and the uncertainties [sigma]. *)
Definition sigma_uncorr (d sigma : list R) : R :=
  sqrt (Rsum (map (fun ds => fst ds ^ 2 * snd ds ^ 2) (combine d sigma))).

(** [sum over all pairs i, j of (df/dx_i) * (df/dx_j) * V[i][j]] *)
Definition quadratic_form (n : nat) (d : nat -> R) (V : Rmatrix) : R :=
  Rsum (map (fun ij => d (fst ij) * d (snd ij) * V (fst ij) (snd ij)) (pairs n)).

(** Its square root, which is SymPy's: imaginary for a negative number. *)
Definition sigma_corr (n : nat) (d : nat -> R) (V : Rmatrix) : C :=
  Csqrt (RtoC (quadratic_form n d V)).

End Formula.

(** * Facts *)

(** ** Lists *)

Module ListFacts.

Lemma map_nth_seq {A : Type} (l : list A) (d : A) :
  map (fun i => nth i l d) (seq 0 (length l)) = l.
Proof.
  induction l as [|a l IH]; simpl.
  - reflexivity.
  - f_equal.
    rewrite <- seq_shift, map_map; exact IH.
Qed.

Lemma nth_map_seq {A : Type} (F : nat -> A) (m i : nat) (d : A) :
  (i < m)%nat -> nth i (map F (seq 0 m)) d = F i.
Proof.
  intros Hi.
  rewrite (nth_indep _ d (F 0%nat)) by (rewrite length_map, length_seq; exact Hi).
  rewrite map_nth, seq_nth by exact Hi.
  reflexivity.
Qed.

Lemma Forall_nth_default {A : Type} (P : A -> Prop) (l : list A) (i : nat) (d : A) :
  Forall P l -> (i < length l)%nat -> P (nth i l d).
Proof.
  intros H Hi; rewrite Forall_forall in H; apply H, nth_In, Hi.
Qed.

Lemma combine_map_same {A B D : Type} (g : A -> B) (h : A -> D) (l : list A) :
  combine (map g l) (map h l) = map (fun a => (g a, h a)) l.
Proof.
  induction l as [|a l IH]; cbn [map combine]; [reflexivity|].
  rewrite IH; reflexivity.
Qed.

End ListFacts.

(** ** Facts on the angle of a point *)

Module TrigFacts.
Import Trig.

Lemma atan2_right (y x : R) : 0 < x -> atan2 y x = atan (y / x).
Proof.
  intros Hx; unfold atan2.
  destruct (Rlt_dec 0 x); [reflexivity | contradiction].
Qed.

Lemma atan_inv_neg (t : R) : t < 0 -> atan (/ t) = - (PI / 2) - atan t.
Proof.
  intros Ht.
  replace (/ t) with (- / (- t)) by (field; lra).
  rewrite atan_opp, atan_inv by lra.
  rewrite atan_opp; lra.
Qed.

Lemma atan2_upper (y x : R) : 0 < y -> atan2 y x = PI / 2 - atan (x / y).
Proof.
  intros Hy; unfold atan2.
  destruct (Rlt_dec 0 x) as [Hx|Hx].
  - replace (y / x) with (/ (x / y)) by (field; lra).
    apply atan_inv; apply Rdiv_lt_0_compat; assumption.
  - destruct (Rlt_dec x 0) as [Hx'|Hx'].
    + destruct (Rle_dec 0 y) as [_|H]; [|lra].
      replace (y / x) with (/ (x / y)) by (field; lra).
      rewrite atan_inv_neg; [lra|].
      apply Ropp_lt_cancel; rewrite Ropp_0.
      replace (- (x / y)) with ((- x) / y) by (field; lra).
      apply Rdiv_lt_0_compat; lra.
    + assert (x = 0) by lra; subst x.
      destruct (Rlt_dec 0 y); [|contradiction].
      replace (0 / y) with 0 by (field; lra).
      rewrite atan_0; lra.
Qed.

Lemma atan2_lower (y x : R) : y < 0 -> atan2 y x = - (PI / 2) - atan (x / y).
Proof.
  intros Hy; unfold atan2.
  destruct (Rlt_dec 0 x) as [Hx|Hx].
  - replace (y / x) with (/ (x / y)) by (field; lra).
    apply atan_inv_neg.
    apply Ropp_lt_cancel; rewrite Ropp_0.
    replace (- (x / y)) with (x / (- y)) by (field; lra).
    apply Rdiv_lt_0_compat; lra.
  - destruct (Rlt_dec x 0) as [Hx'|Hx'].
    + destruct (Rle_dec 0 y) as [H|_]; [lra|].
      replace (y / x) with (/ (x / y)) by (field; lra).
      rewrite atan_inv; [lra|].
      replace (x / y) with ((- x) / (- y)) by (field; lra).
      apply Rdiv_lt_0_compat; lra.
    + assert (x = 0) by lra; subst x.
      destruct (Rlt_dec 0 y); [lra|].
      destruct (Rlt_dec y 0); [|contradiction].
      replace (0 / y) with 0 by (field; lra).
      rewrite atan_0; lra.
Qed.

(** A function with a derivative at a point keeps its sign nearby. *)
Lemma locally_pos (f : R -> R) (t0 l : R) :
  derivable_pt_lim f t0 l -> 0 < f t0 ->
  exists delta : R, 0 < delta /\
    forall t, t0 - delta < t < t0 + delta -> 0 < f t.
Proof.
  intros Hd Hpos.
  assert (Hc : continuity_pt f t0).
  { apply derivable_continuous_pt; exists l; exact Hd. }
  destruct (Hc (f t0) Hpos) as (delta & Hdelta & H).
  exists delta; split; [exact Hdelta|].
  intros t Ht.
  destruct (Req_dec t t0) as [->|Hne]; [exact Hpos|].
  specialize (H t); unfold D_x, no_cond, dist in H; simpl in H.
  unfold Rdist in H.
  assert (Hlt : Rabs (f t - f t0) < f t0).
  { apply H; split; [split; [exact I | auto]|].
    apply Rabs_def1; lra. }
  apply Rabs_def2 in Hlt; lra.
Qed.

Lemma derivable_pt_lim_atan_quot (a b : R -> R) (t0 a' b' : R) :
  derivable_pt_lim a t0 a' -> derivable_pt_lim b t0 b' -> b t0 <> 0 ->
  derivable_pt_lim (fun t => atan (a t / b t)) t0
    ((b t0 * a' - a t0 * b') / (a t0 * a t0 + b t0 * b t0)).
Proof.
  intros Ha Hb Hb0.
  pose proof (derivable_pt_lim_div a b t0 a' b' Ha Hb Hb0) as Hq.
  pose proof (derivable_pt_lim_comp (a / b)%F atan t0 _ _ Hq
                (derivable_pt_lim_atan _)) as Hc.
  unfold div_fct in Hc.
  assert (Hs : a t0 * a t0 + b t0 * b t0 <> 0) by nra.
  replace ((b t0 * a' - a t0 * b') / (a t0 * a t0 + b t0 * b t0))
    with (/ (1 + (a t0 / b t0) ^ 2) * ((a' * b t0 - b' * a t0) / (b t0)²)).
  - exact Hc.
  - unfold Rsqr; field; repeat split; first [assumption | nra].
Qed.

(** The derivative of the angle along a curve that avoids the
    negative real axis and the origin. *)
Lemma derivable_pt_lim_atan2 (a b : R -> R) (t0 a' b' : R) :
  derivable_pt_lim a t0 a' -> derivable_pt_lim b t0 b' ->
  (0 < b t0 \/ a t0 <> 0) ->
  derivable_pt_lim (fun t => atan2 (a t) (b t)) t0
    ((b t0 * a' - a t0 * b') / (a t0 * a t0 + b t0 * b t0)).
Proof.
  intros Ha Hb [Hpos|Hne].
  - destruct (locally_pos b t0 b' Hb Hpos) as (delta & Hdelta & Hloc).
    apply (derivable_pt_lim_locally_ext (fun t => atan (a t / b t)) _ t0
             (t0 - delta) (t0 + delta)); [lra| |].
    + intros t Ht; symmetry; apply atan2_right, Hloc, Ht.
    + apply derivable_pt_lim_atan_quot; [assumption|assumption|lra].
  - destruct (Rdichotomy _ _ Hne) as [Hneg|Hpos].
    + assert (Hma : derivable_pt_lim (fun t => - a t) t0 (- a')).
      { apply (derivable_pt_lim_opp a); exact Ha. }
      destruct (locally_pos (fun t => - a t) t0 (- a') Hma ltac:(lra))
        as (delta & Hdelta & Hloc).
      apply (derivable_pt_lim_locally_ext
               (fun t => - (PI / 2) - atan (b t / a t)) _ t0
               (t0 - delta) (t0 + delta)); [lra| |].
      * intros t Ht; symmetry; apply atan2_lower.
        specialize (Hloc t Ht); lra.
      * pose proof (derivable_pt_lim_atan_quot b a t0 b' a' Hb Ha ltac:(lra)) as Hq.
        pose proof (derivable_pt_lim_minus _ _ t0 _ _
                      (derivable_pt_lim_const (- (PI / 2)) t0) Hq) as Hm.
        unfold minus_fct, fct_cte in Hm.
        replace ((b t0 * a' - a t0 * b') / (a t0 * a t0 + b t0 * b t0))
          with (0 - (a t0 * b' - b t0 * a') / (b t0 * b t0 + a t0 * a t0)).
        { exact Hm. }
        { field; repeat split; first [assumption | nra]. }
    + destruct (locally_pos a t0 a' Ha Hpos) as (delta & Hdelta & Hloc).
      apply (derivable_pt_lim_locally_ext
               (fun t => PI / 2 - atan (b t / a t)) _ t0
               (t0 - delta) (t0 + delta)); [lra| |].
      * intros t Ht; symmetry; apply atan2_upper, Hloc, Ht.
      * pose proof (derivable_pt_lim_atan_quot b a t0 b' a' Hb Ha ltac:(lra)) as Hq.
        pose proof (derivable_pt_lim_minus _ _ t0 _ _
                      (derivable_pt_lim_const (PI / 2) t0) Hq) as Hm.
        unfold minus_fct, fct_cte in Hm.
        replace ((b t0 * a' - a t0 * b') / (a t0 * a t0 + b t0 * b t0))
          with (0 - (a t0 * b' - b t0 * a') / (b t0 * b t0 + a t0 * a t0)).
        { exact Hm. }
        { field; repeat split; first [assumption | nra]. }
Qed.

End TrigFacts.

(** ** Facts on complex numbers *)

Module CplxFacts.
Import Cplx ListFacts.

Lemma C_eq (a b : C) : re a = re b -> im a = im b -> a = b.
Proof. destruct a, b; simpl; intros -> ->; reflexivity. Qed.

Lemma RtoC_inj (a b : R) : RtoC a = RtoC b -> a = b.
Proof. intros H; exact (f_equal re H). Qed.

Ltac csolve := intros; apply C_eq; simpl; try ring; try lra.

Lemma Cadd_comm a b : Cadd a b = Cadd b a.
Proof. csolve. Qed.
Lemma Cadd_assoc a b c : Cadd a (Cadd b c) = Cadd (Cadd a b) c.
Proof. csolve. Qed.
Lemma Cadd_0_l a : Cadd C0 a = a.
Proof. csolve. Qed.
Lemma Cadd_0_r a : Cadd a C0 = a.
Proof. csolve. Qed.
Lemma Cmul_comm a b : Cmul a b = Cmul b a.
Proof. csolve. Qed.
Lemma Cmul_assoc a b c : Cmul a (Cmul b c) = Cmul (Cmul a b) c.
Proof. csolve. Qed.
Lemma Cmul_1_l a : Cmul C1 a = a.
Proof. csolve. Qed.
Lemma Cmul_1_r a : Cmul a C1 = a.
Proof. csolve. Qed.
Lemma Cmul_0_l a : Cmul C0 a = C0.
Proof. csolve. Qed.
Lemma Cmul_0_r a : Cmul a C0 = C0.
Proof. csolve. Qed.
Lemma Cmul_add_distr_r a b c :
  Cmul (Cadd a b) c = Cadd (Cmul a c) (Cmul b c).
Proof. csolve. Qed.
Lemma Cmul_add_distr_l a b c :
  Cmul a (Cadd b c) = Cadd (Cmul a b) (Cmul a c).
Proof. csolve. Qed.
Lemma Cadd_opp_r a : Cadd a (Copp a) = C0.
Proof. csolve. Qed.

Lemma C_ring : ring_theory C0 C1 Cadd Cmul Csub Copp (@eq C).
Proof.
  constructor; intros.
  - apply Cadd_0_l.
  - apply Cadd_comm.
  - apply Cadd_assoc.
  - apply Cmul_1_l.
  - apply Cmul_comm.
  - apply Cmul_assoc.
  - apply Cmul_add_distr_r.
  - reflexivity.
  - apply Cadd_opp_r.
Qed.

Add Ring C_ring_inst : C_ring.

Lemma RtoC_add a b : RtoC (a + b) = Cadd (RtoC a) (RtoC b).
Proof. csolve. Qed.
Lemma RtoC_mul a b : RtoC (a * b) = Cmul (RtoC a) (RtoC b).
Proof. csolve. Qed.
Lemma RtoC_opp a : RtoC (- a) = Copp (RtoC a).
Proof. csolve. Qed.

Lemma RtoC_pow a n : RtoC (a ^ n) = Cpow (RtoC a) n.
Proof.
  induction n as [|n IH]; simpl.
  - reflexivity.
  - rewrite RtoC_mul, IH; reflexivity.
Qed.

Lemma RtoC_inv a : a <> 0 -> RtoC (/ a) = Cinv (RtoC a).
Proof.
  intros Ha; apply C_eq; unfold Cinv, Cnorm2; simpl.
  - replace (a * a + 0 * 0) with (a * a) by ring.
    field; exact Ha.
  - replace (a * a + 0 * 0) with (a * a) by ring.
    field; exact Ha.
Qed.

Lemma RtoC_powerRZ a z :
  (a <> 0 \/ (0 <= z)%Z) -> RtoC (powerRZ a z) = CpowZ (RtoC a) z.
Proof.
  intros H; destruct z as [|p|p]; simpl.
  - reflexivity.
  - apply RtoC_pow.
  - destruct H as [H|H]; [|lia].
    rewrite RtoC_inv, RtoC_pow; [reflexivity|].
    apply pow_nonzero; exact H.
Qed.

Lemma Csum_app l1 l2 : Csum (l1 ++ l2) = Cadd (Csum l1) (Csum l2).
Proof.
  induction l1 as [|a l1 IH]; simpl.
  - rewrite Cadd_0_l; reflexivity.
  - rewrite IH; ring.
Qed.

Lemma RtoC_sum (l : list R) :
  RtoC (fold_right Rplus 0 l) = Csum (map RtoC l).
Proof.
  induction l as [|a l IH]; simpl.
  - reflexivity.
  - rewrite RtoC_add, IH; reflexivity.
Qed.

Lemma Cmod_RtoC r : Cmod (RtoC r) = Rabs r.
Proof.
  unfold Cmod, Cnorm2; simpl.
  replace (r * r + 0 * 0) with (Rsqr r) by (unfold Rsqr; ring).
  apply sqrt_Rsqr_abs.
Qed.

Lemma Csqrt_RtoC_nonneg r : 0 <= r -> Csqrt (RtoC r) = RtoC (sqrt r).
Proof.
  intros Hr; unfold Csqrt; rewrite Cmod_RtoC, Rabs_pos_eq by exact Hr.
  apply C_eq; simpl.
  - f_equal; lra.
  - replace ((r - r) / 2) with 0 by lra.
    rewrite sqrt_0; ring.
Qed.

Lemma Csqrt_RtoC_neg r : r < 0 -> Csqrt (RtoC r) = mkC 0 (sqrt (- r)).
Proof.
  intros Hr; unfold Csqrt; rewrite Cmod_RtoC, Rabs_left by exact Hr.
  apply C_eq; simpl.
  - replace ((- r + r) / 2) with 0 by lra.
    apply sqrt_0.
  - destruct (Rlt_dec 0 0) as [H|_]; [lra|].
    replace ((- r - r) / 2) with (- r) by lra.
    ring.
Qed.

Lemma Cmod_ge_re a : Rabs (re a) <= Cmod a.
Proof.
  unfold Cmod, Cnorm2.
  rewrite <- sqrt_Rsqr_abs.
  apply sqrt_le_1_alt; unfold Rsqr; nra.
Qed.

(** The square root is a root: this holds for every complex number. *)
Lemma Csqrt_sqr a : Cmul (Csqrt a) (Csqrt a) = a.
Proof.
  destruct a as [x y].
  pose proof (Cmod_ge_re (mkC x y)) as Hm; simpl in Hm.
  assert (Hm2 : Cmod (mkC x y) * Cmod (mkC x y) = x * x + y * y).
  { unfold Cmod, Cnorm2; simpl; apply sqrt_sqrt; nra. }
  set (m := Cmod (mkC x y)) in *.
  assert (Hx : - m <= x <= m).
  { unfold Rabs in Hm; destruct (Rcase_abs x); lra. }
  assert (Hp : 0 <= (m + x) / 2) by lra.
  assert (Hq : 0 <= (m - x) / 2) by lra.
  unfold Csqrt; fold m; simpl.
  set (s := if Rlt_dec y 0 then -1 else 1).
  assert (Hs : s * s = 1) by (unfold s; destruct (Rlt_dec y 0); ring).
  pose proof (sqrt_sqrt _ Hp) as Ep.
  pose proof (sqrt_sqrt _ Hq) as Eq.
  assert (Epq : sqrt ((m + x) / 2) * sqrt ((m - x) / 2) = Rabs y / 2).
  { rewrite <- sqrt_mult by assumption.
    replace ((m + x) / 2 * ((m - x) / 2)) with (Rsqr (y / 2))
      by (unfold Rsqr; nra).
    rewrite sqrt_Rsqr_abs.
    unfold Rdiv; rewrite Rabs_mult, (Rabs_pos_eq (/ 2)) by lra.
    reflexivity. }
  set (p := sqrt ((m + x) / 2)) in *.
  set (q := sqrt ((m - x) / 2)) in *.
  apply C_eq; simpl.
  - replace (p * p - s * q * (s * q)) with (p * p - (s * s) * (q * q)) by ring.
    rewrite Hs, Ep, Eq; lra.
  - replace (p * (s * q) + s * q * p) with (2 * s * (p * q)) by ring.
    rewrite Epq; unfold s.
    destruct (Rlt_dec y 0) as [Hy|Hy].
    + rewrite Rabs_left by exact Hy; lra.
    + rewrite Rabs_pos_eq by lra; lra.
Qed.

Lemma Cpow_2 a : CpowZ a 2 = Cmul a a.
Proof. csolve. Qed.

(** *** Finite sums *)

Lemma Csum_zero {A : Type} (l : list A) : Csum (map (fun _ => C0) l) = C0.
Proof.
  induction l as [|a l IH]; simpl.
  - reflexivity.
  - rewrite IH; ring.
Qed.

Lemma Csum_ext {A : Type} (g h : A -> C) (l : list A) :
  (forall a, In a l -> g a = h a) -> Csum (map g l) = Csum (map h l).
Proof.
  induction l as [|a l IH]; simpl; intros H.
  - reflexivity.
  - rewrite (H a) by (left; reflexivity).
    rewrite IH by (intros; apply H; right; assumption).
    reflexivity.
Qed.

Lemma Csum_plus {A : Type} (g h : A -> C) (l : list A) :
  Csum (map (fun a => Cadd (g a) (h a)) l)
  = Cadd (Csum (map g l)) (Csum (map h l)).
Proof.
  induction l as [|a l IH]; simpl.
  - ring.
  - rewrite IH; ring.
Qed.

Lemma Csum_mul_r {A : Type} (g : A -> C) (c : C) (l : list A) :
  Cmul (Csum (map g l)) c = Csum (map (fun a => Cmul (g a) c) l).
Proof.
  induction l as [|a l IH]; simpl.
  - ring.
  - rewrite <- IH; ring.
Qed.

Lemma Csum_mul_l {A : Type} (g : A -> C) (c : C) (l : list A) :
  Cmul c (Csum (map g l)) = Csum (map (fun a => Cmul c (g a)) l).
Proof.
  induction l as [|a l IH]; simpl.
  - ring.
  - rewrite <- IH; ring.
Qed.

(** Exchanging two finite sums. *)
Lemma Csum_swap {A B : Type} (h : A -> B -> C) (l1 : list A) (l2 : list B) :
  Csum (map (fun a => Csum (map (fun b => h a b) l2)) l1)
  = Csum (map (fun b => Csum (map (fun a => h a b) l1)) l2).
Proof.
  induction l1 as [|a l1 IH].
  - symmetry; apply (Csum_zero l2).
  - change (Cadd (Csum (map (fun b => h a b) l2))
                 (Csum (map (fun a0 => Csum (map (fun b => h a0 b) l2)) l1))
            = Csum (map (fun b => Cadd (h a b) (Csum (map (fun a0 => h a0 b) l1))) l2)).
    rewrite IH.
    symmetry; apply (Csum_plus (fun b => h a b)
                       (fun b => Csum (map (fun a0 => h a0 b) l1)) l2).
Qed.

(** A sum over all pairs is a sum of sums. *)
Lemma Csum_list_prod {A B : Type} (h : A * B -> C) (l1 : list A) (l2 : list B) :
  Csum (map h (list_prod l1 l2))
  = Csum (map (fun a => Csum (map (fun b => h (a, b)) l2)) l1).
Proof.
  induction l1 as [|a l1 IH]; simpl.
  - reflexivity.
  - rewrite map_app, Csum_app, map_map, IH; reflexivity.
Qed.

(** A sum with a single non-zero term. *)
Lemma Csum_single (h : nat -> C) (l : list nat) (i : nat) :
  NoDup l -> In i l -> (forall j, In j l -> j <> i -> h j = C0) ->
  Csum (map h l) = h i.
Proof.
  induction l as [|a l IH]; simpl; intros Hnd Hin Hz.
  - contradiction.
  - inversion Hnd as [|a' l' Hnotin Hnd']; subst.
    destruct (Nat.eq_dec a i) as [->|Hne].
    + rewrite (Csum_ext h (fun _ => C0)), Csum_zero.
      * ring.
      * intros j Hj; apply Hz; [right; exact Hj|].
        intros ->; contradiction.
    + rewrite (Hz a) by (auto; left; reflexivity).
      rewrite IH; [ring|assumption| |].
      * destruct Hin as [E|Hin]; [contradiction|exact Hin].
      * intros j Hj; apply Hz; right; exact Hj.
Qed.

(** Summing over a list is summing over its indices. *)
Lemma Csum_index {A : Type} (g : A -> C) (l : list A) (d : A) :
  Csum (map g l) = Csum (map (fun i => g (nth i l d)) (seq 0 (length l))).
Proof.
  rewrite <- (map_map (fun i => nth i l d) g), map_nth_seq; reflexivity.
Qed.

End CplxFacts.


(** ** Facts on expressions *)

Module SympyFacts.
Import Cplx CplxFacts Trig TrigFacts Sympy.

Lemma regular_rdefined r e : regular r e -> rdefined r e.
Proof.
  induction e; simpl; try tauto.
  - intuition lra.
  - intros (Ha & Hb & H); repeat split; auto.
    destruct H as [H|H]; [right; lra | left; exact H].
Qed.

Lemma eval_real r e : rdefined r e -> eval (inj r) e = RtoC (reval r e).
Proof.
  induction e as [q| |s|a IHa b IHb|a IHa b IHb|a IHa n|a IHa|a IHa b IHb]; simpl.
  - reflexivity.
  - reflexivity.
  - reflexivity.
  - intros [Ha Hb]; rewrite IHa, IHb by assumption.
    symmetry; apply RtoC_add.
  - intros [Ha Hb]; rewrite IHa, IHb by assumption.
    symmetry; apply RtoC_mul.
  - intros [Ha Hn]; rewrite IHa by assumption.
    symmetry; apply RtoC_powerRZ.
    destruct (Z_lt_dec n 0) as [H|H]; [left; auto | right; lia].
  - intros [Ha H0]; rewrite IHa by assumption.
    apply Csqrt_RtoC_nonneg; exact H0.
  - intros (Ha & Hb & _); rewrite IHa, IHb by assumption.
    reflexivity.
Qed.

Lemma rdefined_defined r e : rdefined r e -> defined (inj r) e.
Proof.
  induction e as [q| |s|a IHa b IHb|a IHa b IHb|a IHa n|a IHa|a IHa b IHb]; simpl;
    try tauto.
  - intros [Ha Hn]; split; [auto|].
    intros Hlt E; rewrite eval_real in E by assumption.
    apply (Hn Hlt), RtoC_inj, E.
  - intros (Ha & Hb & H).
    rewrite !eval_real by assumption; simpl.
    repeat split; auto.
Qed.

Lemma upd_same r x : forall s, upd r x (r x) s = r s.
Proof.
  intros s; unfold upd.
  destruct (String.eqb_spec s x) as [->|]; reflexivity.
Qed.

Lemma reval_ext r r' e : (forall s, r s = r' s) -> reval r e = reval r' e.
Proof.
  intros H; induction e; simpl; congruence.
Qed.

Lemma reval_upd_same r x e : reval (upd r x (r x)) e = reval r e.
Proof. apply reval_ext, upd_same. Qed.

Lemma Q2R_inject_Z z : Q2R (inject_Z z) = IZR z.
Proof. unfold Q2R, inject_Z; simpl; field. Qed.

Lemma reval_Int r z : reval r (Int z) = IZR z.
Proof. apply Q2R_inject_Z. Qed.

Lemma eval_Int v z : eval v (Int z) = RtoC (IZR z).
Proof. simpl; rewrite Q2R_inject_Z; reflexivity. Qed.


(** *** Symbolic differentiation computes the derivative *)

Lemma derivable_pt_lim_powerRZ (n : Z) (y : R) :
  ((0 <= n)%Z \/ y <> 0) ->
  derivable_pt_lim (fun t => powerRZ t n) y (IZR n * powerRZ y (n - 1)).
Proof.
  intros H; destruct n as [|p|p].
  - simpl; rewrite Rmult_0_l.
    apply (derivable_pt_lim_const 1).
  - replace (IZR (Z.pos p) * powerRZ y (Z.pos p - 1))
      with (INR (Pos.to_nat p) * y ^ pred (Pos.to_nat p)).
    + apply (derivable_pt_lim_pow y (Pos.to_nat p)).
    + rewrite INR_IZR_INZ, positive_nat_Z, pow_powerRZ.
      do 2 f_equal; lia.
  - destruct H as [H|Hy]; [lia|].
    destruct (Pos2Nat.is_succ p) as [j Hj].
    assert (Hn : IZR (Z.neg p) = - INR (Datatypes.S j)).
    { rewrite <- Hj, INR_IZR_INZ, positive_nat_Z.
      rewrite <- opp_IZR; reflexivity. }
    assert (Hp : powerRZ y (Z.neg p - 1) = / (y * (y * y ^ j))).
    { replace (Z.neg p - 1)%Z with (- Z.of_nat (Datatypes.S (Datatypes.S j)))%Z by lia.
      rewrite powerRZ_neg', <- pow_powerRZ; reflexivity. }
    assert (Hj0 : y ^ j <> 0) by (apply pow_nonzero; exact Hy).
    apply derivable_pt_lim_ext with (f := (fct_cte 1 / (fun t => t ^ Datatypes.S j))%F).
    { intros z; unfold div_fct, fct_cte; simpl; rewrite Hj; simpl.
      unfold Rdiv; ring. }
    replace (IZR (Z.neg p) * powerRZ y (Z.neg p - 1))
      with ((0 * y ^ Datatypes.S j - INR (Datatypes.S j) * y ^ pred (Datatypes.S j) * fct_cte 1 y)
            / Rsqr (y ^ Datatypes.S j)).
    + apply derivable_pt_lim_div.
      * apply derivable_pt_lim_const.
      * apply derivable_pt_lim_pow.
      * apply pow_nonzero; exact Hy.
    + rewrite Hn, Hp; unfold fct_cte, Rsqr.
      change (pred (Datatypes.S j)) with j.
      change (y ^ Datatypes.S j) with (y * y ^ j).
      field; split; assumption.
Qed.

(** Soundness of [diff]: where the expression is regular, the value of
    the symbolic derivative is the partial derivative of the value. *)
Theorem diff_sound (r : renv) (x : string) (f : expr) :
  regular r f -> partial_derivative r f x (reval r (diff f x)).
Proof.
  unfold partial_derivative.
  induction f as [q| |s|a IHa b IHb|a IHa b IHb|a IHa n|a IHa|a IHa b IHb];
    cbn [diff reval regular].
  - intros _; rewrite reval_Int.
    apply (derivable_pt_lim_const (Q2R q)).
  - intros _; rewrite reval_Int.
    apply (derivable_pt_lim_const PI).
  - intros _; unfold upd.
    destruct (String.eqb_spec s x) as [->|Hne]; rewrite reval_Int.
    + apply derivable_pt_lim_id.
    + apply (derivable_pt_lim_const (r s)).
  - intros [Ha Hb].
    apply (derivable_pt_lim_plus _ _ _ _ _ (IHa Ha) (IHb Hb)).
  - intros [Ha Hb].
    pose proof (derivable_pt_lim_mult _ _ _ _ _ (IHa Ha) (IHb Hb)) as D.
    cbv beta in D; rewrite !reval_upd_same in D.
    exact D.
  - intros [Ha Hn].
    destruct (Z.eqb_spec n 0) as [->|Hn0].
    + rewrite reval_Int; simpl.
      apply (derivable_pt_lim_const 1).
    + cbn [reval]; rewrite reval_Int.
      apply (derivable_pt_lim_comp (fun t => reval (upd r x t) a)
               (fun y => powerRZ y n) _ _ _ (IHa Ha)).
      rewrite reval_upd_same.
      apply derivable_pt_lim_powerRZ.
      destruct (Z_lt_dec n 0) as [H|H]; [right; auto | left; lia].
  - intros [Ha H0].
    pose proof (fun l => derivable_pt_lim_comp (fun t => reval (upd r x t) a)
                  sqrt _ _ l (IHa Ha)) as D.
    cbv beta in D; rewrite reval_upd_same in D.
    specialize (D _ (derivable_pt_lim_sqrt _ H0)).
    assert (Hs : sqrt (reval r a) <> 0).
    { apply Rgt_not_eq, sqrt_lt_R0, H0. }
    assert (E : reval r (diff a x) * (Q2R (1 # 2) * powerRZ (sqrt (reval r a)) (-1))
                = / (2 * sqrt (reval r a)) * reval r (diff a x)).
    { unfold Q2R; simpl; field; exact Hs. }
    rewrite E; exact D.
  - intros (Ha & Hb & H).
    pose proof (derivable_pt_lim_atan2 _ _ _ _ _ (IHa Ha) (IHb Hb)) as D.
    cbv beta in D; rewrite !reval_upd_same in D.
    specialize (D H).
    assert (Hs : reval r a * reval r a + reval r b * reval r b <> 0).
    { destruct H as [H|H]; nra. }
    assert (E : (reval r b * reval r (diff a x)
                 + reval r (Int (-1)) * (reval r a * reval r (diff b x)))
                * powerRZ (powerRZ (reval r a) 2 + powerRZ (reval r b) 2) (-1)
                = (reval r b * reval r (diff a x) - reval r a * reval r (diff b x))
                  / (reval r a * reval r a + reval r b * reval r b)).
    { rewrite reval_Int; simpl; field.
      intros E0; apply Hs; rewrite <- E0; ring. }
    rewrite E; exact D.
Qed.

(** The symbolic derivative of a regular expression is defined. *)
Lemma regular_diff (r : renv) (x : string) (f : expr) :
  regular r f -> rdefined r (diff f x).
Proof.
  induction f as [q| |s|a IHa b IHb|a IHa b IHb|a IHa n|a IHa|a IHa b IHb]; simpl.
  - trivial.
  - trivial.
  - destruct (String.eqb s x); simpl; trivial.
  - intros [Ha Hb]; auto.
  - intros [Ha Hb]; repeat split; auto using regular_rdefined.
  - intros [Ha Hn].
    destruct (Z.eqb_spec n 0) as [->|Hn0]; simpl; [trivial|].
    repeat split; auto using regular_rdefined.
    intros Hlt; apply Hn; lia.
  - intros [Ha H0]; repeat split; auto using regular_rdefined.
    + lra.
    + intros _; apply Rgt_not_eq, sqrt_lt_R0, H0.
  - intros (Ha & Hb & H); repeat split; auto using regular_rdefined;
      try (intros; lia).
    intros _; simpl.
    destruct H as [H|H]; nra.
Qed.

(** *** The basic simplifier is sound *)

Lemma Qeq_bool_Q2R (p q : Q) : Qeq_bool p q = true -> Q2R p = Q2R q.
Proof. intros H; apply Qeq_eqR, Qeq_bool_eq, H. Qed.

Lemma mk_add_sound (v : env) (a b : expr) :
  defined v a -> defined v b ->
  defined v (mk_add a b) /\ eval v (mk_add a b) = Cadd (eval v a) (eval v b).
Proof.
  intros Ha Hb.
  assert (Hz : forall p, Qeq_bool p 0 = true -> RtoC (Q2R p) = C0).
  { intros p Hp; rewrite (Qeq_bool_Q2R _ _ Hp); unfold C0; f_equal; apply RMicromega.Q2R_0. }
  destruct a as [p| | | | | | | ]; destruct b as [q| | | | | | | ];
    cbn [mk_add];
    try (split; [cbn [defined]; tauto | reflexivity]);
    try (cbn [eval]; rewrite Q2R_plus, RtoC_add; split; [exact I | reflexivity]);
    try (destruct (Qeq_bool p 0) eqn:E;
         [ split; [assumption | cbn [eval]; rewrite (Hz _ E), Cadd_0_l; reflexivity]
         | split; [cbn [defined]; tauto | reflexivity] ]);
    try (destruct (Qeq_bool q 0) eqn:E;
         [ split; [assumption | cbn [eval]; rewrite (Hz _ E), Cadd_0_r; reflexivity]
         | split; [cbn [defined]; tauto | reflexivity] ]).
Qed.

Lemma mk_mul_sound (v : env) (a b : expr) :
  defined v a -> defined v b ->
  defined v (mk_mul a b) /\ eval v (mk_mul a b) = Cmul (eval v a) (eval v b).
Proof.
  intros Ha Hb.
  assert (Hz : forall p, Qeq_bool p 1 = true -> RtoC (Q2R p) = C1).
  { intros p Hp; rewrite (Qeq_bool_Q2R _ _ Hp); unfold C1; f_equal; apply RMicromega.Q2R_1. }
  destruct a as [p| | | | | | | ]; destruct b as [q| | | | | | | ];
    cbn [mk_mul];
    try (split; [cbn [defined]; tauto | reflexivity]);
    try (cbn [eval]; rewrite Q2R_mult, RtoC_mul; split; [exact I | reflexivity]);
    try (destruct (Qeq_bool p 1) eqn:E;
         [ split; [assumption | cbn [eval]; rewrite (Hz _ E), Cmul_1_l; reflexivity]
         | split; [cbn [defined]; tauto | reflexivity] ]);
    try (destruct (Qeq_bool q 1) eqn:E;
         [ split; [assumption | cbn [eval]; rewrite (Hz _ E), Cmul_1_r; reflexivity]
         | split; [cbn [defined]; tauto | reflexivity] ]).
Qed.

Theorem simplify_basic_sound : sound_simplifier simplify_basic.
Proof.
  intros v e.
  induction e as [q| |s|a IHa b IHb|a IHa b IHb|a IHa n|a IHa|a IHa b IHb];
    cbn [simplify_basic defined].
  - tauto.
  - tauto.
  - tauto.
  - intros [Ha Hb].
    destruct (IHa Ha) as [Da Ea], (IHb Hb) as [Db Eb].
    destruct (mk_add_sound v _ _ Da Db) as [D E].
    split; [exact D|].
    rewrite E, Ea, Eb; reflexivity.
  - intros [Ha Hb].
    destruct (IHa Ha) as [Da Ea], (IHb Hb) as [Db Eb].
    destruct (mk_mul_sound v _ _ Da Db) as [D E].
    split; [exact D|].
    rewrite E, Ea, Eb; reflexivity.
  - intros [Ha Hn].
    destruct (IHa Ha) as [Da Ea].
    cbn [eval]; rewrite Ea.
    split; [split; assumption | reflexivity].
  - intros Ha.
    destruct (IHa Ha) as [Da Ea].
    cbn [eval]; rewrite Ea.
    split; [assumption | reflexivity].
  - intros (Ha & Hb & H).
    destruct (IHa Ha) as [Da Ea], (IHb Hb) as [Db Eb].
    cbn [eval]; rewrite Ea, Eb.
    split; [repeat split; tauto | reflexivity].
Qed.

End SympyFacts.


(** ** Facts on the notebook's functions *)

Module ErrorPropFacts.
Import ListFacts Cplx CplxFacts Sympy SympyFacts ErrorProp Formula.

(** *** Loops *)

Lemma eval_fold {A : Type} (v : env) (step : expr -> A -> expr) (c : A -> C)
    (l : list A) :
  (forall s a, In a l -> eval v (step s a) = Cadd (eval v s) (c a)) ->
  forall acc, eval v (fold_left step l acc) = Cadd (eval v acc) (Csum (map c l)).
Proof.
  induction l as [|a l IH]; intros H acc; cbn [fold_left map Csum fold_right].
  - rewrite Cadd_0_r; reflexivity.
  - rewrite IH by (intros; apply H; right; assumption).
    rewrite H by (left; reflexivity).
    rewrite Cadd_assoc; reflexivity.
Qed.

Lemma defined_fold {A : Type} (v : env) (step : expr -> A -> expr) (l : list A) :
  (forall s a, In a l -> defined v s -> defined v (step s a)) ->
  forall acc, defined v acc -> defined v (fold_left step l acc).
Proof.
  induction l as [|a l IH]; intros H acc Hacc; cbn [fold_left].
  - exact Hacc.
  - apply IH.
    + intros; apply H; [right|]; assumption.
    + apply H; [left; reflexivity | exact Hacc].
Qed.

Lemma for_each_pure {A St : Type} (l : list A) (body : A -> St -> option St)
    (g : St -> A -> St) :
  (forall a s, In a l -> body a s = Some (g s a)) ->
  forall s, for_each l body s = Some (fold_left g l s).
Proof.
  induction l as [|a l IH]; intros H s; cbn [for_each fold_left].
  - reflexivity.
  - rewrite H by (left; reflexivity); cbn [bind].
    apply IH; intros; apply H; right; assumption.
Qed.

Lemma for_each_raises {A St : Type} (l : list A) (body : A -> St -> option St)
    (a : A) :
  In a l -> (forall s, body a s = None) ->
  forall s, for_each l body s = None.
Proof.
  induction l as [|b l IH]; intros Hin Hfail s; cbn [for_each].
  - contradiction.
  - destruct (body b s) as [s'|] eqn:E; cbn [bind]; [|reflexivity].
    destruct Hin as [->|Hin]; [rewrite Hfail in E; discriminate|].
    apply IH; assumption.
Qed.

Lemma eval_Int0 (v : env) : eval v (Int 0) = C0.
Proof. rewrite eval_Int; reflexivity. Qed.

Lemma eval_sum_expr (v : env) (vec : list expr) :
  eval v (sum_expr vec) = Csum (map (eval v) vec).
Proof.
  unfold sum_expr.
  rewrite (eval_fold v Add (eval v)) by reflexivity.
  rewrite eval_Int0, Cadd_0_l; reflexivity.
Qed.

Lemma defined_sum_expr (v : env) (vec : list expr) :
  Forall (defined v) vec -> defined v (sum_expr vec).
Proof.
  intros H; unfold sum_expr; apply defined_fold.
  - intros s a Ha Hs; split; [exact Hs|].
    rewrite Forall_forall in H; apply H, Ha.
  - exact I.
Qed.

(** *** Matrices *)

Lemma nrows_mk_matrix m n F : nrows (mk_matrix m n F) = m.
Proof. unfold nrows, mk_matrix, range; rewrite length_map, length_seq; reflexivity. Qed.

Lemma ncols_mk_matrix m n F : (0 < m)%nat -> ncols (mk_matrix m n F) = n.
Proof.
  intros Hm; unfold ncols, mk_matrix, range.
  destruct m as [|m]; [lia|].
  cbn [seq map]; rewrite length_map, length_seq; reflexivity.
Qed.

Lemma get_mk_matrix m n F i j :
  (i < m)%nat -> (j < n)%nat -> get (mk_matrix m n F) i j = F i j.
Proof.
  intros Hi Hj; unfold get, mk_matrix, range.
  rewrite nth_map_seq by exact Hi.
  apply nth_map_seq; exact Hj.
Qed.

Lemma is_matrix_mk_matrix m n F : is_matrix m n (mk_matrix m n F).
Proof.
  split.
  - apply nrows_mk_matrix.
  - unfold mk_matrix, range; rewrite Forall_map, Forall_forall.
    intros i _; rewrite length_map, length_seq; reflexivity.
Qed.

Lemma simplify_mk_matrix simplify m n F :
  simplify_matrix simplify (mk_matrix m n F)
  = mk_matrix m n (fun i j => simplify (F i j)).
Proof.
  unfold simplify_matrix, mk_matrix.
  rewrite map_map; apply map_ext; intros i.
  rewrite map_map; reflexivity.
Qed.

Lemma ncols_is_matrix m n A : (0 < m)%nat -> is_matrix m n A -> ncols A = n.
Proof.
  intros Hm [Hl Hr]; destruct A as [|row A]; cbn in *; [lia|].
  inversion Hr; assumption.
Qed.

Lemma is_matrix_row m n A i :
  is_matrix m n A -> (i < m)%nat -> length (nth i A []) = n.
Proof.
  intros [Hl Hr] Hi; rewrite Forall_forall in Hr.
  apply Hr, nth_In; lia.
Qed.

Lemma get_In (A : Matrix) m n i j :
  is_matrix m n A -> (i < m)%nat -> (j < n)%nat ->
  exists row, In row A /\ In (get A i j) row.
Proof.
  intros HA Hi Hj; exists (nth i A []); split.
  - apply nth_In; destruct HA; lia.
  - apply nth_In; rewrite (is_matrix_row m n) by assumption; exact Hj.
Qed.

Lemma defined_get v (A : Matrix) m n i j :
  is_matrix m n A -> Forall (Forall (defined v)) A ->
  (i < m)%nat -> (j < n)%nat -> defined v (get A i j).
Proof.
  intros HA HD Hi Hj.
  destruct (get_In A m n i j HA Hi Hj) as (row & Hrow & Hin).
  rewrite Forall_forall in HD; specialize (HD row Hrow).
  rewrite Forall_forall in HD; apply HD, Hin.
Qed.

Lemma rdefined_get r (A : Matrix) m n i j :
  is_matrix m n A -> Forall (Forall (rdefined r)) A ->
  (i < m)%nat -> (j < n)%nat -> rdefined r (get A i j).
Proof.
  intros HA HD Hi Hj.
  destruct (get_In A m n i j HA Hi Hj) as (row & Hrow & Hin).
  rewrite Forall_forall in HD; specialize (HD row Hrow).
  rewrite Forall_forall in HD; apply HD, Hin.
Qed.

Lemma Rsum_nonneg (l : list R) : Forall (fun t => 0 <= t) l -> 0 <= Rsum l.
Proof.
  induction 1 as [|t l Ht _ IH]; cbn [Rsum fold_right]; [lra|].
  unfold Rsum in IH; lra.
Qed.

(** *** The uncorrelated propagator *)

Lemma error_prop_unfold simplify f vars :
  error_prop simplify f vars = Sqrt (simplify (radicand f vars)).
Proof. reflexivity. Qed.

Lemma eval_radicand (v : env) f vars :
  eval v (radicand f vars)
  = Csum (map (fun xs => Cmul (CpowZ (eval v (diff f (fst xs))) 2)
                              (CpowZ (eval v (snd xs)) 2)) vars).
Proof.
  unfold radicand.
  rewrite (eval_fold v _ (fun xs => Cmul (CpowZ (eval v (diff f (fst xs))) 2)
                                         (CpowZ (eval v (snd xs)) 2))).
  - rewrite eval_Int0, Cadd_0_l; reflexivity.
  - intros s [x sigma] _; reflexivity.
Qed.

Lemma defined_radicand (v : env) f vars :
  Forall (fun xs => defined v (diff f (fst xs)) /\ defined v (snd xs)) vars ->
  defined v (radicand f vars).
Proof.
  intros H; unfold radicand; apply defined_fold; [|exact I].
  intros s [x sigma] Hin Hs.
  rewrite Forall_forall in H; destruct (H _ Hin) as [Hd Hsg].
  cbn [defined fst snd] in *.
  repeat split; try assumption; intros; lia.
Qed.

(** *** The correlated propagator *)

Lemma eval_radicand_corr (v : env) f x V :
  eval v (radicand_corr f x V)
  = Csum (map (fun i => Csum (map (fun j => eval v (summand f x V i j))
                                  (range (length x))))
              (range (length x))).
Proof.
  unfold radicand_corr.
  rewrite (eval_fold v _ (fun i => Csum (map (fun j => eval v (summand f x V i j))
                                            (range (length x))))).
  - rewrite eval_Int0, Cadd_0_l; reflexivity.
  - intros s i _.
    apply (eval_fold v (fun sum j => Add sum (summand f x V i j))
             (fun j => eval v (summand f x V i j))).
    reflexivity.
Qed.

Lemma defined_radicand_corr (v : env) f x V :
  (forall i j, (i < length x)%nat -> (j < length x)%nat ->
               defined v (summand f x V i j)) ->
  defined v (radicand_corr f x V).
Proof.
  intros H; unfold radicand_corr, range.
  apply defined_fold; [|exact I].
  intros s i Hi Hs; apply defined_fold; [|exact Hs].
  intros s' j Hj Hs'; split; [exact Hs'|].
  apply in_seq in Hi, Hj; apply H; lia.
Qed.

Lemma defined_summand (v : env) f x V i j :
  is_matrix (length x) (length x) V -> inputs_defined v [f] x V ->
  (i < length x)%nat -> (j < length x)%nat ->
  defined v (summand f x V i j).
Proof.
  intros HV [Hf HVd] Hi Hj.
  inversion Hf as [|f' l Hfx _]; subst.
  unfold summand; cbn [defined]; repeat split.
  - apply (Forall_nth_default (fun xj => defined v (diff f xj))); assumption.
  - apply (Forall_nth_default (fun xj => defined v (diff f xj))); assumption.
  - apply (defined_get v V (length x) (length x)); assumption.
Qed.

Lemma inputs_regular_defined (r : renv) f x V :
  inputs_regular r f V -> inputs_defined (inj r) f x V.
Proof.
  intros [Hf HV]; split.
  - rewrite Forall_forall in *; intros fi Hfi.
    rewrite Forall_forall; intros xj _.
    apply rdefined_defined, regular_diff, Hf, Hfi.
  - rewrite Forall_forall in *; intros row Hrow.
    specialize (HV row Hrow); rewrite Forall_forall in *.
    intros e He; apply rdefined_defined, HV, He.
Qed.

(** The value of a summand at a real point. *)
Lemma eval_summand_real (r : renv) f x V i j :
  is_matrix (length x) (length x) V -> inputs_regular r [f] V ->
  (i < length x)%nat -> (j < length x)%nat ->
  eval (inj r) (summand f x V i j)
  = RtoC (reval r (diff f (nth i x EmptyString))
          * reval r (diff f (nth j x EmptyString))
          * reval r (get V i j)).
Proof.
  intros HV [Hf HVd] Hi Hj.
  inversion Hf as [|f' l Hreg _]; subst.
  unfold summand; cbn [eval].
  rewrite !eval_real.
  - rewrite <- !RtoC_mul; reflexivity.
  - apply (rdefined_get r V (length x) (length x)); assumption.
  - apply regular_diff, Hreg.
  - apply regular_diff, Hreg.
Qed.

Section Propagators.

Variable simplify : expr -> expr.
Hypothesis simplify_sound : sound_simplifier simplify.

(** The propagator returns the square root of its sum, at every point
    where the derivatives and the uncertainties are defined. *)
Lemma error_prop_value (v : env) f vars :
  Forall (fun xs => defined v (diff f (fst xs)) /\ defined v (snd xs)) vars ->
  defined v (error_prop simplify f vars)
  /\ eval v (error_prop simplify f vars) = Csqrt (eval v (radicand f vars)).
Proof.
  intros H; rewrite error_prop_unfold.
  destruct (simplify_sound v _ (defined_radicand v f vars H)) as [D E].
  split; [exact D|].
  cbn [eval]; rewrite E; reflexivity.
Qed.

(** C1.  For every expression [f] and every list [vars] of pairs of a
    variable and its uncertainty, at every real point where [f] is
    differentiable and the uncertainties are defined, [error_prop]
    returns an expression whose value is
    [sqrt( sum_i (df/dx_i)^2 * sigma_i^2 )], where [df/dx_i] is the
    partial derivative of [f] along [x_i], the other variables being
    held constant. *)
Theorem error_prop_spec (f : expr) (vars : list (string * expr)) (r : renv) :
  regular r f ->
  Forall (fun xs => rdefined r (snd xs)) vars ->
  exists d : list R,
    Forall2 (fun xs di => partial_derivative r f (fst xs) di) vars d
    /\ eval (inj r) (error_prop simplify f vars)
       = RtoC (sigma_uncorr d (map (fun xs => reval r (snd xs)) vars)).
Proof.
  intros Hf Hs.
  exists (map (fun xs => reval r (diff f (fst xs))) vars); split.
  - clear Hs; induction vars as [|xs vars IH]; cbn [map]; constructor.
    + apply diff_sound, Hf.
    + exact IH.
  - assert (Hd : Forall (fun xs => defined (inj r) (diff f (fst xs))
                                   /\ defined (inj r) (snd xs)) vars).
    { rewrite Forall_forall in *; intros xs Hin; split.
      - apply rdefined_defined, regular_diff, Hf.
      - apply rdefined_defined, Hs, Hin. }
    destruct (error_prop_value (inj r) f vars Hd) as [_ E].
    rewrite E, eval_radicand; unfold sigma_uncorr.
    rewrite combine_map_same.
    rewrite <- Csqrt_RtoC_nonneg.
    + f_equal; unfold Rsum; rewrite RtoC_sum, !map_map.
      apply Csum_ext; intros xs Hin; cbn [fst snd].
      rewrite Forall_forall in Hs.
      rewrite !eval_real by (auto using regular_diff).
      rewrite !Cpow_2, <- !RtoC_mul.
      f_equal; ring.
    + apply Rsum_nonneg; rewrite Forall_map, Forall_forall.
      intros xs _; cbn [fst snd]; nra.
Qed.

(** With a matrix of the right shape no indexing fails. *)
Lemma error_prop_corr_unfold f x V :
  is_matrix (length x) (length x) V ->
  error_prop_corr simplify f x V = Some (Sqrt (simplify (radicand_corr f x V))).
Proof.
  intros HV; unfold error_prop_corr.
  rewrite (for_each_pure _ _
             (fun sum i => fold_left (fun sum j => Add sum (summand f x V i j))
                                     (range (length x)) sum)).
  - reflexivity.
  - intros i s Hi; apply for_each_pure.
    intros j s' Hj; unfold range in Hi, Hj; apply in_seq in Hi, Hj.
    unfold index.
    rewrite (nth_error_nth' x EmptyString) by lia; cbn [bind].
    rewrite (nth_error_nth' x EmptyString) by lia; cbn [bind].
    rewrite (nth_error_nth' V []) by (destruct HV; lia); cbn [bind].
    rewrite (nth_error_nth' (nth i V []) (Int 0))
      by (rewrite (is_matrix_row _ _ _ _ HV); lia); cbn [bind].
    reflexivity.
Qed.

(** With fewer rows than variables the indexing [V[i]] raises. *)
Lemma error_prop_corr_raises f x V :
  (length V < length x)%nat -> error_prop_corr simplify f x V = None.
Proof.
  intros Hlt; unfold error_prop_corr.
  rewrite (for_each_raises _ _ (length V)); [reflexivity| |].
  - apply in_seq; lia.
  - intros s.
    apply (for_each_raises _ _ 0%nat); [apply in_seq; lia|].
    intros s'; unfold index.
    rewrite (nth_error_nth' x EmptyString) by lia; cbn [bind].
    rewrite (nth_error_nth' x EmptyString) by lia; cbn [bind].
    assert (E : nth_error V (length V) = None) by (apply nth_error_None; lia).
    rewrite E; reflexivity.
Qed.

(** The propagator returns the square root of its sum. *)
Lemma error_prop_corr_value (v : env) f x V :
  is_matrix (length x) (length x) V -> inputs_defined v [f] x V ->
  exists e, error_prop_corr simplify f x V = Some e
            /\ defined v e
            /\ eval v e = Csqrt (eval v (radicand_corr f x V)).
Proof.
  intros HV Hd.
  exists (Sqrt (simplify (radicand_corr f x V))); split.
  - apply error_prop_corr_unfold, HV.
  - assert (D : defined v (radicand_corr f x V)).
    { apply defined_radicand_corr; intros; apply defined_summand; assumption. }
    destruct (simplify_sound v _ D) as [D' E].
    split; [exact D'|].
    cbn [eval]; rewrite E; reflexivity.
Qed.

(** C2.  For every expression [f], every list [x] of [n] variables and
    every [n] by [n] matrix [V], [error_prop_corr] returns an
    expression; at every real point where [f] is differentiable and
    the entries of [V] are defined, its value is
    [sqrt( sum over all pairs i, j of (df/dx_i) * (df/dx_j) * V[i][j] )]
    for the partial derivatives of [f]. *)
Theorem error_prop_corr_spec (f : expr) (x : list string) (V : list (list expr))
    (r : renv) :
  is_matrix (length x) (length x) V ->
  inputs_regular r [f] V ->
  exists (e : expr) (d : list R),
    error_prop_corr simplify f x V = Some e
    /\ Forall2 (partial_derivative r f) x d
    /\ eval (inj r) e
       = sigma_corr (length x) (fun i => nth i d 0)
                    (fun i j => reval r (get V i j)).
Proof.
  intros HV Hreg.
  destruct (error_prop_corr_value (inj r) f x V HV
              (inputs_regular_defined r [f] x V Hreg)) as (e & He & _ & E).
  exists e, (map (fun xi => reval r (diff f xi)) x); split; [exact He|split].
  - destruct Hreg as [Hf _]; inversion Hf as [|f' l Hreg _]; subst.
    clear -Hreg; induction x as [|xi x IH]; cbn [map]; constructor.
    + apply diff_sound, Hreg.
    + exact IH.
  - rewrite E, eval_radicand_corr.
    unfold sigma_corr, quadratic_form, pairs, Rsum; f_equal.
    rewrite RtoC_sum, map_map, Csum_list_prod.
    apply Csum_ext; intros i Hi; apply Csum_ext; intros j Hj.
    unfold range in *; apply in_seq in Hi, Hj; cbn [fst snd].
    rewrite eval_summand_real by (assumption || lia).
    f_equal.
    rewrite !(nth_indep (map _ x) 0 (reval r (diff f EmptyString)))
      by (rewrite length_map; lia).
    rewrite !(map_nth (fun xi => reval r (diff f xi))).
    reflexivity.
Qed.

(** *** The congruence transformation *)

(** The transformation returns a matrix whose entries are those of the
    product, wherever the Jacobian and [V] are defined. *)
Lemma congruence_trafo_value (v : env) (f : list expr) (x : list string)
    (V : Matrix) :
  f <> [] -> x <> [] ->
  is_matrix (length x) (length x) V ->
  inputs_defined v f x V ->
  exists U : Matrix,
    congruence_trafo simplify f x V = Some U
    /\ is_matrix (length f) (length f) U
    /\ forall i k, (i < length f)%nat -> (k < length f)%nat ->
         defined v (get U i k)
         /\ eval v (get U i k)
            = Csum (map (fun l =>
                Cmul (Csum (map (fun j =>
                        Cmul (eval v (diff (nth i f (Int 0)) (nth j x EmptyString)))
                             (eval v (get V j l)))
                      (range (length x))))
                     (eval v (diff (nth k f (Int 0)) (nth l x EmptyString))))
              (range (length x))).
Proof.
  intros Hf Hx HV [HdG HdV].
  set (M := length f); set (N := length x).
  assert (HM : (0 < M)%nat) by (destruct f; [congruence | cbn; lia]).
  assert (HN : (0 < N)%nat) by (destruct x; [congruence | cbn; lia]).
  set (G := mk_matrix M N
              (fun j i => diff (nth j f (Int 0)) (nth i x EmptyString))).
  assert (EG : jacobian f x = Some G).
  { destruct f as [|f0 f']; [congruence|].
    destruct x as [|x0 x']; [congruence|]. reflexivity. }
  assert (E1 : ncols G = N) by (apply ncols_mk_matrix, HM).
  assert (E2 : nrows G = M) by apply nrows_mk_matrix.
  assert (HG : forall i j, (i < M)%nat -> (j < N)%nat ->
             get G i j = diff (nth i f (Int 0)) (nth j x EmptyString)).
  { intros; unfold G; rewrite get_mk_matrix by assumption; reflexivity. }
  assert (DG : forall i j, (i < M)%nat -> (j < N)%nat -> defined v (get G i j)).
  { intros i j Hi Hj; rewrite HG by assumption.
    apply (Forall_nth_default (fun xj => defined v (diff (nth i f (Int 0)) xj)));
      [|exact Hj].
    apply (Forall_nth_default
             (fun fi => Forall (fun xj => defined v (diff fi xj)) x));
      assumption. }
  assert (DV : forall j l, (j < N)%nat -> (l < N)%nat -> defined v (get V j l)).
  { intros; apply (defined_get v V N N); assumption. }
  set (F1 := fun i l => sum_expr (map (fun j => Mul (get G i j) (get V j l))
                                      (range N))).
  set (F2 := fun i k => sum_expr (map (fun l => Mul (get (mk_matrix M N F1) i l)
                                                    (get (transpose G) l k))
                                      (range N))).
  assert (EU : congruence_trafo simplify f x V
               = Some (mk_matrix M M (fun i k => simplify (F2 i k)))).
  { unfold congruence_trafo; rewrite EG; cbn [bind].
    unfold matmul at 1.
    assert (E3 : nrows V = N) by (destruct HV; assumption).
    assert (E4 : ncols V = N) by (apply (ncols_is_matrix N N); assumption).
    rewrite E1, E2, E3, E4, Nat.eqb_refl; cbn [bind ret].
    fold F1.
    unfold matmul.
    assert (E5 : ncols (mk_matrix M N F1) = N) by (apply ncols_mk_matrix, HM).
    assert (E6 : nrows (transpose G) = N).
    { unfold transpose; rewrite nrows_mk_matrix; exact E1. }
    assert (E7 : ncols (transpose G) = M).
    { unfold transpose; rewrite E1, E2; apply ncols_mk_matrix, HN. }
    rewrite E5, E6, E7, nrows_mk_matrix, Nat.eqb_refl; cbn [bind ret].
    fold F2.
    rewrite simplify_mk_matrix; reflexivity. }
  exists (mk_matrix M M (fun i k => simplify (F2 i k))).
  split; [exact EU|]; split; [apply is_matrix_mk_matrix|].
  intros i k Hi Hk; rewrite get_mk_matrix by assumption.
  assert (Ht : forall l, (l < N)%nat -> get (transpose G) l k = get G k l).
  { intros l Hl; unfold transpose.
    rewrite get_mk_matrix; [reflexivity| |].
    - rewrite E1; exact Hl.
    - rewrite E2; exact Hk. }
  assert (D1 : forall i' l, (i' < M)%nat -> (l < N)%nat -> defined v (F1 i' l)).
  { intros i' l Hi' Hl; apply defined_sum_expr.
    rewrite Forall_map, Forall_forall; intros j Hj.
    unfold range in Hj; apply in_seq in Hj.
    split; [apply DG | apply DV]; lia. }
  assert (D2 : defined v (F2 i k)).
  { apply defined_sum_expr.
    rewrite Forall_map, Forall_forall; intros l Hl.
    unfold range in Hl; apply in_seq in Hl.
    rewrite get_mk_matrix, Ht by lia.
    split; [apply D1 | apply DG]; lia. }
  destruct (simplify_sound v _ D2) as [D E].
  split; [exact D|].
  rewrite E; unfold F2; rewrite eval_sum_expr, map_map.
  apply Csum_ext; intros l Hl.
  unfold range in Hl; apply in_seq in Hl.
  cbn [eval]; rewrite get_mk_matrix, Ht by lia.
  rewrite HG by lia.
  f_equal.
  unfold F1; rewrite eval_sum_expr, map_map.
  apply Csum_ext; intros j Hj.
  unfold range in Hj; apply in_seq in Hj.
  cbn [eval]; rewrite HG by lia; reflexivity.
Qed.

(** C3.  For every vector [f] of [M] expressions, every vector [x] of
    [N] variables and every [N] by [N] matrix [V], [congruence_trafo]
    returns an [M] by [M] matrix [U]; at every real point where the
    [f_i] are differentiable and [V] is defined, [U = G * V * G^T] for
    the Jacobian [G], [G i j] being the partial derivative of [f_i]
    along [x_j]. *)
Theorem congruence_trafo_spec (f : list expr) (x : list string) (V : Matrix)
    (r : renv) :
  f <> [] -> x <> [] ->
  is_matrix (length x) (length x) V ->
  inputs_regular r f V ->
  exists (U : Matrix) (G : Rmatrix),
    congruence_trafo simplify f x V = Some U
    /\ is_matrix (length f) (length f) U
    /\ (forall i j, (i < length f)%nat -> (j < length x)%nat ->
          partial_derivative r (nth i f (Int 0)) (nth j x EmptyString) (G i j))
    /\ (forall i k, (i < length f)%nat -> (k < length f)%nat ->
          eval (inj r) (get U i k)
          = RtoC (mmul (length x)
                    (mmul (length x) G (fun j l => reval r (get V j l)))
                    (mtranspose G) i k)).
Proof.
  intros Hf Hx HV Hreg.
  destruct (congruence_trafo_value (inj r) f x V Hf Hx HV
              (inputs_regular_defined r f x V Hreg)) as (U & EU & HU & Hval).
  destruct Hreg as [Hreg HVr].
  assert (Hfi : forall i, (i < length f)%nat -> regular r (nth i f (Int 0))).
  { intros i Hi; apply (Forall_nth_default (regular r)); assumption. }
  exists U, (fun i j => reval r (diff (nth i f (Int 0)) (nth j x EmptyString))).
  split; [exact EU|]; split; [exact HU|]; split.
  - intros i j Hi Hj; apply diff_sound, Hfi, Hi.
  - intros i k Hi Hk.
    destruct (Hval i k Hi Hk) as [_ E]; rewrite E.
    unfold mmul, mtranspose, Rsum, range.
    rewrite RtoC_sum, map_map.
    apply Csum_ext; intros l Hl; apply in_seq in Hl.
    rewrite RtoC_mul, RtoC_sum, map_map.
    rewrite (eval_real r (diff (nth k f (Int 0)) _))
      by (apply regular_diff, Hfi, Hk).
    f_equal.
    apply Csum_ext; intros j Hj; apply in_seq in Hj.
    rewrite RtoC_mul, !eval_real; [reflexivity| |].
    + apply (rdefined_get r V (length x) (length x)); (assumption || lia).
    + apply regular_diff, Hfi, Hi.
Qed.

(** C5.  For a single expression [f], the only entry of the matrix
    that [congruence_trafo] returns for the vector [[f]] is the square
    of what [error_prop_corr] returns, for every matrix [V]. *)
Theorem congruence_trafo_single (f : expr) (x : list string) (V : Matrix)
    (v : env) :
  x <> [] ->
  is_matrix (length x) (length x) V ->
  inputs_defined v [f] x V ->
  exists (U : Matrix) (s : expr),
    congruence_trafo simplify [f] x V = Some U
    /\ is_matrix 1 1 U
    /\ error_prop_corr simplify f x V = Some s
    /\ eval v (get U 0 0) = eval v (Pow s 2).
Proof.
  intros Hx HV Hd.
  destruct (congruence_trafo_value v [f] x V ltac:(discriminate) Hx HV Hd)
    as (U & EU & HU & Hval).
  destruct (error_prop_corr_value v f x V HV Hd) as (s & Es & _ & Vs).
  exists U, s; repeat split; try assumption; try apply HU.
  destruct (Hval 0%nat 0%nat ltac:(cbn; lia) ltac:(cbn; lia)) as [_ E].
  rewrite E; cbn [eval nth]; rewrite Cpow_2, Vs, Csqrt_sqr, eval_radicand_corr.
  rewrite (Csum_ext _ (fun l => Csum (map (fun j =>
             eval v (summand f x V j l)) (range (length x))))).
  - apply Csum_swap.
  - intros l _; rewrite Csum_mul_r.
    apply Csum_ext; intros j _.
    unfold summand; cbn [eval]; ring.
Qed.

(** C6.  For a matrix [V] that is symmetric, the matrix that
    [congruence_trafo] returns is symmetric. *)
Theorem congruence_trafo_symmetric (f : list expr) (x : list string)
    (V : Matrix) (v : env) :
  f <> [] -> x <> [] ->
  is_matrix (length x) (length x) V ->
  inputs_defined v f x V ->
  symmetric_at v (length x) V ->
  exists U : Matrix,
    congruence_trafo simplify f x V = Some U
    /\ is_matrix (length f) (length f) U
    /\ symmetric_at v (length f) U.
Proof.
  intros Hf Hx HV Hd Hsym.
  destruct (congruence_trafo_value v f x V Hf Hx HV Hd) as (U & EU & HU & Hval).
  exists U; split; [exact EU|]; split; [exact HU|].
  intros i k Hi Hk.
  destruct (Hval i k Hi Hk) as [_ E1], (Hval k i Hk Hi) as [_ E2].
  rewrite E1, E2.
  set (g := fun i j => eval v (diff (nth i f (Int 0)) (nth j x EmptyString))).
  rewrite (Csum_ext _ (fun l => Csum (map (fun j =>
             Cmul (Cmul (g i j) (eval v (get V j l))) (g k l))
             (range (length x))))) by (intros; apply Csum_mul_r).
  rewrite (Csum_ext (fun l => Cmul _ (eval v (diff (nth i f (Int 0)) _)))
             (fun l => Csum (map (fun j =>
             Cmul (Cmul (g k j) (eval v (get V j l))) (g i l))
             (range (length x))))) by (intros; apply Csum_mul_r).
  rewrite Csum_swap.
  apply Csum_ext; intros j Hj; apply Csum_ext; intros l Hl.
  unfold range in Hj, Hl; apply in_seq in Hj, Hl.
  rewrite (Hsym j l) by lia.
  ring.
Qed.

(** C4.  For a matrix [V] that is diagonal, with the squares of the
    uncertainties on its diagonal, [error_prop_corr] returns an
    expression of the same value as the one of [error_prop] for these
    uncertainties. *)
Theorem error_prop_corr_diagonal (f : expr) (vars : list (string * expr))
    (V : list (list expr)) (v : env) :
  is_matrix (length (map fst vars)) (length (map fst vars)) V ->
  inputs_defined v [f] (map fst vars) V ->
  Forall (defined v) (map snd vars) ->
  diagonal_at v (map snd vars) V ->
  exists e : expr,
    error_prop_corr simplify f (map fst vars) V = Some e
    /\ eval v e = eval v (error_prop simplify f vars).
Proof.
  intros HV Hd Hs Hdiag.
  destruct (error_prop_corr_value v f _ V HV Hd) as (e & Ee & _ & Ve).
  exists e; split; [exact Ee|].
  assert (Hvars : Forall (fun xs => defined v (diff f (fst xs))
                                    /\ defined v (snd xs)) vars).
  { destruct Hd as [Hd _]; inversion Hd as [|f' l Hfx _]; subst.
    rewrite Forall_map in Hfx, Hs.
    rewrite Forall_forall in *; intros xs Hin; split; auto. }
  destruct (error_prop_value v f vars Hvars) as [_ Vu].
  rewrite Ve, Vu; f_equal.
  rewrite eval_radicand_corr, eval_radicand.
  rewrite (Csum_index _ vars (EmptyString, Int 0)).
  rewrite length_map; unfold range.
  apply Csum_ext; intros i Hi.
  assert (Hi' := Hi); apply in_seq in Hi'.
  rewrite (Csum_single _ _ i); [| apply seq_NoDup | exact Hi |].
  - unfold summand; cbn [eval].
    rewrite Hdiag, Nat.eqb_refl by (rewrite length_map; lia).
    rewrite !Cpow_2.
    rewrite <- (map_nth fst), <- (map_nth snd); cbn [fst snd].
    ring.
  - intros j Hj Hne; apply in_seq in Hj.
    unfold summand; cbn [eval].
    rewrite Hdiag by (rewrite length_map; lia).
    destruct (Nat.eqb_spec i j) as [->|_]; [congruence|].
    ring.
Qed.

(** *** A negative sum under the square root *)

(** C7, as the code has it.  When the arguments of [error_prop] or of
    [error_prop_corr] make the sum under the square root a negative
    real number [s] at a point, the call raises nothing and returns an
    expression that is defined there: its value is the imaginary
    number [i * sqrt (- s)], the principal square root. *)
Theorem negative_radicand_imaginary (p : propagation) (v : env) (s : R) :
  well_posed v p ->
  eval v (radicand_of p) = RtoC s ->
  s < 0 ->
  exists e : expr,
    propagate simplify p = Some e
    /\ defined v e
    /\ eval v e = mkC 0 (sqrt (- s)).
Proof.
  intros Hp Hs Hneg; destruct p as [f vars|f x V]; cbn in Hp, Hs |- *.
  - destruct (error_prop_value v f vars Hp) as [D E].
    exists (error_prop simplify f vars); repeat split; [exact D|].
    rewrite E, Hs; apply Csqrt_RtoC_neg, Hneg.
  - destruct Hp as [HV Hd].
    destruct (error_prop_corr_value v f x V HV Hd) as (e & Ee & D & E).
    exists e; repeat split; [exact Ee|exact D|].
    rewrite E, Hs; apply Csqrt_RtoC_neg, Hneg.
Qed.

End Propagators.

(** *** The cells of the notebook *)

Import Notebook.

Lemma PI_bounds : 3.14159 < PI < 3.1416.
Proof.
  pose proof (PI_2_3_7_ineq 2) as [Hlo Hhi].
  unfold sum_f_R0, tg_alt, PI_2_3_7_tg, Ratan_seq in Hlo, Hhi.
  simpl in Hlo, Hhi.
  split; lra.
Qed.

Lemma sqrt_between (a b t : R) :
  0 <= a -> 0 <= b -> a * a < t < b * b -> a < sqrt t < b.
Proof.
  intros Ha Hb [H1 H2]; split.
  - rewrite <- (sqrt_square a) by exact Ha.
    apply sqrt_lt_1; nra.
  - rewrite <- (sqrt_square b) by exact Hb.
    apply sqrt_lt_1; nra.
Qed.

Lemma indefinite_radicand :
  eval origin (radicand_of indefinite_call) = RtoC (-2).
Proof.
  unfold origin; rewrite eval_real.
  - f_equal; cbn; unfold Q2R; cbn; lra.
  - cbn; repeat split; intros; lia.
Qed.

Lemma indefinite_well_posed : well_posed origin indefinite_call.
Proof.
  cbn; unfold is_matrix, inputs_defined; cbn.
  repeat constructor.
Qed.

(** C7 fails: for [x + y] and the matrix [[1, -2], [-2, 1]] the sum
    under the square root is [-2], and [error_prop_corr] returns,
    without raising, an expression that is defined: its value is the
    imaginary number [i * sqrt 2]. *)
Lemma negative_radicand_not_surfaced :
  eval origin (radicand_of indefinite_call) = RtoC (-2)
  /\ ~ surfaces_domain_error origin (propagate simplify_basic indefinite_call)
  /\ exists e, propagate simplify_basic indefinite_call = Some e
               /\ eval origin e = mkC 0 (sqrt 2).
Proof.
  split; [exact indefinite_radicand|].
  assert (E : propagate simplify_basic indefinite_call
              = Some (Sqrt (simplify_basic (radicand_of indefinite_call))))
    by reflexivity.
  pose proof (simplify_basic_sound origin (radicand_of indefinite_call)) as Hs.
  destruct Hs as [D Ev].
  { cbn; repeat split; intros; lia. }
  split.
  - rewrite E; cbn [surfaces_domain_error defined]; tauto.
  - eexists; split; [exact E|].
    cbn [eval]; rewrite Ev, indefinite_radicand, Csqrt_RtoC_neg by lra.
    do 2 f_equal; lra.
Qed.

(** Evaluating a concrete expression at a concrete point. *)
Ltac real_value :=
  cbn; unfold Q2R; cbn;
  cbv [Pos.to_nat Pos.iter_op Init.Nat.add]; cbn [pow]; (lra || field).

Lemma cylinder_volume : reval measured V = 12 * PI.
Proof. real_value. Qed.

Lemma cylinder_radicand :
  reval measured (radicand V cylinder_vars)
  = 4 / 10 * (PI * PI).
Proof. real_value. Qed.

Lemma cylinder_radicand_corr :
  reval measured (radicand_corr V ["h"; "r"]%string C_hr)
  = 64 / 100 * (PI * PI).
Proof. real_value. Qed.

Lemma polynomial_regular (r : renv) (e : expr) :
  (fix poly (e : expr) : Prop :=
     match e with
     | Num _ | Pi | Sym _ => True
     | Add a b | Mul a b => poly a /\ poly b
     | Pow a n => poly a /\ (0 <= n)%Z
     | Sqrt _ | Atan2 _ _ => False
     end) e ->
  regular r e.
Proof.
  induction e; cbn; try tauto.
  intros [H Hn]; split; [auto|]; intros; lia.
Qed.

(** The first cell of exercise a: for [z = x + y] the correlated
    propagator gives [sqrt(sigma_x^2 + sigma_y^2 + 2 rho sigma_x sigma_y)]. *)
Lemma sum_uncertainty (simplify : expr -> expr) (v : env) :
  sound_simplifier simplify ->
  exists e : expr,
    error_prop_corr simplify z_1 ["x"; "y"]%string C_xy = Some e
    /\ eval v e
       = Csqrt (Cadd (Cadd (Cmul (v "sigma_x"%string) (v "sigma_x"%string))
                           (Cmul (v "sigma_y"%string) (v "sigma_y"%string)))
                     (Cmul (RtoC 2)
                           (Cmul (v "rho"%string)
                                 (Cmul (v "sigma_x"%string) (v "sigma_y"%string))))).
Proof.
  intros Hs.
  destruct (error_prop_corr_value simplify Hs v z_1 ["x"; "y"]%string C_xy)
    as (e & Ee & _ & E).
  - repeat constructor.
  - split; repeat constructor; cbn; intros; lia.
  - exists e; split; [exact Ee|].
    rewrite E; f_equal.
    cbn; unfold Q2R; cbn.
    cbv [Pos.to_nat Pos.iter_op Init.Nat.add].
    apply C_eq; cbn; field.
Qed.

Section Cylinder.

Variable simplify : expr -> expr.
Hypothesis simplify_sound : sound_simplifier simplify.

(** C8.  For the volume [V = pi * r^2 * h] of the cylinder at [r = 2],
    [h = 3] with both uncertainties [0.05]: the volume is [37.699] and
    the uncorrelated propagator gives [1.987], the correlated one with
    [rho = 1] gives [2.513], all to three decimals, and the second
    uncertainty is strictly greater than the first. *)
Theorem cylinder_uncertainties :
  exists (vol sV sV_2 : R) (e : expr),
    eval (inj measured) V = RtoC vol
    /\ 37.6985 <= vol < 37.6995
    /\ eval (inj measured)
         (error_prop simplify V cylinder_vars)
       = RtoC sV
    /\ 1.9865 <= sV < 1.9875
    /\ error_prop_corr simplify V ["h"; "r"]%string C_hr = Some e
    /\ eval (inj measured) e = RtoC sV_2
    /\ 2.5125 <= sV_2 < 2.5135
    /\ sV < sV_2.
Proof.
  pose proof PI_bounds as HPI.
  assert (HV : regular measured V).
  { apply polynomial_regular; cbn; repeat split; lia. }
  assert (HC : Forall (Forall (rdefined measured)) C_hr).
  { repeat constructor; cbn; intros; lia. }
  assert (HM : is_matrix 2 2 C_hr) by (repeat constructor).
  destruct (error_prop_value simplify simplify_sound (inj measured) V
              cylinder_vars) as [_ E1].
  { repeat (apply Forall_cons;
              [split; [apply rdefined_defined, regular_diff, HV | exact I]|]).
    apply Forall_nil. }
  destruct (error_prop_corr_value simplify simplify_sound (inj measured) V
              ["h"; "r"]%string C_hr HM) as (e & Ee & _ & E2).
  { apply inputs_regular_defined; split; [|exact HC].
    apply Forall_cons; [exact HV | apply Forall_nil]. }
  rewrite (eval_real measured (radicand _ _)), cylinder_radicand in E1
    by (apply regular_rdefined, polynomial_regular; cbn; repeat split; lia).
  rewrite (eval_real measured (radicand_corr _ _ _)), cylinder_radicand_corr in E2
    by (apply regular_rdefined, polynomial_regular; cbn; repeat split; lia).
  rewrite Csqrt_RtoC_nonneg in E1, E2 by nra.
  exists (12 * PI), (sqrt (4 / 10 * (PI * PI))), (sqrt (64 / 100 * (PI * PI))), e.
  split.
  { rewrite eval_real by (apply regular_rdefined, HV).
    rewrite cylinder_volume; reflexivity. }
  split; [lra|].
  split; [exact E1|].
  assert (B1 : 1.9865 < sqrt (4 / 10 * (PI * PI)) < 1.9875).
  { apply sqrt_between; [lra|lra|nra]. }
  assert (B2 : 2.5125 < sqrt (64 / 100 * (PI * PI)) < 2.5135).
  { apply sqrt_between; [lra|lra|nra]. }
  repeat split; try lra; assumption.
Qed.

End Cylinder.

(** *** The theorems at the notebook's inputs *)

Lemma cylinder_regular (r : renv) : regular r V.
Proof. apply polynomial_regular; cbn; repeat split; lia. Qed.

Lemma cylinder_vars_rdefined (r : renv) :
  Forall (fun xs => rdefined r (snd xs)) cylinder_vars.
Proof. repeat (apply Forall_cons; [exact I|]); apply Forall_nil. Qed.

Lemma C_hr_matrix : is_matrix 2 2 C_hr.
Proof. repeat constructor. Qed.

Lemma C_xy_matrix : is_matrix 2 2 C_xy.
Proof. repeat constructor. Qed.

Lemma C_hr_rdefined (r : renv) : Forall (Forall (rdefined r)) C_hr.
Proof. repeat constructor; cbn; intros; lia. Qed.

Lemma C_xy_rdefined (r : renv) : Forall (Forall (rdefined r)) C_xy.
Proof. repeat constructor; cbn; intros; lia. Qed.

Lemma cylinder_inputs_regular (r : renv) : inputs_regular r [V] C_hr.
Proof.
  split; [|apply C_hr_rdefined].
  apply Forall_cons; [apply cylinder_regular | apply Forall_nil].
Qed.

Lemma f_new_inputs_regular : inputs_regular position f_new C_xy.
Proof.
  split; [|apply C_xy_rdefined].
  apply Forall_cons; [|apply Forall_cons; [|apply Forall_nil]].
  - cbn; repeat split; try (intros; lia).
    cbv [Pos.to_nat Pos.iter_op Init.Nat.add]; cbn [pow]; lra.
  - cbn; repeat split; left; lra.
Qed.

Lemma C_xy_symmetric (v : env) : symmetric_at v 2 C_xy.
Proof.
  intros i j Hi Hj.
  destruct i as [|[|i]], j as [|[|j]]; try lia; reflexivity.
Qed.

Lemma C_hr_diagonal :
  diagonal_at (inj uncorrelated) (map snd cylinder_vars) C_hr.
Proof.
  intros i j Hi Hj; cbn in Hi, Hj.
  destruct i as [|[|i]], j as [|[|j]]; try lia; cbn [Nat.eqb];
    try reflexivity.
  - change (get C_hr 0 1) with (Mul (Mul rho sig_h) sig_r).
    rewrite eval_real by (cbn; tauto).
    unfold C0; f_equal; real_value.
  - change (get C_hr 1 0) with (Mul (Mul rho sig_h) sig_r).
    rewrite eval_real by (cbn; tauto).
    unfold C0; f_equal; real_value.
Qed.

Lemma error_prop_spec_witness :
  sound_simplifier simplify_basic
  /\ regular measured V
  /\ Forall (fun xs => rdefined measured (snd xs)) cylinder_vars
  /\ exists d : list R,
       Forall2 (fun xs di => partial_derivative measured V (fst xs) di)
               cylinder_vars d
       /\ eval (inj measured) (error_prop simplify_basic V cylinder_vars)
          = RtoC (sigma_uncorr d (map (fun xs => reval measured (snd xs))
                                      cylinder_vars)).
Proof.
  pose proof simplify_basic_sound as H1.
  pose proof (cylinder_regular measured) as H2.
  pose proof (cylinder_vars_rdefined measured) as H3.
  exact (conj H1 (conj H2 (conj H3
           (error_prop_spec simplify_basic H1 V cylinder_vars measured H2 H3)))).
Defined.

Lemma error_prop_corr_spec_witness :
  sound_simplifier simplify_basic
  /\ is_matrix 2 2 C_hr
  /\ inputs_regular measured [V] C_hr
  /\ exists (e : expr) (d : list R),
       error_prop_corr simplify_basic V ["h"; "r"]%string C_hr = Some e
       /\ Forall2 (partial_derivative measured V) ["h"; "r"]%string d
       /\ eval (inj measured) e
          = sigma_corr 2 (fun i => nth i d 0)
                       (fun i j => reval measured (get C_hr i j)).
Proof.
  pose proof simplify_basic_sound as H1.
  pose proof C_hr_matrix as H2.
  pose proof (cylinder_inputs_regular measured) as H3.
  exact (conj H1 (conj H2 (conj H3
           (error_prop_corr_spec simplify_basic H1 V ["h"; "r"]%string C_hr
              measured H2 H3)))).
Defined.

Lemma congruence_trafo_spec_witness :
  sound_simplifier simplify_basic
  /\ f_new <> [] /\ v_old <> []
  /\ is_matrix 2 2 C_xy
  /\ inputs_regular position f_new C_xy
  /\ exists (U : Matrix) (G : Rmatrix),
       congruence_trafo simplify_basic f_new v_old C_xy = Some U
       /\ is_matrix 2 2 U
       /\ (forall i j, (i < 2)%nat -> (j < 2)%nat ->
             partial_derivative position (nth i f_new (Int 0))
               (nth j v_old EmptyString) (G i j))
       /\ (forall i k, (i < 2)%nat -> (k < 2)%nat ->
             eval (inj position) (get U i k)
             = RtoC (mmul 2 (mmul 2 G (fun j l => reval position (get C_xy j l)))
                            (mtranspose G) i k)).
Proof.
  pose proof simplify_basic_sound as H1.
  assert (H2 : f_new <> []) by discriminate.
  assert (H3 : v_old <> []) by discriminate.
  pose proof C_xy_matrix as H4.
  pose proof f_new_inputs_regular as H5.
  exact (conj H1 (conj H2 (conj H3 (conj H4 (conj H5
           (congruence_trafo_spec simplify_basic H1 f_new v_old C_xy position
              H2 H3 H4 H5)))))).
Defined.

Lemma error_prop_corr_diagonal_witness :
  sound_simplifier simplify_basic
  /\ is_matrix 2 2 C_hr
  /\ inputs_defined (inj uncorrelated) [V] (map fst cylinder_vars) C_hr
  /\ Forall (defined (inj uncorrelated)) (map snd cylinder_vars)
  /\ diagonal_at (inj uncorrelated) (map snd cylinder_vars) C_hr
  /\ exists e : expr,
       error_prop_corr simplify_basic V (map fst cylinder_vars) C_hr = Some e
       /\ eval (inj uncorrelated) e
          = eval (inj uncorrelated) (error_prop simplify_basic V cylinder_vars).
Proof.
  pose proof simplify_basic_sound as H1.
  pose proof C_hr_matrix as H2.
  pose proof (inputs_regular_defined uncorrelated [V] (map fst cylinder_vars)
                C_hr (cylinder_inputs_regular uncorrelated)) as H3.
  assert (H4 : Forall (defined (inj uncorrelated)) (map snd cylinder_vars)).
  { repeat (apply Forall_cons; [exact I|]); apply Forall_nil. }
  pose proof C_hr_diagonal as H5.
  exact (conj H1 (conj H2 (conj H3 (conj H4 (conj H5
           (error_prop_corr_diagonal simplify_basic H1 V cylinder_vars C_hr
              (inj uncorrelated) H2 H3 H4 H5)))))).
Defined.

Lemma congruence_trafo_single_witness :
  sound_simplifier simplify_basic
  /\ ["h"; "r"]%string <> []
  /\ is_matrix 2 2 C_hr
  /\ inputs_defined (inj measured) [V] ["h"; "r"]%string C_hr
  /\ exists (U : Matrix) (s : expr),
       congruence_trafo simplify_basic [V] ["h"; "r"]%string C_hr = Some U
       /\ is_matrix 1 1 U
       /\ error_prop_corr simplify_basic V ["h"; "r"]%string C_hr = Some s
       /\ eval (inj measured) (get U 0 0) = eval (inj measured) (Pow s 2).
Proof.
  pose proof simplify_basic_sound as H1.
  assert (H2 : ["h"; "r"]%string <> []) by discriminate.
  pose proof C_hr_matrix as H3.
  pose proof (inputs_regular_defined measured [V] ["h"; "r"]%string
                C_hr (cylinder_inputs_regular measured)) as H4.
  exact (conj H1 (conj H2 (conj H3 (conj H4
           (congruence_trafo_single simplify_basic H1 V ["h"; "r"]%string C_hr
              (inj measured) H2 H3 H4))))).
Defined.

Lemma congruence_trafo_symmetric_witness :
  sound_simplifier simplify_basic
  /\ f_new <> [] /\ v_old <> []
  /\ is_matrix 2 2 C_xy
  /\ inputs_defined (inj position) f_new v_old C_xy
  /\ symmetric_at (inj position) 2 C_xy
  /\ exists U : Matrix,
       congruence_trafo simplify_basic f_new v_old C_xy = Some U
       /\ is_matrix 2 2 U
       /\ symmetric_at (inj position) 2 U.
Proof.
  pose proof simplify_basic_sound as H1.
  assert (H2 : f_new <> []) by discriminate.
  assert (H3 : v_old <> []) by discriminate.
  pose proof C_xy_matrix as H4.
  pose proof (inputs_regular_defined position f_new v_old C_xy
                f_new_inputs_regular) as H5.
  pose proof (C_xy_symmetric (inj position)) as H6.
  exact (conj H1 (conj H2 (conj H3 (conj H4 (conj H5 (conj H6
           (congruence_trafo_symmetric simplify_basic H1 f_new v_old C_xy
              (inj position) H2 H3 H4 H5 H6))))))).
Defined.

Lemma negative_radicand_imaginary_witness :
  sound_simplifier simplify_basic
  /\ well_posed origin indefinite_call
  /\ eval origin (radicand_of indefinite_call) = RtoC (-2)
  /\ -2 < 0
  /\ exists e : expr,
       propagate simplify_basic indefinite_call = Some e
       /\ defined origin e
       /\ eval origin e = mkC 0 (sqrt (- -2)).
Proof.
  pose proof simplify_basic_sound as H1.
  pose proof indefinite_well_posed as H2.
  pose proof indefinite_radicand as H3.
  assert (H4 : -2 < 0) by lra.
  exact (conj H1 (conj H2 (conj H3 (conj H4
           (negative_radicand_imaginary simplify_basic H1 indefinite_call
              origin (-2) H2 H3 H4))))).
Defined.

Lemma cylinder_uncertainties_witness :
  sound_simplifier simplify_basic
  /\ exists (vol sV sV_2 : R) (e : expr),
       eval (inj measured) V = RtoC vol
       /\ 37.6985 <= vol < 37.6995
       /\ eval (inj measured) (error_prop simplify_basic V cylinder_vars)
          = RtoC sV
       /\ 1.9865 <= sV < 1.9875
       /\ error_prop_corr simplify_basic V ["h"; "r"]%string C_hr = Some e
       /\ eval (inj measured) e = RtoC sV_2
       /\ 2.5125 <= sV_2 < 2.5135
       /\ sV < sV_2.
Proof.
  pose proof simplify_basic_sound as H1.
  exact (conj H1 (cylinder_uncertainties simplify_basic H1)).
Defined.

End ErrorPropFacts.

(** ** Further facts on the notebook's functions *)

Module ErrorPropMore.
Import ListFacts Cplx CplxFacts Sympy SympyFacts ErrorProp Formula.
Import ErrorPropFacts Notebook.

(** *** Loops, again *)

Lemma for_each_ext {A St : Type} (l : list A) (body body' : A -> St -> option St) :
  (forall a s, In a l -> body a s = body' a s) ->
  forall s, for_each l body s = for_each l body' s.
Proof.
  induction l as [|a l IH]; intros H s; cbn [for_each].
  - reflexivity.
  - rewrite (H a s) by (left; reflexivity).
    destruct (body' a s) as [s'|]; cbn [bind]; [|reflexivity].
    apply IH; intros; apply H; right; assumption.
Qed.

Lemma nth_firstn_lt {A : Type} (n i : nat) (l : list A) (d : A) :
  (i < n)%nat -> nth i (firstn n l) d = nth i l d.
Proof.
  intros Hi; rewrite nth_firstn.
  destruct (Nat.ltb_spec i n); [reflexivity | lia].
Qed.

Lemma covers_spec (n : nat) (V : list (list expr)) :
  covers n V = true <->
  (n <= length V)%nat /\ forall i, (i < n)%nat -> (n <= length (nth i V []))%nat.
Proof.
  unfold covers; rewrite andb_true_iff, Nat.leb_le, forallb_forall; split.
  - intros [Hl Hr]; split; [exact Hl|].
    intros i Hi; apply Nat.leb_le, Hr.
    rewrite <- (nth_firstn_lt n i V []) by exact Hi.
    apply nth_In; rewrite length_firstn; lia.
  - intros [Hl Hr]; split; [exact Hl|].
    intros row Hin; apply Nat.leb_le.
    destruct (In_nth _ _ [] Hin) as (i & Hi & <-).
    rewrite length_firstn in Hi.
    rewrite nth_firstn_lt by lia.
    apply Hr; lia.
Qed.

Lemma not_covers (n : nat) (V : list (list expr)) :
  covers n V = false ->
  (length V < n)%nat
  \/ exists i, (i < n)%nat /\ (i < length V)%nat /\ (length (nth i V []) < n)%nat.
Proof.
  unfold covers; intros H.
  destruct (Nat.leb_spec n (length V)) as [Hl|Hl]; [right|left; exact Hl].
  cbn [andb] in H.
  assert (Hex : exists row, In row (firstn n V) /\ (length row < n)%nat).
  { clear Hl; induction (firstn n V) as [|row l IH]; cbn in H; [discriminate|].
    destruct (Nat.leb_spec n (length row)) as [Hr|Hr].
    - destruct (IH H) as (row' & Hin & Hlt); exists row'; split; [right|]; assumption.
    - exists row; split; [left; reflexivity | exact Hr]. }
  destruct Hex as (row & Hin & Hlt).
  destruct (In_nth _ _ [] Hin) as (i & Hi & E).
  rewrite length_firstn in Hi.
  rewrite nth_firstn_lt in E by lia.
  exists i; repeat split; try lia.
  rewrite E; exact Hlt.
Qed.

Section More.

Variable simplify : expr -> expr.

(** *** The shape of [V] in [error_prop_corr] *)

Lemma error_prop_corr_covered f x V :
  covers (length x) V = true ->
  error_prop_corr simplify f x V = Some (Sqrt (simplify (radicand_corr f x V))).
Proof.
  intros HV; apply covers_spec in HV; destruct HV as [Hl Hr].
  unfold error_prop_corr.
  rewrite (for_each_pure _ _
             (fun sum i => fold_left (fun sum j => Add sum (summand f x V i j))
                                     (range (length x)) sum)).
  - reflexivity.
  - intros i s Hi; apply for_each_pure.
    intros j s' Hj; unfold range in Hi, Hj; apply in_seq in Hi, Hj.
    unfold index.
    rewrite (nth_error_nth' x EmptyString) by lia; cbn [bind].
    rewrite (nth_error_nth' x EmptyString) by lia; cbn [bind].
    rewrite (nth_error_nth' V []) by lia; cbn [bind].
    rewrite (nth_error_nth' (nth i V []) (Int 0))
      by (specialize (Hr i ltac:(lia)); lia); cbn [bind].
    reflexivity.
Qed.

Lemma error_prop_corr_uncovered f x V :
  covers (length x) V = false -> error_prop_corr simplify f x V = None.
Proof.
  intros HV; destruct (not_covers _ _ HV) as [Hlt|(i & Hi & HiV & Hrow)].
  - apply error_prop_corr_raises, Hlt.
  - unfold error_prop_corr.
    rewrite (for_each_raises _ _ i); [reflexivity| |].
    + apply in_seq; lia.
    + intros s.
      apply (for_each_raises _ _ (length (nth i V []))); [apply in_seq; lia|].
      intros s'; unfold index.
      rewrite (nth_error_nth' x EmptyString) by lia; cbn [bind].
      rewrite (nth_error_nth' x EmptyString) by lia; cbn [bind].
      rewrite (nth_error_nth' V []) by lia; cbn [bind].
      assert (E : nth_error (nth i V []) (length (nth i V [])) = None)
        by (apply nth_error_None; lia).
      rewrite E; reflexivity.
Qed.

(** X1.  [error_prop_corr] raises ([IndexError]) exactly when [V] lacks
    one of the entries [V[i][j]] with [i, j < len(x)]: fewer rows than
    variables, or one of the first rows shorter than that.  Otherwise
    it returns the square root of its simplified sum. *)
Theorem error_prop_corr_raises_iff (f : expr) (x : list string)
    (V : list (list expr)) :
  error_prop_corr simplify f x V
  = if covers (length x) V
    then Some (Sqrt (simplify (radicand_corr f x V)))
    else None.
Proof.
  destruct (covers (length x) V) eqn:E.
  - apply error_prop_corr_covered, E.
  - apply error_prop_corr_uncovered, E.
Qed.

(** X2.  [error_prop_corr] reads [V] only at the entries [V[i][j]]
    with [i, j < len(x)]: two lists that agree there (as far as they
    reach) give the same outcome, the same expression or the same
    exception; rows and columns beyond are never looked at. *)
Theorem error_prop_corr_leading_block (f : expr) (x : list string)
    (V V' : list (list expr)) :
  (forall i j, (i < length x)%nat -> (j < length x)%nat ->
               entry V i j = entry V' i j) ->
  error_prop_corr simplify f x V = error_prop_corr simplify f x V'.
Proof.
  intros H; unfold error_prop_corr.
  f_equal.
  apply for_each_ext; intros i s Hi.
  apply for_each_ext; intros j s' Hj.
  unfold range in Hi, Hj; apply in_seq in Hi, Hj.
  specialize (H i j ltac:(lia) ltac:(lia)); unfold entry in H.
  destruct (index x i) as [xi|]; cbn [bind]; [|reflexivity].
  destruct (index x j) as [xj|]; cbn [bind]; [|reflexivity].
  destruct (index V i) as [Vi|], (index V' i) as [Vi'|]; cbn [bind] in H |- *.
  - rewrite H; reflexivity.
  - rewrite H; reflexivity.
  - rewrite <- H; reflexivity.
  - reflexivity.
Qed.

(** *** The shapes that [congruence_trafo] accepts *)

(** X10.  [congruence_trafo] returns a matrix exactly when neither
    vector is empty and [V] has as many rows and as many columns as
    there are old variables; the matrix is then square, of the size of
    [f].  It raises otherwise ([TypeError] from [jacobian], [ShapeError]
    from a product). *)
Theorem congruence_trafo_shape (f : list expr) (v : list string) (V : Matrix) :
  match congruence_trafo simplify f v V with
  | Some U =>
      f <> [] /\ v <> [] /\ nrows V = length v /\ ncols V = length v
      /\ is_matrix (length f) (length f) U
  | None =>
      f = [] \/ v = [] \/ nrows V <> length v \/ ncols V <> length v
  end.
Proof.
  unfold congruence_trafo.
  destruct f as [|f0 f']; [cbn; auto|].
  destruct v as [|v0 v']; [cbn; auto|].
  set (f := f0 :: f'); set (v := v0 :: v').
  set (G := mk_matrix (length f) (length v)
              (fun j i => diff (nth j f (Int 0)) (nth i v EmptyString))).
  change (jacobian f v) with (Some G); cbn [bind].
  assert (HM : (0 < length f)%nat) by (cbn; lia).
  assert (HN : (0 < length v)%nat) by (cbn; lia).
  assert (E1 : ncols G = length v) by (apply ncols_mk_matrix, HM).
  assert (E2 : nrows G = length f) by apply nrows_mk_matrix.
  unfold matmul at 1; rewrite E1, E2.
  destruct (Nat.eqb_spec (length v) (nrows V)) as [Hr|Hr]; cbn [bind ret];
    [|right; right; left; congruence].
  unfold matmul.
  rewrite ncols_mk_matrix, nrows_mk_matrix by exact HM.
  assert (E3 : nrows (transpose G) = length v).
  { unfold transpose; rewrite nrows_mk_matrix; exact E1. }
  assert (E4 : ncols (transpose G) = length f).
  { unfold transpose; rewrite E1, E2; apply ncols_mk_matrix, HN. }
  rewrite E3, E4.
  destruct (Nat.eqb_spec (ncols V) (length v)) as [Hc|Hc]; cbn [bind ret].
  - repeat split; try discriminate; try congruence.
    + unfold simplify_matrix; rewrite length_map.
      apply nrows_mk_matrix.
    + unfold simplify_matrix; rewrite Forall_map.
      destruct (is_matrix_mk_matrix (length f) (length f)
                  (fun i j => sum_expr (map (fun k =>
                     Mul (get (mk_matrix (length f) (ncols V)
                            (fun i0 j0 => sum_expr (map (fun k0 =>
                               Mul (get G i0 k0) (get V k0 j0))
                               (range (length v))))) i k)
                         (get (transpose G) k j)) (range (ncols V)))))
        as [_ Hrows].
      rewrite Forall_forall in *; intros row Hin.
      rewrite length_map; apply Hrows, Hin.
  - right; right; right; exact Hc.
Qed.

End More.

(** *** Sums of the uncorrelated propagator *)

Lemma Csum_perm {A : Type} (g : A -> C) (l l' : list A) :
  Permutation l l' -> Csum (map g l) = Csum (map g l').
Proof.
  induction 1 as [|a l l' _ IH|a b l|l l' l'' _ IH1 _ IH2]; cbn [map Csum fold_right].
  - reflexivity.
  - fold (Csum (map g l)); fold (Csum (map g l')); rewrite IH; reflexivity.
  - fold (Csum (map g l)); ring.
  - rewrite IH1; exact IH2.
Qed.

Lemma Csqrt_0 : Csqrt C0 = C0.
Proof.
  unfold C0; rewrite Csqrt_RtoC_nonneg by lra.
  rewrite sqrt_0; reflexivity.
Qed.

(** The derivative along a symbol that does not occur is zero. *)
Lemma diff_not_occurs (x : string) (f : expr) (v : env) :
  occurs x f = false -> eval v (diff f x) = C0.
Proof.
  induction f as [q| |s|a IHa b IHb|a IHa b IHb|a IHa n|a IHa|a IHa b IHb];
    cbn [occurs diff]; intros H.
  - apply eval_Int0.
  - apply eval_Int0.
  - rewrite H; apply eval_Int0.
  - apply orb_false_elim in H; destruct H as [Ha Hb].
    cbn [eval]; rewrite IHa, IHb by assumption; ring.
  - apply orb_false_elim in H; destruct H as [Ha Hb].
    cbn [eval]; rewrite IHa, IHb by assumption; ring.
  - destruct (n =? 0)%Z; [apply eval_Int0|].
    cbn [eval]; rewrite IHa by assumption; ring.
  - cbn [eval]; rewrite IHa by assumption; ring.
  - apply orb_false_elim in H; destruct H as [Ha Hb].
    cbn [eval]; rewrite IHa, IHb by assumption; ring.
Qed.

Lemma summand_not_occurs (x : string) (sigma f : expr) (v : env) :
  occurs x f = false ->
  Cmul (CpowZ (eval v (diff f x)) 2) (CpowZ (eval v sigma) 2) = C0.
Proof.
  intros H; rewrite (diff_not_occurs x f v H), Cpow_2; ring.
Qed.

Lemma Rsum_scal (k : R) {A : Type} (g : A -> R) (l : list A) :
  Rsum (map (fun a => k * g a) l) = k * Rsum (map g l).
Proof.
  unfold Rsum; induction l as [|a l IH]; cbn [map fold_right]; [ring|].
  rewrite IH; ring.
Qed.

Lemma Rsum_ext {A : Type} (g h : A -> R) (l : list A) :
  (forall a, In a l -> g a = h a) -> Rsum (map g l) = Rsum (map h l).
Proof.
  unfold Rsum; induction l as [|a l IH]; cbn [map fold_right]; intros H.
  - reflexivity.
  - rewrite (H a) by (left; reflexivity).
    rewrite IH by (intros; apply H; right; assumption).
    reflexivity.
Qed.

(** The sum of [error_prop] at a real point. *)
Lemma eval_radicand_real (r : renv) f vars :
  regular r f ->
  Forall (fun xs => rdefined r (snd xs)) vars ->
  eval (inj r) (radicand f vars)
  = RtoC (Rsum (map (fun xs => reval r (diff f (fst xs)) ^ 2
                               * reval r (snd xs) ^ 2) vars)).
Proof.
  intros Hf Hs; rewrite eval_radicand.
  unfold Rsum; rewrite RtoC_sum, map_map.
  apply Csum_ext; intros xs Hin.
  rewrite Forall_forall in Hs.
  rewrite !eval_real by (auto using regular_diff).
  rewrite !Cpow_2, <- !RtoC_mul.
  f_equal; ring.
Qed.

Lemma regular_well_posed (r : renv) f vars :
  regular r f ->
  Forall (fun xs => rdefined r (snd xs)) vars ->
  well_posed (inj r) (Uncorrelated f vars).
Proof.
  intros Hf Hs; cbn [well_posed].
  rewrite Forall_forall in *; intros xs Hin; split.
  - apply rdefined_defined, regular_diff, Hf.
  - apply rdefined_defined, Hs, Hin.
Qed.

(** *** Finite sums of real numbers *)

Lemma Rsum_zero {A : Type} (l : list A) : Rsum (map (fun _ => 0) l) = 0.
Proof.
  unfold Rsum; induction l as [|a l IH]; cbn [map fold_right]; [reflexivity|].
  rewrite IH; ring.
Qed.

Lemma Rsum_plus {A : Type} (g h : A -> R) (l : list A) :
  Rsum (map (fun a => g a + h a) l) = Rsum (map g l) + Rsum (map h l).
Proof.
  unfold Rsum; induction l as [|a l IH]; cbn [map fold_right]; [ring|].
  rewrite IH; ring.
Qed.

Lemma Rsum_scal_r (k : R) {A : Type} (g : A -> R) (l : list A) :
  Rsum (map (fun a => g a * k) l) = Rsum (map g l) * k.
Proof.
  unfold Rsum; induction l as [|a l IH]; cbn [map fold_right]; [ring|].
  rewrite IH; ring.
Qed.

Lemma Rsum_swap {A B : Type} (h : A -> B -> R) (l1 : list A) (l2 : list B) :
  Rsum (map (fun a => Rsum (map (fun b => h a b) l2)) l1)
  = Rsum (map (fun b => Rsum (map (fun a => h a b) l1)) l2).
Proof.
  induction l1 as [|a l1 IH].
  - symmetry; apply (Rsum_zero l2).
  - change (Rsum (map (fun b => h a b) l2)
            + Rsum (map (fun a0 => Rsum (map (fun b => h a0 b) l2)) l1)
            = Rsum (map (fun b => h a b + Rsum (map (fun a0 => h a0 b) l1)) l2)).
    rewrite IH.
    symmetry; apply (Rsum_plus (fun b => h a b)
                       (fun b => Rsum (map (fun a0 => h a0 b) l1)) l2).
Qed.

Lemma Rsum_app (l1 l2 : list R) : Rsum (l1 ++ l2) = Rsum l1 + Rsum l2.
Proof.
  unfold Rsum; induction l1 as [|a l1 IH]; cbn [app fold_right]; [ring|].
  rewrite IH; ring.
Qed.

Lemma Rsum_list_prod {A B : Type} (h : A * B -> R) (l1 : list A) (l2 : list B) :
  Rsum (map h (list_prod l1 l2))
  = Rsum (map (fun a => Rsum (map (fun b => h (a, b)) l2)) l1).
Proof.
  induction l1 as [|a l1 IH]; cbn [list_prod map].
  - reflexivity.
  - rewrite map_app, Rsum_app, map_map, IH; reflexivity.
Qed.

(** The quadratic form of [G V G^T] is the one of [V] at [G^T u]. *)
Lemma quadratic_form_congruence (M N : nat) (G V : Rmatrix) (u : nat -> R) :
  quadratic_form M u (mmul N (mmul N G V) (mtranspose G))
  = quadratic_form N (fun j => Rsum (map (fun i => u i * G i j) (seq 0 M))) V.
Proof.
  unfold quadratic_form, pairs; rewrite !Rsum_list_prod; cbn [fst snd].
  set (w := fun j => Rsum (map (fun i => u i * G i j) (seq 0 M))).
  set (A := mmul N G V).
  transitivity (Rsum (map (fun i => Rsum (map (fun l => u i * A i l * w l)
                                              (seq 0 N))) (seq 0 M))).
  { apply Rsum_ext; intros i _.
    unfold mmul at 1, mtranspose.
    rewrite (Rsum_ext _ (fun k => Rsum (map (fun l => u i * A i l * (u k * G k l))
                                            (seq 0 N)))).
    - rewrite Rsum_swap.
      apply Rsum_ext; intros l _.
      unfold w; rewrite <- Rsum_scal; reflexivity.
    - intros k _; rewrite <- Rsum_scal.
      apply Rsum_ext; intros l _; ring. }
  rewrite Rsum_swap.
  transitivity (Rsum (map (fun l => Rsum (map (fun j => w j * w l * V j l)
                                              (seq 0 N))) (seq 0 N))).
  { apply Rsum_ext; intros l _.
    rewrite (Rsum_ext _ (fun i => Rsum (map (fun j => u i * G i j * (V j l * w l))
                                            (seq 0 N)))).
    - rewrite Rsum_swap.
      apply Rsum_ext; intros j _.
      rewrite (Rsum_scal_r (V j l * w l) (fun i => u i * G i j)).
      fold (w j); ring.
    - intros i _; unfold A, mmul.
      rewrite Rmult_assoc, (Rmult_comm (Rsum _)), <- Rmult_assoc.
      rewrite <- Rsum_scal.
      apply Rsum_ext; intros j _; ring. }
  apply Rsum_swap.
Qed.

Section MoreSound.

Variable simplify : expr -> expr.
Hypothesis simplify_sound : sound_simplifier simplify.

(** X3.  Without variables there is no uncertainty: for an empty list
    both propagators return an expression of value [0], and
    [error_prop_corr] does not look at [V] at all. *)
Theorem no_variables (f : expr) (V : list (list expr)) (v : env) :
  eval v (error_prop simplify f []) = C0
  /\ exists e : expr,
       error_prop_corr simplify f [] V = Some e /\ eval v e = C0.
Proof.
  destruct (simplify_sound v (Int 0) I) as [_ E].
  split.
  - rewrite error_prop_unfold; cbn [radicand fold_left eval].
    rewrite E, eval_Int0; apply Csqrt_0.
  - exists (Sqrt (simplify (Int 0))); split; [reflexivity|].
    cbn [eval]; rewrite E, eval_Int0; apply Csqrt_0.
Qed.

(** X4.  A listed variable that does not occur in [f] contributes
    nothing: striking its pair from the list leaves the value of the
    result of [error_prop] unchanged. *)
Theorem absent_variable (f : expr) (vars1 vars2 : list (string * expr))
    (x : string) (sigma : expr) (v : env) :
  occurs x f = false ->
  well_posed v (Uncorrelated f (vars1 ++ (x, sigma) :: vars2)) ->
  eval v (error_prop simplify f (vars1 ++ (x, sigma) :: vars2))
  = eval v (error_prop simplify f (vars1 ++ vars2)).
Proof.
  intros Hx Hw; cbn [well_posed] in Hw.
  assert (Hw' : Forall (fun xs => defined v (diff f (fst xs))
                                  /\ defined v (snd xs)) (vars1 ++ vars2)).
  { apply Forall_app in Hw; destruct Hw as [H1 H2].
    apply Forall_app; split; [exact H1|].
    inversion H2; assumption. }
  destruct (error_prop_value simplify simplify_sound v f _ Hw) as [_ E1].
  destruct (error_prop_value simplify simplify_sound v f _ Hw') as [_ E2].
  rewrite E1, E2, !eval_radicand, !map_app, !Csum_app; f_equal.
  cbn [map Csum fold_right fst snd].
  rewrite (summand_not_occurs x sigma f v Hx); unfold Csum; ring.
Qed.

(** X5.  The order of the variables does not matter: for a
    rearrangement of the list [error_prop] returns an expression of
    the same value. *)
Theorem order_of_variables (f : expr) (vars vars' : list (string * expr))
    (v : env) :
  Permutation vars vars' ->
  well_posed v (Uncorrelated f vars) ->
  eval v (error_prop simplify f vars) = eval v (error_prop simplify f vars').
Proof.
  intros Hp Hw; cbn [well_posed] in Hw.
  assert (Hw' := Permutation_Forall Hp Hw).
  destruct (error_prop_value simplify simplify_sound v f _ Hw) as [_ E1].
  destruct (error_prop_value simplify simplify_sound v f _ Hw') as [_ E2].
  rewrite E1, E2, !eval_radicand; f_equal.
  apply Csum_perm, Hp.
Qed.

(** X6.  Uncertainties of independent terms add in quadrature: when
    the variables listed for [g] do not occur in [h] and those listed
    for [h] do not occur in [g], the square of the result for [g + h]
    is the sum of the squares of the results for [g] and for [h]. *)
Theorem sum_in_quadrature (g h : expr) (vg vh : list (string * expr))
    (v : env) :
  independent_of h vg ->
  independent_of g vh ->
  well_posed v (Uncorrelated (Add g h) (vg ++ vh)) ->
  eval v (Pow (error_prop simplify (Add g h) (vg ++ vh)) 2)
  = Cadd (eval v (Pow (error_prop simplify g vg) 2))
         (eval v (Pow (error_prop simplify h vh) 2)).
Proof.
  intros Hg Hh Hw; cbn [well_posed diff defined] in Hw.
  apply Forall_app in Hw; destruct Hw as [Hwg Hwh].
  assert (Wg : Forall (fun xs => defined v (diff g (fst xs))
                                 /\ defined v (snd xs)) vg).
  { rewrite Forall_forall in *; intros xs Hin.
    specialize (Hwg xs Hin); tauto. }
  assert (Wh : Forall (fun xs => defined v (diff h (fst xs))
                                 /\ defined v (snd xs)) vh).
  { rewrite Forall_forall in *; intros xs Hin.
    specialize (Hwh xs Hin); tauto. }
  assert (W : Forall (fun xs => defined v (diff (Add g h) (fst xs))
                                /\ defined v (snd xs)) (vg ++ vh)).
  { apply Forall_app; split; rewrite Forall_forall in *; intros xs Hin;
      cbn [diff defined]; [specialize (Hwg xs Hin) | specialize (Hwh xs Hin)];
      tauto. }
  destruct (error_prop_value simplify simplify_sound v _ _ W) as [_ E].
  destruct (error_prop_value simplify simplify_sound v _ _ Wg) as [_ Eg].
  destruct (error_prop_value simplify simplify_sound v _ _ Wh) as [_ Eh].
  cbn [eval]; rewrite E, Eg, Eh, !Cpow_2, !Csqrt_sqr.
  rewrite !eval_radicand, map_app, Csum_app.
  unfold independent_of in Hg, Hh; rewrite Forall_forall in Hg, Hh.
  f_equal; apply Csum_ext; intros xs Hin; cbn [diff eval].
  - rewrite (diff_not_occurs _ h v (Hg xs Hin)), Cadd_0_r; reflexivity.
  - rewrite (diff_not_occurs _ g v (Hh xs Hin)), Cadd_0_l; reflexivity.
Qed.

(** X7.  Scaling the formula by a number [c] scales the uncertainty
    by [|c|]: at every real point where [f] is differentiable, the
    result of [error_prop] for [c * f] has [|c|] times the value of the
    result for [f]. *)
Theorem scaled_formula (c : Q) (f : expr) (vars : list (string * expr))
    (r : renv) :
  regular r f ->
  Forall (fun xs => rdefined r (snd xs)) vars ->
  eval (inj r) (error_prop simplify (Mul (Num c) f) vars)
  = Cmul (RtoC (Rabs (Q2R c))) (eval (inj r) (error_prop simplify f vars)).
Proof.
  intros Hf Hs.
  assert (Hcf : regular r (Mul (Num c) f)) by (split; [exact I | exact Hf]).
  destruct (error_prop_value simplify simplify_sound (inj r) _ _
              (regular_well_posed r _ _ Hcf Hs)) as [_ E1].
  destruct (error_prop_value simplify simplify_sound (inj r) _ _
              (regular_well_posed r _ _ Hf Hs)) as [_ E2].
  rewrite E1, E2, !eval_radicand_real by assumption.
  set (g := fun xs : string * expr =>
              reval r (diff f (fst xs)) ^ 2 * reval r (snd xs) ^ 2).
  assert (Hg : 0 <= Rsum (map g vars)).
  { apply Rsum_nonneg; rewrite Forall_map, Forall_forall.
    intros xs _; unfold g; nra. }
  rewrite (Rsum_ext _ (fun xs => (Q2R c * Q2R c) * g xs)).
  - rewrite Rsum_scal, !Csqrt_RtoC_nonneg by nra.
    rewrite <- RtoC_mul; f_equal.
    rewrite sqrt_mult by nra.
    f_equal.
    replace (Q2R c * Q2R c) with (Rsqr (Q2R c)) by reflexivity.
    apply sqrt_Rsqr_abs.
  - intros xs _; unfold g; cbn [diff reval].
    rewrite reval_Int; ring.
Qed.

(** X8.  The formula of exercise a for two variables: with the
    covariance matrix [[[s1^2, rho s1 s2], [rho s1 s2, s2^2]]] the
    square of the correlated result is the square of the uncorrelated
    one plus [2 (df/dx1) (df/dx2) rho s1 s2]. *)
Theorem two_variables (f : expr) (x1 x2 : string) (s1 s2 rho : expr) (v : env) :
  defined v (diff f x1) -> defined v (diff f x2) ->
  defined v s1 -> defined v s2 -> defined v rho ->
  exists e : expr,
    error_prop_corr simplify f [x1; x2] (cov2 s1 s2 rho) = Some e
    /\ eval v (Pow e 2)
       = Cadd (eval v (Pow (error_prop simplify f [(x1, s1); (x2, s2)]) 2))
              (Cmul (Cadd C1 C1)
                 (Cmul (Cmul (eval v (diff f x1)) (eval v (diff f x2)))
                       (Cmul (eval v rho) (Cmul (eval v s1) (eval v s2))))).
Proof.
  intros D1 D2 Ds1 Ds2 Drho.
  assert (HV : is_matrix 2 2 (cov2 s1 s2 rho)) by (repeat constructor).
  assert (Hd : inputs_defined v [f] [x1; x2] (cov2 s1 s2 rho)).
  { split; repeat (apply Forall_cons || apply Forall_nil);
      cbn [defined]; repeat split; try assumption; intros; lia. }
  assert (Hw : Forall (fun xs => defined v (diff f (fst xs))
                                 /\ defined v (snd xs)) [(x1, s1); (x2, s2)]).
  { repeat (apply Forall_cons || apply Forall_nil); split; assumption. }
  destruct (error_prop_corr_value simplify simplify_sound v f [x1; x2] _ HV Hd)
    as (e & Ee & _ & E).
  destruct (error_prop_value simplify simplify_sound v f _ Hw) as [_ Eu].
  exists e; split; [exact Ee|].
  cbn [eval]; rewrite E, Eu, !Cpow_2, !Csqrt_sqr.
  rewrite eval_radicand_corr, eval_radicand.
  cbn [length range seq map Csum fold_right summand nth get cov2 eval fst snd].
  rewrite !Cpow_2; ring.
Qed.

(** X9.  Only the symmetric part of [V] counts: exchanging the rows
    and the columns of [V] does not change the value of the result of
    [error_prop_corr]. *)
Theorem transposed_covariance (f : expr) (x : list string) (V : Matrix)
    (v : env) :
  is_matrix (length x) (length x) V ->
  inputs_defined v [f] x V ->
  exists e e' : expr,
    error_prop_corr simplify f x V = Some e
    /\ error_prop_corr simplify f x (transpose V) = Some e'
    /\ eval v e = eval v e'.
Proof.
  intros HV Hd.
  assert (Ht : transpose V = mk_matrix (length x) (length x) (fun i j => get V j i)).
  { unfold transpose, nrows; destruct HV as [Hl Hr]; rewrite Hl.
    destruct x as [|x0 x'].
    - destruct V; [reflexivity | discriminate].
    - rewrite (ncols_is_matrix (length (x0 :: x')) (length (x0 :: x')));
        [reflexivity | cbn; lia | split; assumption]. }
  assert (HV' : is_matrix (length x) (length x) (transpose V)).
  { rewrite Ht; apply is_matrix_mk_matrix. }
  assert (Hd' : inputs_defined v [f] x (transpose V)).
  { destruct Hd as [Hf HVd]; split; [exact Hf|].
    rewrite Ht; unfold mk_matrix, range.
    rewrite Forall_map, Forall_forall; intros i Hi; apply in_seq in Hi.
    rewrite Forall_map, Forall_forall; intros j Hj; apply in_seq in Hj.
    apply (defined_get v V (length x) (length x)); (assumption || lia). }
  destruct (error_prop_corr_value simplify simplify_sound v f x V HV Hd)
    as (e & Ee & _ & E).
  destruct (error_prop_corr_value simplify simplify_sound v f x _ HV' Hd')
    as (e' & Ee' & _ & E').
  exists e, e'; split; [exact Ee|]; split; [exact Ee'|].
  rewrite E, E', !eval_radicand_corr; f_equal.
  rewrite Csum_swap.
  apply Csum_ext; intros i Hi; apply Csum_ext; intros j Hj.
  unfold range in Hi, Hj; apply in_seq in Hi, Hj.
  unfold summand; cbn [eval].
  rewrite Ht, get_mk_matrix by lia.
  ring.
Qed.

(** *** The matrix of [congruence_trafo] *)

(** X11.  Every diagonal entry of the matrix that [congruence_trafo]
    returns is the square of what [error_prop_corr] returns for that
    component of [f]: the variances of the new variables are their
    propagated uncertainties, squared. *)
Theorem diagonal_entries (f : list expr) (x : list string) (V : Matrix)
    (v : env) (i : nat) :
  x <> [] ->
  is_matrix (length x) (length x) V ->
  inputs_defined v f x V ->
  (i < length f)%nat ->
  exists (U : Matrix) (s : expr),
    congruence_trafo simplify f x V = Some U
    /\ error_prop_corr simplify (nth i f (Int 0)) x V = Some s
    /\ eval v (get U i i) = eval v (Pow s 2).
Proof.
  intros Hx HV Hd Hi.
  assert (Hf : f <> []) by (destruct f; [cbn in Hi; lia | discriminate]).
  destruct (congruence_trafo_value simplify simplify_sound v f x V Hf Hx HV Hd)
    as (U & EU & _ & Hval).
  assert (Hdi : inputs_defined v [nth i f (Int 0)] x V).
  { destruct Hd as [Hdf HdV]; split; [|exact HdV].
    apply Forall_cons; [|apply Forall_nil].
    apply (Forall_nth_default
             (fun fi => Forall (fun xj => defined v (diff fi xj)) x));
      assumption. }
  destruct (error_prop_corr_value simplify simplify_sound v _ x V HV Hdi)
    as (s & Es & _ & Vs).
  exists U, s; split; [exact EU|]; split; [exact Es|].
  destruct (Hval i i Hi Hi) as [_ E].
  rewrite E; cbn [eval]; rewrite Cpow_2, Vs, Csqrt_sqr, eval_radicand_corr.
  rewrite (Csum_ext _ (fun l => Csum (map (fun j =>
             eval v (summand (nth i f (Int 0)) x V j l)) (range (length x))))).
  - apply Csum_swap.
  - intros l _; rewrite Csum_mul_r.
    apply Csum_ext; intros j _.
    unfold summand; cbn [eval]; ring.
Qed.

(** The Jacobian of the variables themselves is the identity. *)
Lemma eval_diff_self (x : list string) (v : env) (i j : nat) :
  NoDup x -> (i < length x)%nat -> (j < length x)%nat ->
  eval v (diff (nth i (map Sym x) (Int 0)) (nth j x EmptyString))
  = if Nat.eqb i j then C1 else C0.
Proof.
  intros Hnd Hi Hj.
  rewrite (nth_indep _ (Int 0) (Sym EmptyString)) by (rewrite length_map; exact Hi).
  rewrite (map_nth Sym); cbn [diff].
  destruct (String.eqb_spec (nth i x EmptyString) (nth j x EmptyString)) as [E|E].
  - rewrite NoDup_nth in Hnd; rewrite (Hnd i j Hi Hj E), Nat.eqb_refl.
    rewrite eval_Int; reflexivity.
  - destruct (Nat.eqb_spec i j) as [->|_]; [congruence|].
    apply eval_Int0.
Qed.

(** X12.  Keeping the variables keeps the covariance: for [f] the
    vector of the (distinct) old variables themselves, every entry of
    the matrix that [congruence_trafo] returns has the value of the
    same entry of [V]. *)
Theorem identity_transformation (x : list string) (V : Matrix) (v : env) :
  x <> [] -> NoDup x ->
  is_matrix (length x) (length x) V ->
  Forall (Forall (defined v)) V ->
  exists U : Matrix,
    congruence_trafo simplify (map Sym x) x V = Some U
    /\ forall i k, (i < length x)%nat -> (k < length x)%nat ->
         eval v (get U i k) = eval v (get V i k).
Proof.
  intros Hx Hnd HV HdV.
  assert (Hf : map Sym x <> []) by (destruct x; [congruence | discriminate]).
  assert (Hd : inputs_defined v (map Sym x) x V).
  { split; [|exact HdV].
    rewrite Forall_map, Forall_forall; intros a _.
    rewrite Forall_forall; intros b _; cbn [diff].
    destruct (String.eqb a b); exact I. }
  destruct (congruence_trafo_value simplify simplify_sound v _ x V Hf Hx HV Hd)
    as (U & EU & _ & Hval).
  exists U; split; [exact EU|].
  intros i k Hi Hk.
  destruct (Hval i k ltac:(rewrite length_map; exact Hi)
                     ltac:(rewrite length_map; exact Hk)) as [_ E].
  rewrite E; unfold range.
  rewrite (Csum_single _ _ k); [| apply seq_NoDup | apply in_seq; lia |].
  - rewrite eval_diff_self, Nat.eqb_refl, Cmul_1_r by assumption.
    rewrite (Csum_single _ _ i); [| apply seq_NoDup | apply in_seq; lia |].
    + rewrite eval_diff_self, Nat.eqb_refl, Cmul_1_l by assumption.
      reflexivity.
    + intros j Hj Hne; apply in_seq in Hj.
      rewrite eval_diff_self by (assumption || lia).
      destruct (Nat.eqb_spec i j) as [->|_]; [congruence|].
      apply Cmul_0_l.
  - intros l Hl Hne; apply in_seq in Hl.
    rewrite eval_diff_self by (assumption || lia).
    destruct (Nat.eqb_spec k l) as [->|_]; [congruence|].
    apply Cmul_0_r.
Qed.

(** The entries of the matrix of [congruence_trafo] at a real point. *)
Lemma congruence_trafo_real (f : list expr) (x : list string) (V : Matrix)
    (r : renv) :
  f <> [] -> x <> [] ->
  is_matrix (length x) (length x) V ->
  inputs_regular r f V ->
  exists U : Matrix,
    congruence_trafo simplify f x V = Some U
    /\ forall i k, (i < length f)%nat -> (k < length f)%nat ->
         eval (inj r) (get U i k)
         = RtoC (mmul (length x)
                   (mmul (length x) (jacobian_at r f x) (matrix_at r V))
                   (mtranspose (jacobian_at r f x)) i k).
Proof.
  intros Hf Hx HV Hreg.
  destruct (congruence_trafo_value simplify simplify_sound (inj r) f x V Hf Hx HV
              (inputs_regular_defined r f x V Hreg)) as (U & EU & _ & Hval).
  destruct Hreg as [Hreg HVr].
  assert (Hfi : forall i, (i < length f)%nat -> regular r (nth i f (Int 0))).
  { intros i Hi; apply (Forall_nth_default (regular r)); assumption. }
  exists U; split; [exact EU|].
  intros i k Hi Hk.
  destruct (Hval i k Hi Hk) as [_ E]; rewrite E.
  unfold mmul, mtranspose, jacobian_at, matrix_at, Rsum, range.
  rewrite RtoC_sum, map_map.
  apply Csum_ext; intros l Hl; apply in_seq in Hl.
  rewrite RtoC_mul, RtoC_sum, map_map.
  rewrite (eval_real r (diff (nth k f (Int 0)) _))
    by (apply regular_diff, Hfi, Hk).
  f_equal.
  apply Csum_ext; intros j Hj; apply in_seq in Hj.
  rewrite RtoC_mul, !eval_real; [reflexivity| |].
  - apply (rdefined_get r V (length x) (length x)); (assumption || lia).
  - apply regular_diff, Hfi, Hi.
Qed.

(** X13.  A covariance matrix is transformed into a covariance matrix:
    at a real point where [V] is positive semidefinite, the matrix
    that [congruence_trafo] returns is positive semidefinite too. *)
Theorem semidefinite_preserved (f : list expr) (x : list string) (V : Matrix)
    (r : renv) :
  f <> [] -> x <> [] ->
  is_matrix (length x) (length x) V ->
  inputs_regular r f V ->
  (forall w : nat -> R, 0 <= quadratic_form (length x) w (matrix_at r V)) ->
  exists (U : Matrix) (Ur : Rmatrix),
    congruence_trafo simplify f x V = Some U
    /\ (forall i k, (i < length f)%nat -> (k < length f)%nat ->
          eval (inj r) (get U i k) = RtoC (Ur i k))
    /\ forall u : nat -> R, 0 <= quadratic_form (length f) u Ur.
Proof.
  intros Hf Hx HV Hreg Hpsd.
  destruct (congruence_trafo_real f x V r Hf Hx HV Hreg) as (U & EU & Hval).
  exists U, (mmul (length x)
               (mmul (length x) (jacobian_at r f x) (matrix_at r V))
               (mtranspose (jacobian_at r f x))).
  split; [exact EU|]; split; [exact Hval|].
  intros u; rewrite quadratic_form_congruence; apply Hpsd.
Qed.

End MoreSound.

(** *** Exercise c: polar coordinates *)

Lemma f_new_regular (r : renv) :
  0 < r "x"%string \/ r "y"%string <> 0 -> inputs_regular r f_new C_xy.
Proof.
  intros H; split; [|apply C_xy_rdefined].
  apply Forall_cons; [|apply Forall_cons; [|apply Forall_nil]].
  - cbn; repeat split; try (intros; lia).
    cbv [Pos.to_nat Pos.iter_op Init.Nat.add]; cbn [pow].
    destruct H; nra.
  - cbn; repeat split; exact H.
Qed.

Ltac polar_entry X Y Hpos :=
  unfold mmul, mtranspose, jacobian_at, matrix_at, Rsum, U_polar;
  cbn; unfold Q2R; cbn; cbv [Pos.to_nat Pos.iter_op Init.Nat.add]; cbn [pow];
  fold X Y;
  replace (X * (X * 1) + Y * (Y * 1)) with (X * X + Y * Y) by ring;
  replace (Y * (Y * 1) + X * (X * 1)) with (X * X + Y * Y) by ring;
  let Hs2 := fresh "Hs2" in
  let Hs := fresh "Hs" in
  let s := fresh "s" in
  assert (Hs2 : sqrt (X * X + Y * Y) * sqrt (X * X + Y * Y) = X * X + Y * Y)
    by (apply sqrt_sqrt; lra);
  assert (Hs : 0 < sqrt (X * X + Y * Y)) by (apply sqrt_lt_R0, Hpos);
  set (s := sqrt (X * X + Y * Y)) in *;
  rewrite <- Hs2;
  field; lra.

(** The product [G V G^T] for the polar coordinates. *)
Lemma polar_values (r : renv) (i k : nat) :
  0 < r "x"%string \/ r "y"%string <> 0 ->
  (i < 2)%nat -> (k < 2)%nat ->
  mmul 2 (mmul 2 (jacobian_at r f_new v_old) (matrix_at r C_xy))
         (mtranspose (jacobian_at r f_new v_old)) i k
  = U_polar (r "x"%string) (r "y"%string) (r "sigma_x"%string)
            (r "sigma_y"%string) (r "rho"%string) i k.
Proof.
  intros H Hi Hk.
  set (X := r "x"%string) in *; set (Y := r "y"%string) in *.
  assert (Hpos : 0 < X * X + Y * Y) by (destruct H; nra).
  destruct i as [|[|i]], k as [|[|k]]; try lia.
  - polar_entry X Y Hpos.
  - polar_entry X Y Hpos.
  - polar_entry X Y Hpos.
  - polar_entry X Y Hpos.
Qed.

Lemma V_uncorrelated_regular (r : renv) :
  0 < r "x"%string \/ r "y"%string <> 0 ->
  inputs_regular r f_new V_uncorrelated.
Proof.
  intros H; split; [exact (proj1 (f_new_regular r H))|].
  repeat constructor; cbn; intros; lia.
Qed.

Lemma V_uncorrelated_matrix : is_matrix 2 2 V_uncorrelated.
Proof. repeat constructor. Qed.

(** The same product without correlation. *)
Lemma polar_values_uncorrelated (r : renv) (i k : nat) :
  0 < r "x"%string \/ r "y"%string <> 0 ->
  (i < 2)%nat -> (k < 2)%nat ->
  mmul 2 (mmul 2 (jacobian_at r f_new v_old) (matrix_at r V_uncorrelated))
         (mtranspose (jacobian_at r f_new v_old)) i k
  = U_polar (r "x"%string) (r "y"%string) (r "sigma_x"%string)
            (r "sigma_y"%string) 0 i k.
Proof.
  intros H Hi Hk.
  set (X := r "x"%string) in *; set (Y := r "y"%string) in *.
  assert (Hpos : 0 < X * X + Y * Y) by (destruct H; nra).
  destruct i as [|[|i]], k as [|[|k]]; try lia.
  - polar_entry X Y Hpos.
  - polar_entry X Y Hpos.
  - polar_entry X Y Hpos.
  - polar_entry X Y Hpos.
Qed.

Section Polar.

Variable simplify : expr -> expr.
Hypothesis simplify_sound : sound_simplifier simplify.

(** X14.  The cell of exercise c: for the radial distance
    [sqrt(x^2 + y^2)] and the angle [atan2(y, x)], at every real
    position off the negative [x] axis and the origin,
    [congruence_trafo] returns the matrix that the notebook displays. *)
Theorem polar_covariance (r : renv) :
  0 < r "x"%string \/ r "y"%string <> 0 ->
  exists U : Matrix,
    congruence_trafo simplify f_new v_old C_xy = Some U
    /\ forall i k, (i < 2)%nat -> (k < 2)%nat ->
         eval (inj r) (get U i k)
         = RtoC (U_polar (r "x"%string) (r "y"%string) (r "sigma_x"%string)
                         (r "sigma_y"%string) (r "rho"%string) i k).
Proof.
  intros H.
  destruct (congruence_trafo_real simplify simplify_sound f_new v_old C_xy r
              ltac:(discriminate) ltac:(discriminate) C_xy_matrix
              (f_new_regular r H)) as (U & EU & Hval).
  exists U; split; [exact EU|].
  intros i k Hi Hk.
  rewrite (Hval i k Hi Hk); f_equal.
  apply (polar_values r i k H Hi Hk).
Qed.

(** X15.  The last cell of exercise c: without correlation both
    off-diagonal entries of the matrix that [congruence_trafo] returns
    are [x y (sigma_y^2 - sigma_x^2) / (x^2 + y^2)^(3/2)]; they vanish
    exactly on the axes and for equal uncertainties, and are non-zero
    everywhere else. *)
Theorem polar_off_diagonal (r : renv) :
  0 < r "x"%string \/ r "y"%string <> 0 ->
  exists (U : Matrix) (o : R),
    congruence_trafo simplify f_new v_old V_uncorrelated = Some U
    /\ eval (inj r) (get U 0 1) = RtoC o
    /\ eval (inj r) (get U 1 0) = RtoC o
    /\ o = (r "x" * r "y" * (r "sigma_y" ^ 2 - r "sigma_x" ^ 2)
            / ((r "x" ^ 2 + r "y" ^ 2) * sqrt (r "x" ^ 2 + r "y" ^ 2)))%string
    /\ (o = 0 <->
        r "x"%string = 0 \/ r "y"%string = 0
        \/ r "sigma_x"%string ^ 2 = r "sigma_y"%string ^ 2).
Proof.
  intros H.
  destruct (congruence_trafo_real simplify simplify_sound f_new v_old
              V_uncorrelated r
              ltac:(discriminate) ltac:(discriminate) V_uncorrelated_matrix
              (V_uncorrelated_regular r H)) as (U & EU & Hval).
  set (X := r "x"%string) in *; set (Y := r "y"%string) in *.
  set (sx := r "sigma_x"%string); set (sy := r "sigma_y"%string).
  assert (Hpos : 0 < X * X + Y * Y) by (destruct H; nra).
  assert (Hs : 0 < sqrt (X * X + Y * Y)) by (apply sqrt_lt_R0, Hpos).
  set (D := (X * X + Y * Y) * sqrt (X * X + Y * Y)).
  assert (HD : 0 < D) by (apply Rmult_lt_0_compat; assumption).
  exists U, (X * Y * (sy * sy - sx * sx) / D).
  split; [exact EU|]; split; [|split; [|split]].
  - rewrite (Hval 0%nat 1%nat ltac:(cbn; lia) ltac:(cbn; lia)); f_equal.
    change (length v_old) with 2%nat.
    rewrite (polar_values_uncorrelated r 0 1 H) by lia.
    cbn [U_polar]; fold X Y sx sy D; field; lra.
  - rewrite (Hval 1%nat 0%nat ltac:(cbn; lia) ltac:(cbn; lia)); f_equal.
    change (length v_old) with 2%nat.
    rewrite (polar_values_uncorrelated r 1 0 H) by lia.
    cbn [U_polar]; fold X Y sx sy D; field; lra.
  - unfold D; cbn [pow]; rewrite !Rmult_1_r; reflexivity.
  - split.
    + intros E.
      assert (E' : X * Y * (sy * sy - sx * sx) = 0).
      { apply (Rmult_eq_reg_r (/ D)); [|apply Rinv_neq_0_compat; lra].
        rewrite Rmult_0_l; exact E. }
      apply Rmult_integral in E'; destruct E' as [E'|E'].
      * apply Rmult_integral in E'; tauto.
      * right; right; cbn [pow]; lra.
    + intros [E|[E|E]].
      * rewrite E; unfold Rdiv; ring.
      * rewrite E; unfold Rdiv; ring.
      * cbn [pow] in E.
        replace (sy * sy - sx * sx) with 0 by lra.
        unfold Rdiv; ring.
Qed.

End Polar.

(** *** The cells of exercise a *)

Section ExerciseA.

Variable simplify : expr -> expr.
Hypothesis simplify_sound : sound_simplifier simplify.

(** The value of [error_prop_corr] for two variables with the
    covariance matrix of the notebook. *)
Lemma cov2_value (f : expr) (x1 x2 : string) (s1 s2 rho : expr) (r : renv) :
  regular r f -> rdefined r s1 -> rdefined r s2 -> rdefined r rho ->
  exists e : expr,
    error_prop_corr simplify f [x1; x2] (cov2 s1 s2 rho) = Some e
    /\ eval (inj r) e
       = Csqrt (RtoC (reval r (diff f x1) ^ 2 * reval r s1 ^ 2
                      + reval r (diff f x2) ^ 2 * reval r s2 ^ 2
                      + 2 * reval r (diff f x1) * reval r (diff f x2)
                        * (reval r rho * reval r s1 * reval r s2))).
Proof.
  intros Hf Hs1 Hs2 Hrho.
  assert (HV : is_matrix 2 2 (cov2 s1 s2 rho)) by (repeat constructor).
  assert (Hr : inputs_regular r [f] (cov2 s1 s2 rho)).
  { split; [apply Forall_cons; [exact Hf | apply Forall_nil]|].
    repeat (apply Forall_cons || apply Forall_nil);
      cbn [rdefined]; repeat split; try assumption; intros; lia. }
  destruct (error_prop_corr_value simplify simplify_sound (inj r) f [x1; x2] _
              HV (inputs_regular_defined r [f] [x1; x2] _ Hr))
    as (e & Ee & _ & E).
  exists e; split; [exact Ee|].
  rewrite E; f_equal.
  rewrite eval_radicand_corr.
  cbn [length range seq map Csum fold_right summand nth get cov2 eval fst snd].
  rewrite !(eval_real r (diff f _)) by (apply regular_diff, Hf).
  rewrite (eval_real r s1), (eval_real r s2), (eval_real r rho) by assumption.
  rewrite !Cpow_2.
  unfold C0, Cadd, Cmul, RtoC; cbn [re im]; f_equal; ring.
Qed.

Lemma diff_Int (z : Z) (x : string) : diff (Int z) x = Int 0.
Proof. reflexivity. Qed.

(** The derivatives of the formulas of the cells and their values. *)
Ltac cell_value :=
  cbn [z_1 z_2 z_3 z_4 g x y L T sig_x sig_y sig_L sig_T rho
       diff reval String.eqb Ascii.eqb Bool.eqb Z.eqb];
  rewrite ?diff_Int, ?reval_Int;
  change (-1 - 1)%Z with (-2)%Z; change (-2 - 1)%Z with (-3)%Z;
  cbn [reval powerRZ]; cbv [Pos.to_nat Pos.iter_op Init.Nat.add]; cbn [pow].

(** The square of a relative uncertainty [e / z]. *)
Lemma relative_square (r : renv) (e z : expr) (q : R) :
  rdefined r z -> reval r z <> 0 ->
  eval (inj r) e = Csqrt (RtoC q) ->
  eval (inj r) (Pow (Mul e (Pow z (-1))) 2) = RtoC (q / reval r z ^ 2).
Proof.
  intros Hz Hn E.
  assert (Hp : rdefined r (Pow z (-1))) by (split; [exact Hz | intros _; exact Hn]).
  change (eval (inj r) (Pow (Mul e (Pow z (-1))) 2))
    with (CpowZ (Cmul (eval (inj r) e) (eval (inj r) (Pow z (-1)))) 2).
  rewrite Cpow_2, E, (eval_real r _ Hp).
  transitivity (Cmul (Cmul (Csqrt (RtoC q)) (Csqrt (RtoC q)))
                     (Cmul (RtoC (reval r (Pow z (-1))))
                           (RtoC (reval r (Pow z (-1)))))); [ring|].
  rewrite Csqrt_sqr, <- !RtoC_mul; f_equal.
  cbn [reval powerRZ]; cbv [Pos.to_nat Pos.iter_op]; cbn [pow].
  field; exact Hn.
Qed.

(** X24.  The first cell of exercise a: for the sum [x + y] and the
    difference [x - y] the result of [error_prop_corr] is the square
    root of [sigma_x^2 + sigma_y^2 + 2 rho sigma_x sigma_y] and of
    [sigma_x^2 + sigma_y^2 - 2 rho sigma_x sigma_y], wherever [x] and
    [y] are. *)
Theorem sum_and_difference (r : renv) :
  exists e1 e2 : expr,
    error_prop_corr simplify z_1 ["x"; "y"]%string C_xy = Some e1
    /\ error_prop_corr simplify z_2 ["x"; "y"]%string C_xy = Some e2
    /\ eval (inj r) e1
       = Csqrt (RtoC (r "sigma_x"%string ^ 2 + r "sigma_y"%string ^ 2
                      + 2 * r "rho"%string
                        * r "sigma_x"%string * r "sigma_y"%string))
    /\ eval (inj r) e2
       = Csqrt (RtoC (r "sigma_x"%string ^ 2 + r "sigma_y"%string ^ 2
                      - 2 * r "rho"%string
                        * r "sigma_x"%string * r "sigma_y"%string)).
Proof.
  destruct (cov2_value z_1 "x" "y" sig_x sig_y rho r) as (e1 & E1 & V1);
    try exact I; [repeat split|].
  destruct (cov2_value z_2 "x" "y" sig_x sig_y rho r) as (e2 & E2 & V2);
    try exact I; [repeat split|].
  exists e1, e2; split; [exact E1|]; split; [exact E2|].
  rewrite V1, V2; split; do 2 f_equal; cell_value; ring.
Qed.

(** X25.  The second cell of exercise a, the rule for products and
    quotients: where [x] and [y] are not zero, the squares of the
    relative uncertainties displayed for [x*y] and for [x/y] are
    [(sigma_x/x)^2 + (sigma_y/y)^2 + 2 rho (sigma_x/x) (sigma_y/y)] and
    [(sigma_x/x)^2 + (sigma_y/y)^2 - 2 rho (sigma_x/x) (sigma_y/y)]. *)
Theorem product_and_quotient (r : renv) :
  r "x"%string <> 0 -> r "y"%string <> 0 ->
  exists e3 e4 : expr,
    error_prop_corr simplify z_3 ["x"; "y"]%string C_xy = Some e3
    /\ error_prop_corr simplify z_4 ["x"; "y"]%string C_xy = Some e4
    /\ eval (inj r) (Pow (Mul e3 (Pow z_3 (-1))) 2)
       = RtoC ((r "sigma_x" / r "x") ^ 2 + (r "sigma_y" / r "y") ^ 2
               + 2 * r "rho" * (r "sigma_x" / r "x")
                 * (r "sigma_y" / r "y"))%string
    /\ eval (inj r) (Pow (Mul e4 (Pow z_4 (-1))) 2)
       = RtoC ((r "sigma_x" / r "x") ^ 2 + (r "sigma_y" / r "y") ^ 2
               - 2 * r "rho" * (r "sigma_x" / r "x")
                 * (r "sigma_y" / r "y"))%string.
Proof.
  intros Hx Hy.
  assert (R3 : regular r z_3) by (repeat split).
  assert (R4 : regular r z_4).
  { split; [exact I|]; split; [exact I | intros _; exact Hy]. }
  destruct (cov2_value z_3 "x" "y" sig_x sig_y rho r R3 I I I) as (e3 & E3 & V3).
  destruct (cov2_value z_4 "x" "y" sig_x sig_y rho r R4 I I I) as (e4 & E4 & V4).
  exists e3, e4; split; [exact E3|]; split; [exact E4|].
  split.
  - assert (N3 : reval r z_3 <> 0).
    { cbn [z_3 x y reval].
      apply Rmult_integral_contrapositive_currified; assumption. }
    rewrite (relative_square r e3 z_3 _ (regular_rdefined r z_3 R3) N3 V3).
    f_equal; cell_value; field; split; assumption.
  - assert (N4 : reval r z_4 <> 0).
    { cbn [z_4 x y reval powerRZ]; cbv [Pos.to_nat Pos.iter_op]; cbn [pow].
      apply Rmult_integral_contrapositive_currified; [exact Hx|].
      apply Rinv_neq_0_compat; rewrite Rmult_1_r; exact Hy. }
    rewrite (relative_square r e4 z_4 _ (regular_rdefined r z_4 R4) N4 V4).
    f_equal; cell_value; field; split; assumption.
Qed.

(** X26.  The pendulum of exercise a: for a positive length, period
    and uncertainties and a correlation between [-1] and [1], the
    result of [error_prop_corr] for [g = 4 pi^2 L / T^2] has the value
    that the notebook displays,
    [4 pi^2 sqrt(4 L^2 sigma_T^2 - 4 L T rho sigma_L sigma_T + T^2 sigma_L^2) / T^3],
    the number under this square root being non-negative. *)
Theorem pendulum_uncertainty (r : renv) :
  0 < r "L"%string -> 0 < r "T"%string ->
  0 < r "sigma_L"%string -> 0 < r "sigma_T"%string ->
  -1 <= r "rho"%string <= 1 ->
  exists (e : expr) (q : R),
    error_prop_corr simplify g ["L"; "T"]%string C_LT = Some e
    /\ q = (4 * r "L" ^ 2 * r "sigma_T" ^ 2
            - 4 * r "L" * r "T" * r "rho" * r "sigma_L" * r "sigma_T"
            + r "T" ^ 2 * r "sigma_L" ^ 2)%string
    /\ 0 <= q
    /\ eval (inj r) e = RtoC (4 * PI ^ 2 * sqrt q / r "T"%string ^ 3).
Proof.
  intros HL HT HsL HsT Hrho.
  set (l := r "L"%string) in *; set (t := r "T"%string) in *.
  set (sl := r "sigma_L"%string) in *; set (st := r "sigma_T"%string) in *.
  set (rh := r "rho"%string) in *.
  assert (Rg : regular r g).
  { repeat split; try (intros; lia).
    intros _; change (t <> 0); lra. }
  destruct (cov2_value g "L" "T" sig_L sig_T rho r Rg I I I) as (e & E & Ve).
  exists e; eexists; split; [exact E|]; split; [reflexivity|].
  set (q := 4 * l ^ 2 * st ^ 2 - 4 * l * t * rh * sl * st + t ^ 2 * sl ^ 2).
  assert (Hq : 0 <= q).
  { assert (Hid : q = (2 * l * st - t * sl) ^ 2
                      + 4 * (l * t) * (sl * st) * (1 - rh))
      by (unfold q; ring).
    rewrite Hid.
    pose proof (pow2_ge_0 (2 * l * st - t * sl)).
    assert (0 < l * t) by (apply Rmult_lt_0_compat; assumption).
    assert (0 < sl * st) by (apply Rmult_lt_0_compat; assumption).
    assert (0 <= 4 * (l * t) * (sl * st) * (1 - rh)).
    { apply Rmult_le_pos; [|lra].
      apply Rmult_le_pos; [|lra].
      apply Rmult_le_pos; lra. }
    lra. }
  split; [exact Hq|].
  rewrite Ve.
  assert (Hc : 0 < 4 * PI ^ 2 / t ^ 3).
  { apply Rdiv_lt_0_compat; [|apply pow_lt, HT].
    pose proof (pow_lt PI 2 PI_RGT_0); lra. }
  replace (4 * PI ^ 2 * sqrt q / t ^ 3)
    with (sqrt ((4 * PI ^ 2 / t ^ 3) ^ 2 * q)).
  - rewrite <- Csqrt_RtoC_nonneg.
    + do 2 f_equal; cell_value.
      fold l t sl st rh; unfold q; field; lra.
    + apply Rmult_le_pos; [apply pow2_ge_0 | exact Hq].
  - rewrite sqrt_mult by (apply pow2_ge_0 || exact Hq).
    rewrite sqrt_pow2 by lra.
    field; lra.
Qed.

End ExerciseA.

(** *** The theorems at the cells of the notebook *)

Lemma z_1_regular (r : renv) : regular r z_1.
Proof. split; exact I. Qed.

Lemma xy_vars_rdefined (r : renv) :
  Forall (fun xs => rdefined r (snd xs)) [("x", sig_x); ("y", sig_y)]%string.
Proof. repeat (apply Forall_cons; [exact I|]); apply Forall_nil. Qed.

Lemma position_off_axis : 0 < position "x"%string \/ position "y"%string <> 0.
Proof. left; cbn; lra. Qed.

(** [C_hr] with a third row and a third column. *)
Lemma error_prop_corr_leading_block_witness :
  (forall i j, (i < length ["h"; "r"]%string)%nat ->
               (j < length ["h"; "r"]%string)%nat ->
               entry C_hr i j
               = entry (map (fun row => row ++ [Int 7]) C_hr ++ [[Int 1]]) i j)
  /\ error_prop_corr simplify_basic V ["h"; "r"]%string C_hr
     = error_prop_corr simplify_basic V ["h"; "r"]%string
         (map (fun row => row ++ [Int 7]) C_hr ++ [[Int 1]]).
Proof.
  assert (H : forall i j, (i < length ["h"; "r"]%string)%nat ->
                          (j < length ["h"; "r"]%string)%nat ->
                          entry C_hr i j
                          = entry (map (fun row => row ++ [Int 7]) C_hr ++ [[Int 1]]) i j).
  { intros i j Hi Hj; cbn [length] in Hi, Hj.
    destruct i as [|[|i]]; [| |lia]; (destruct j as [|[|j]]; [| |lia]);
      reflexivity. }
  exact (conj H (error_prop_corr_leading_block simplify_basic V ["h"; "r"]%string
                   C_hr _ H)).
Defined.

Lemma no_variables_witness :
  sound_simplifier simplify_basic
  /\ eval (inj measured) (error_prop simplify_basic V []) = C0
  /\ exists e : expr,
       error_prop_corr simplify_basic V [] C_hr = Some e
       /\ eval (inj measured) e = C0.
Proof.
  pose proof simplify_basic_sound as H1.
  exact (conj H1 (no_variables simplify_basic H1 V C_hr (inj measured))).
Defined.

(** The volume of the cylinder does not depend on [x]. *)
Lemma absent_variable_witness :
  sound_simplifier simplify_basic
  /\ occurs "x"%string V = false
  /\ well_posed (inj measured)
       (Uncorrelated V ([("h"%string, sig_h)] ++ ("x"%string, sig_x) :: [("r"%string, sig_r)]))
  /\ eval (inj measured)
       (error_prop simplify_basic V
          ([("h"%string, sig_h)] ++ ("x"%string, sig_x) :: [("r"%string, sig_r)]))
     = eval (inj measured)
         (error_prop simplify_basic V ([("h"%string, sig_h)] ++ [("r"%string, sig_r)])).
Proof.
  pose proof simplify_basic_sound as H1.
  assert (H2 : occurs "x"%string V = false) by reflexivity.
  assert (H3 : well_posed (inj measured)
                 (Uncorrelated V
                    ([("h"%string, sig_h)] ++ ("x"%string, sig_x) :: [("r"%string, sig_r)]))).
  { apply regular_well_posed; [apply cylinder_regular|].
    repeat (apply Forall_cons; [exact I|]); apply Forall_nil. }
  exact (conj H1 (conj H2 (conj H3
           (absent_variable simplify_basic H1 V [("h", sig_h)]%string
              [("r", sig_r)]%string "x"%string sig_x (inj measured) H2 H3)))).
Defined.

Lemma order_of_variables_witness :
  sound_simplifier simplify_basic
  /\ Permutation cylinder_vars [("r", sig_r); ("h", sig_h)]%string
  /\ well_posed (inj measured) (Uncorrelated V cylinder_vars)
  /\ eval (inj measured) (error_prop simplify_basic V cylinder_vars)
     = eval (inj measured)
         (error_prop simplify_basic V [("r", sig_r); ("h", sig_h)]%string).
Proof.
  pose proof simplify_basic_sound as H1.
  assert (H2 : Permutation cylinder_vars [("r", sig_r); ("h", sig_h)]%string)
    by apply perm_swap.
  pose proof (regular_well_posed measured V cylinder_vars
                (cylinder_regular measured) (cylinder_vars_rdefined measured))
    as H3.
  exact (conj H1 (conj H2 (conj H3
           (order_of_variables simplify_basic H1 V cylinder_vars _
              (inj measured) H2 H3)))).
Defined.

(** The volume of the cylinder and the sum [x + y]. *)
Lemma sum_in_quadrature_witness :
  sound_simplifier simplify_basic
  /\ independent_of z_1 cylinder_vars
  /\ independent_of V [("x", sig_x); ("y", sig_y)]%string
  /\ well_posed (inj measured)
       (Uncorrelated (Add V z_1)
          (cylinder_vars ++ [("x", sig_x); ("y", sig_y)]%string))
  /\ eval (inj measured)
       (Pow (error_prop simplify_basic (Add V z_1)
               (cylinder_vars ++ [("x", sig_x); ("y", sig_y)]%string)) 2)
     = Cadd (eval (inj measured) (Pow (error_prop simplify_basic V cylinder_vars) 2))
            (eval (inj measured)
               (Pow (error_prop simplify_basic z_1
                       [("x", sig_x); ("y", sig_y)]%string) 2)).
Proof.
  pose proof simplify_basic_sound as H1.
  assert (H2 : independent_of z_1 cylinder_vars).
  { repeat (apply Forall_cons; [reflexivity|]); apply Forall_nil. }
  assert (H3 : independent_of V [("x", sig_x); ("y", sig_y)]%string).
  { repeat (apply Forall_cons; [reflexivity|]); apply Forall_nil. }
  assert (H4 : well_posed (inj measured)
                 (Uncorrelated (Add V z_1)
                    (cylinder_vars ++ [("x", sig_x); ("y", sig_y)]%string))).
  { apply regular_well_posed.
    - split; [apply cylinder_regular | apply z_1_regular].
    - apply Forall_app; split;
        [apply cylinder_vars_rdefined | apply xy_vars_rdefined]. }
  exact (conj H1 (conj H2 (conj H3 (conj H4
           (sum_in_quadrature simplify_basic H1 V z_1 cylinder_vars _
              (inj measured) H2 H3 H4))))).
Defined.

(** Twice the volume of the cylinder. *)
Lemma scaled_formula_witness :
  sound_simplifier simplify_basic
  /\ regular measured V
  /\ Forall (fun xs => rdefined measured (snd xs)) cylinder_vars
  /\ eval (inj measured) (error_prop simplify_basic (Mul (Num 2) V) cylinder_vars)
     = Cmul (RtoC (Rabs (Q2R 2)))
            (eval (inj measured) (error_prop simplify_basic V cylinder_vars)).
Proof.
  pose proof simplify_basic_sound as H1.
  pose proof (cylinder_regular measured) as H2.
  pose proof (cylinder_vars_rdefined measured) as H3.
  exact (conj H1 (conj H2 (conj H3
           (scaled_formula simplify_basic H1 2 V cylinder_vars measured H2 H3)))).
Defined.

Lemma two_variables_witness :
  sound_simplifier simplify_basic
  /\ defined (inj measured) (diff V "h"%string)
  /\ defined (inj measured) (diff V "r"%string)
  /\ defined (inj measured) sig_h
  /\ defined (inj measured) sig_r
  /\ defined (inj measured) rho
  /\ exists e : expr,
       error_prop_corr simplify_basic V ["h"; "r"]%string (cov2 sig_h sig_r rho)
       = Some e
       /\ eval (inj measured) (Pow e 2)
          = Cadd (eval (inj measured)
                    (Pow (error_prop simplify_basic V
                            [("h", sig_h); ("r", sig_r)]%string) 2))
                 (Cmul (Cadd C1 C1)
                    (Cmul (Cmul (eval (inj measured) (diff V "h"%string))
                                (eval (inj measured) (diff V "r"%string)))
                          (Cmul (eval (inj measured) rho)
                                (Cmul (eval (inj measured) sig_h)
                                      (eval (inj measured) sig_r))))).
Proof.
  pose proof simplify_basic_sound as H1.
  pose proof (rdefined_defined measured _
                (regular_diff measured "h"%string V (cylinder_regular measured))) as H2.
  pose proof (rdefined_defined measured _
                (regular_diff measured "r"%string V (cylinder_regular measured))) as H3.
  exact (conj H1 (conj H2 (conj H3 (conj I (conj I (conj I
           (two_variables simplify_basic H1 V "h"%string "r"%string
              sig_h sig_r rho (inj measured) H2 H3 I I I))))))).
Defined.

Lemma transposed_covariance_witness :
  sound_simplifier simplify_basic
  /\ is_matrix (length ["h"; "r"]%string) (length ["h"; "r"]%string) C_hr
  /\ inputs_defined (inj measured) [V] ["h"; "r"]%string C_hr
  /\ exists e e' : expr,
       error_prop_corr simplify_basic V ["h"; "r"]%string C_hr = Some e
       /\ error_prop_corr simplify_basic V ["h"; "r"]%string (transpose C_hr)
          = Some e'
       /\ eval (inj measured) e = eval (inj measured) e'.
Proof.
  pose proof simplify_basic_sound as H1.
  pose proof C_hr_matrix as H2.
  pose proof (inputs_regular_defined measured [V] ["h"; "r"]%string
                C_hr (cylinder_inputs_regular measured)) as H3.
  exact (conj H1 (conj H2 (conj H3
           (transposed_covariance simplify_basic H1 V ["h"; "r"]%string C_hr
              (inj measured) H2 H3)))).
Defined.

(** The variance of the angle of exercise c. *)
Lemma diagonal_entries_witness :
  sound_simplifier simplify_basic
  /\ v_old <> []
  /\ is_matrix (length v_old) (length v_old) C_xy
  /\ inputs_defined (inj position) f_new v_old C_xy
  /\ (1 < length f_new)%nat
  /\ exists (U : Matrix) (s : expr),
       congruence_trafo simplify_basic f_new v_old C_xy = Some U
       /\ error_prop_corr simplify_basic (nth 1 f_new (Int 0)) v_old C_xy = Some s
       /\ eval (inj position) (get U 1 1) = eval (inj position) (Pow s 2).
Proof.
  pose proof simplify_basic_sound as H1.
  assert (H2 : v_old <> []) by discriminate.
  pose proof C_xy_matrix as H3.
  pose proof (inputs_regular_defined position f_new v_old C_xy
                f_new_inputs_regular) as H4.
  assert (H5 : (1 < length f_new)%nat) by (cbn; lia).
  exact (conj H1 (conj H2 (conj H3 (conj H4 (conj H5
           (diagonal_entries simplify_basic H1 f_new v_old C_xy (inj position) 1
              H2 H3 H4 H5)))))).
Defined.

Lemma identity_transformation_witness :
  sound_simplifier simplify_basic
  /\ v_old <> []
  /\ NoDup v_old
  /\ is_matrix (length v_old) (length v_old) C_xy
  /\ Forall (Forall (defined (inj position))) C_xy
  /\ exists U : Matrix,
       congruence_trafo simplify_basic (map Sym v_old) v_old C_xy = Some U
       /\ forall i k, (i < length v_old)%nat -> (k < length v_old)%nat ->
            eval (inj position) (get U i k) = eval (inj position) (get C_xy i k).
Proof.
  pose proof simplify_basic_sound as H1.
  assert (H2 : v_old <> []) by discriminate.
  assert (H3 : NoDup v_old).
  { apply NoDup_cons; [|apply NoDup_cons; [|apply NoDup_nil]].
    - intros [E|[]]; discriminate E.
    - intros []. }
  pose proof C_xy_matrix as H4.
  pose proof (proj2 (inputs_regular_defined position f_new v_old C_xy
                       f_new_inputs_regular)) as H5.
  exact (conj H1 (conj H2 (conj H3 (conj H4 (conj H5
           (identity_transformation simplify_basic H1 v_old C_xy (inj position)
              H2 H3 H4 H5)))))).
Defined.

Lemma C_xy_semidefinite (w : nat -> R) :
  0 <= quadratic_form (length v_old) w (matrix_at position C_xy).
Proof.
  unfold quadratic_form, matrix_at, pairs; cbn.
  pose proof (pow2_ge_0 (w 0%nat)); pose proof (pow2_ge_0 (w 1%nat)).
  cbv [Pos.to_nat Pos.iter_op Init.Nat.add]; cbn [pow] in *; lra.
Qed.

Lemma semidefinite_preserved_witness :
  sound_simplifier simplify_basic
  /\ f_new <> [] /\ v_old <> []
  /\ is_matrix (length v_old) (length v_old) C_xy
  /\ inputs_regular position f_new C_xy
  /\ (forall w : nat -> R,
        0 <= quadratic_form (length v_old) w (matrix_at position C_xy))
  /\ exists (U : Matrix) (Ur : Rmatrix),
       congruence_trafo simplify_basic f_new v_old C_xy = Some U
       /\ (forall i k, (i < length f_new)%nat -> (k < length f_new)%nat ->
             eval (inj position) (get U i k) = RtoC (Ur i k))
       /\ forall u : nat -> R, 0 <= quadratic_form (length f_new) u Ur.
Proof.
  pose proof simplify_basic_sound as H1.
  assert (H2 : f_new <> []) by discriminate.
  assert (H3 : v_old <> []) by discriminate.
  pose proof C_xy_matrix as H4.
  pose proof f_new_inputs_regular as H5.
  pose proof C_xy_semidefinite as H6.
  exact (conj H1 (conj H2 (conj H3 (conj H4 (conj H5 (conj H6
           (semidefinite_preserved simplify_basic H1 f_new v_old C_xy position
              H2 H3 H4 H5 H6))))))).
Defined.

Lemma polar_covariance_witness :
  sound_simplifier simplify_basic
  /\ (0 < position "x"%string \/ position "y"%string <> 0)
  /\ exists U : Matrix,
       congruence_trafo simplify_basic f_new v_old C_xy = Some U
       /\ forall i k, (i < 2)%nat -> (k < 2)%nat ->
            eval (inj position) (get U i k)
            = RtoC (U_polar (position "x"%string) (position "y"%string)
                            (position "sigma_x"%string)
                            (position "sigma_y"%string)
                            (position "rho"%string) i k).
Proof.
  pose proof simplify_basic_sound as H1.
  pose proof position_off_axis as H2.
  exact (conj H1 (conj H2 (polar_covariance simplify_basic H1 position H2))).
Defined.

Lemma polar_off_diagonal_witness :
  sound_simplifier simplify_basic
  /\ (0 < position "x"%string \/ position "y"%string <> 0)
  /\ exists (U : Matrix) (o : R),
       congruence_trafo simplify_basic f_new v_old V_uncorrelated = Some U
       /\ eval (inj position) (get U 0 1) = RtoC o
       /\ eval (inj position) (get U 1 0) = RtoC o
       /\ o = (position "x" * position "y"
               * (position "sigma_y" ^ 2 - position "sigma_x" ^ 2)
               / ((position "x" ^ 2 + position "y" ^ 2)
                  * sqrt (position "x" ^ 2 + position "y" ^ 2)))%string
       /\ (o = 0 <->
           position "x"%string = 0 \/ position "y"%string = 0
           \/ position "sigma_x"%string ^ 2 = position "sigma_y"%string ^ 2).
Proof.
  pose proof simplify_basic_sound as H1.
  pose proof position_off_axis as H2.
  exact (conj H1 (conj H2 (polar_off_diagonal simplify_basic H1 position H2))).
Defined.

Lemma sum_and_difference_witness :
  sound_simplifier simplify_basic
  /\ exists e1 e2 : expr,
       error_prop_corr simplify_basic z_1 ["x"; "y"]%string C_xy = Some e1
       /\ error_prop_corr simplify_basic z_2 ["x"; "y"]%string C_xy = Some e2
       /\ eval (inj position) e1
          = Csqrt (RtoC (position "sigma_x"%string ^ 2
                         + position "sigma_y"%string ^ 2
                         + 2 * position "rho"%string
                           * position "sigma_x"%string
                           * position "sigma_y"%string))
       /\ eval (inj position) e2
          = Csqrt (RtoC (position "sigma_x"%string ^ 2
                         + position "sigma_y"%string ^ 2
                         - 2 * position "rho"%string
                           * position "sigma_x"%string
                           * position "sigma_y"%string)).
Proof.
  pose proof simplify_basic_sound as H1.
  exact (conj H1 (sum_and_difference simplify_basic H1 position)).
Defined.

Lemma product_and_quotient_witness :
  sound_simplifier simplify_basic
  /\ position "x"%string <> 0
  /\ position "y"%string <> 0
  /\ exists e3 e4 : expr,
       error_prop_corr simplify_basic z_3 ["x"; "y"]%string C_xy = Some e3
       /\ error_prop_corr simplify_basic z_4 ["x"; "y"]%string C_xy = Some e4
       /\ eval (inj position) (Pow (Mul e3 (Pow z_3 (-1))) 2)
          = RtoC ((position "sigma_x" / position "x") ^ 2
                  + (position "sigma_y" / position "y") ^ 2
                  + 2 * position "rho" * (position "sigma_x" / position "x")
                    * (position "sigma_y" / position "y"))%string
       /\ eval (inj position) (Pow (Mul e4 (Pow z_4 (-1))) 2)
          = RtoC ((position "sigma_x" / position "x") ^ 2
                  + (position "sigma_y" / position "y") ^ 2
                  - 2 * position "rho" * (position "sigma_x" / position "x")
                    * (position "sigma_y" / position "y"))%string.
Proof.
  pose proof simplify_basic_sound as H1.
  assert (H2 : position "x"%string <> 0) by (cbn; lra).
  assert (H3 : position "y"%string <> 0) by (cbn; lra).
  exact (conj H1 (conj H2 (conj H3
           (product_and_quotient simplify_basic H1 position H2 H3)))).
Defined.

Lemma pendulum_uncertainty_witness :
  sound_simplifier simplify_basic
  /\ 0 < pendulum "L"%string
  /\ 0 < pendulum "T"%string
  /\ 0 < pendulum "sigma_L"%string
  /\ 0 < pendulum "sigma_T"%string
  /\ -1 <= pendulum "rho"%string <= 1
  /\ exists (e : expr) (q : R),
       error_prop_corr simplify_basic g ["L"; "T"]%string C_LT = Some e
       /\ q = (4 * pendulum "L" ^ 2 * pendulum "sigma_T" ^ 2
               - 4 * pendulum "L" * pendulum "T" * pendulum "rho"
                 * pendulum "sigma_L" * pendulum "sigma_T"
               + pendulum "T" ^ 2 * pendulum "sigma_L" ^ 2)%string
       /\ 0 <= q
       /\ eval (inj pendulum) e
          = RtoC (4 * PI ^ 2 * sqrt q / pendulum "T"%string ^ 3).
Proof.
  pose proof simplify_basic_sound as H1.
  assert (H2 : 0 < pendulum "L"%string) by (cbn; lra).
  assert (H3 : 0 < pendulum "T"%string) by (cbn; lra).
  assert (H4 : 0 < pendulum "sigma_L"%string) by (cbn; lra).
  assert (H5 : 0 < pendulum "sigma_T"%string) by (cbn; lra).
  assert (H6 : -1 <= pendulum "rho"%string <= 1) by (cbn; lra).
  exact (conj H1 (conj H2 (conj H3 (conj H4 (conj H5 (conj H6
           (pendulum_uncertainty simplify_basic H1 pendulum
              H2 H3 H4 H5 H6))))))).
Defined.

End ErrorPropMore.

(** ** Facts on the phase of the driven oscillator *)

Module OscillatorFacts.
Import ListFacts ErrorProp Oscillator.

(** *** The thresholds *)

Lemma thresholds :
  0 < underflow_threshold < smallest_normal
  /\ smallest_normal < / 1000000000000000000000000000000
  /\ 1000000000000000000000000000000 < overflow_threshold.
Proof.
  unfold underflow_threshold, smallest_normal, overflow_threshold.
  assert (H1 : 1000000000000000000000000000000 < IZR (2 ^ 1022))
    by (apply IZR_lt; vm_compute; reflexivity).
  assert (H2 : IZR (2 ^ 1022) < IZR (2 ^ 1075))
    by (apply IZR_lt; vm_compute; reflexivity).
  split; [split|split].
  - apply Rinv_0_lt_compat; lra.
  - apply Rinv_lt_contravar; [apply Rmult_lt_0_compat; lra | exact H2].
  - apply Rinv_lt_contravar; [apply Rmult_lt_0_compat; lra | exact H1].
  - apply IZR_lt; vm_compute; reflexivity.
Qed.

(** *** Exceptions and conversions *)

Lemma bind_Some {X Y : Type} (m : option X) (k : X -> option Y) (y : Y) :
  bind m k = Some y -> exists a, m = Some a /\ k a = Some y.
Proof. destruct m as [a|]; cbn; [eauto | discriminate]. Qed.

Lemma float_of_int_Some (z : Z) (f : float64) :
  float_of_int z = Some f ->
  f = Number (IZR z) /\ (Z.abs z < 2 ^ 1024 - 2 ^ 970)%Z.
Proof.
  unfold float_of_int.
  destruct (Z.ltb_spec (Z.abs z) (2 ^ 1024 - 2 ^ 970)) as [H|H]; [|discriminate].
  intros [= <-]; split; [reflexivity | exact H].
Qed.

(** *** Rounding *)

Lemma round_exact (r : R) : exact r -> round r = Number r.
Proof.
  pose proof thresholds as [[Hu0 Hu1] [Hu Ho]].
  unfold round; intros [->|[H1 H2]].
  - rewrite Rabs_R0.
    destruct (Rle_dec overflow_threshold 0); [lra|].
    destruct (Rle_dec 0 underflow_threshold); [reflexivity | lra].
  - destruct (Rle_dec overflow_threshold (Rabs r)); [lra|].
    destruct (Rle_dec (Rabs r) underflow_threshold); [lra | reflexivity].
Qed.

Lemma round_sum_finite (r : R) :
  Rabs r < overflow_threshold -> round_sum r = Number r.
Proof.
  intros H; unfold round_sum.
  destruct (Rle_dec overflow_threshold (Rabs r)); [lra | reflexivity].
Qed.

Lemma round_finite (r : R) :
  Rabs r < overflow_threshold -> exists r', round r = Number r'.
Proof.
  intros H; unfold round.
  destruct (Rle_dec overflow_threshold (Rabs r)); [lra|].
  destruct (Rle_dec (Rabs r) underflow_threshold); eexists; reflexivity.
Qed.

Lemma round_not_nan (r : R) : round r <> NaN.
Proof.
  unfold round, infinity.
  destruct (Rle_dec overflow_threshold (Rabs r)).
  - destruct (is_positive r); discriminate.
  - destruct (Rle_dec (Rabs r) underflow_threshold); discriminate.
Qed.

Lemma round_sum_not_nan (r : R) : round_sum r <> NaN.
Proof.
  unfold round_sum, infinity.
  destruct (Rle_dec overflow_threshold (Rabs r)); [|discriminate].
  destruct (is_positive r); discriminate.
Qed.

Lemma round_overflow (r : R) :
  overflow_threshold <= r -> round r = PosInf.
Proof.
  pose proof thresholds as [_ [_ Ho]].
  intros H; unfold round, infinity, is_positive.
  rewrite (Rabs_pos_eq r) by lra.
  destruct (Rle_dec overflow_threshold r); [|lra].
  destruct (Rlt_dec 0 r); [reflexivity | lra].
Qed.

Lemma round_overflow_neg (r : R) :
  r <= - overflow_threshold -> round r = NegInf.
Proof.
  pose proof thresholds as [_ [_ Ho]].
  intros H; unfold round, infinity, is_positive.
  rewrite (Rabs_left r) by lra.
  destruct (Rle_dec overflow_threshold (- r)); [|lra].
  destruct (Rlt_dec 0 r); [lra | reflexivity].
Qed.

(** An integer is exact as long as it does not overflow. *)
Lemma exact_IZR (z : Z) :
  (Z.abs z < 2 ^ 1024 - 2 ^ 970)%Z -> exact (IZR z).
Proof.
  intros H; unfold exact.
  destruct (Z.eq_dec z 0) as [->|Hz]; [left; reflexivity | right].
  pose proof thresholds as [_ [Hu _]].
  rewrite <- abs_IZR; split.
  - assert (1 <= IZR (Z.abs z)) by (apply IZR_le; lia); lra.
  - apply IZR_lt, H.
Qed.

(** *** The branch correction *)

Lemma lower_branch_number (t : float64) :
  t <> NaN -> in_lower_half (lower_branch (arctan t)).
Proof.
  pose proof thresholds as [_ [_ Ho]].
  pose proof PI_RGT_0 as Hpi.
  pose proof PI_4 as Hpi4.
  assert (Hcase : forall a, - (PI / 2) <= a <= PI / 2 ->
                  in_lower_half (lower_branch (Number a))).
  { intros a Ha.
    unfold lower_branch, greater_0, is_positive, np_pi, fsub, fneg, fadd.
    destruct (Rlt_dec 0 a) as [Hp|Hp].
    - rewrite round_sum_finite.
      + exists (a + - PI); split; [reflexivity | lra].
      + apply Rabs_def1; lra.
    - exists a; split; [reflexivity | lra]. }
  destruct t as [x| | |]; cbn [arctan]; intros Ht.
  - apply Hcase; pose proof (atan_bound x); lra.
  - apply Hcase; lra.
  - apply Hcase; lra.
  - contradiction.
Qed.

Lemma lower_branch_arctan (t : float64) :
  lower_branch (arctan t) = NaN \/ in_lower_half (lower_branch (arctan t)).
Proof.
  destruct t as [x| | |];
    try (right; apply lower_branch_number; discriminate).
  left; reflexivity.
Qed.

(** *** Results that are not [nan] *)

Lemma round_small (r : R) :
  Rabs r < overflow_threshold -> round r = Number r \/ round r = Number 0.
Proof.
  intros H; unfold round.
  destruct (Rle_dec overflow_threshold (Rabs r)); [lra|].
  destruct (Rle_dec (Rabs r) underflow_threshold); auto.
Qed.

Lemma fsub_number_not_nan (s : R) (q : float64) :
  q <> NaN -> fsub (Number s) q <> NaN.
Proof.
  destruct q as [y| | |]; cbn; intros H; try discriminate.
  - apply round_sum_not_nan.
  - contradiction.
Qed.

Lemma divide_entry_not_nan (x : R) (dn : float64) :
  dn <> NaN -> divide_entry (Number x) dn <> NaN.
Proof.
  unfold divide_entry, nonzero, fdiv; intros H.
  destruct dn as [y| | |]; try discriminate.
  - destruct (Req_dec_T y 0); [discriminate | apply round_not_nan].
  - contradiction.
Qed.

Lemma py_float_value (s : pynum) (f : float64) (b : R) :
  py_float s = Some f -> py_value s = Some b -> f = Number b.
Proof.
  destruct s as [z|[y| | |]]; cbn; intros H1 H2; try discriminate.
  - apply float_of_int_Some in H1; destruct H1 as [-> _].
    injection H2 as <-; reflexivity.
  - injection H1 as <-; injection H2 as <-; reflexivity.
Qed.

(** The square of a finite parameter is an [int] or a finite float. *)
Lemma py_square_value (s square : pynum) (w0 : R) :
  py_square s = Some square -> py_value s = Some w0 ->
  (exists n, s = PyInt n /\ square = PyInt (n * n) /\ w0 = IZR n)
  \/ (s = PyFloat (Number w0)
      /\ exists y, square = PyFloat (Number y) /\ round (w0 * w0) = Number y).
Proof.
  destruct s as [z|[y| | |]]; cbn; intros H1 H2; try discriminate.
  - left; injection H1 as <-; injection H2 as <-; eauto.
  - right; injection H2 as <-; split; [reflexivity|].
    destruct (round (y * y)) as [q| | |] eqn:E; try discriminate.
    + injection H1 as <-; eauto.
    + destruct (round_not_nan _ E).
Qed.

(** *** The steps of [phase] *)

(** Operands of floats are the entries of the array and the number. *)
Lemma promote_float (v : promotion) (s : pynum) (a : ndarray) c l :
  promote v s a = Some (FloatOperands c l) ->
  l = as_float64 a
  /\ (s = PyFloat c \/ exists n, s = PyInt n /\ c = Number (IZR n)
                                 /\ (Z.abs n < 2 ^ 1024 - 2 ^ 970)%Z).
Proof.
  assert (Hsmall : forall n, in_int64 n || in_uint64 n = true ->
                             (Z.abs n < 2 ^ 1024 - 2 ^ 970)%Z).
  { intros n H; unfold in_int64, in_uint64 in H.
    assert (Z.abs n <= 2 ^ 64)%Z by lia.
    assert (2 ^ 64 < 2 ^ 1024 - 2 ^ 970)%Z by (vm_compute; reflexivity).
    lia. }
  unfold promote; destruct s as [n|f].
  - destruct a as [l'|d l'].
    + destruct v.
      * destruct (in_int64 n || in_uint64 n) eqn:E; [|discriminate].
        intros [= <- <-]; split; [reflexivity | right; eauto].
      * destruct (float_of_int n) as [c'|] eqn:E; [|discriminate].
        cbn [bind ret]; intros [= <- <-].
        apply float_of_int_Some in E; destruct E as [-> E].
        split; [reflexivity | right; eauto].
    + destruct (fits d n); [discriminate|].
      destruct v; [|discriminate].
      destruct (in_int64 n || in_uint64 n) eqn:E; [|discriminate].
      intros [= <- <-]; split; [reflexivity | right; eauto].
  - intros [= <- <-]; split; [reflexivity | left; reflexivity].
Qed.

(** Operands of integers come from an array of integers and an [int]
    that fits its type. *)
Lemma promote_int (v : promotion) (s : pynum) (a : ndarray) d n l :
  promote v s a = Some (IntOperands d n l) ->
  s = PyInt n /\ a = IntArray d l /\ fits d n = true.
Proof.
  unfold promote; destruct s as [m|f]; [|discriminate].
  destruct a as [l'|d' l'].
  - destruct v; [destruct (in_int64 m || in_uint64 m); discriminate|].
    destruct (float_of_int m); discriminate.
  - destruct (fits d' m) eqn:E.
    + intros [= <- <- <-]; auto.
    + destruct v; [|discriminate].
      destruct (in_int64 m || in_uint64 m); discriminate.
Qed.

Lemma divide_map {X : Type} (f g : X -> float64) (l : list X) :
  divide (map f l) (map g l) = map (fun e => divide_entry (f e) (g e)) l.
Proof. unfold divide; rewrite combine_map_same, map_map; reflexivity. Qed.

Lemma nth_error_combine {X Y : Type} (l1 : list X) (l2 : list Y) (i : nat) :
  nth_error (combine l1 l2) i
  = match nth_error l1 i, nth_error l2 i with
    | Some a, Some b => Some (a, b)
    | _, _ => None
    end.
Proof.
  revert l2 i; induction l1 as [|a l1 IH]; intros [|b l2] [|i]; cbn;
    try reflexivity.
  - destruct (nth_error l1 i); reflexivity.
  - apply IH.
Qed.

Lemma length_as_float64_square (a : ndarray) :
  length (as_float64 (array_square a)) = length (as_float64 a).
Proof. destruct a; cbn; rewrite ?length_map; reflexivity. Qed.

Lemma scalar_sub_array_length (v : promotion) (s : pynum) (b den : ndarray) :
  scalar_sub_array v s b = Some den ->
  length (as_float64 den) = length (as_float64 b).
Proof.
  unfold scalar_sub_array; intros H.
  apply bind_Some in H; destruct H as ([d n l|c l] & Hp & [= <-]).
  - apply promote_int in Hp; destruct Hp as (_ & -> & _).
    cbn; rewrite !length_map; reflexivity.
  - apply promote_float in Hp; destruct Hp as (-> & _).
    cbn; rewrite length_map; reflexivity.
Qed.

(** The square of a finite entry. *)
Lemma array_square_entry (a : ndarray) (i : nat) (w : R) :
  nth_error (as_float64 a) i = Some (Number w) ->
  (exists l, a = FloatArray l
             /\ nth_error (as_float64 (array_square a)) i = Some (round (w * w)))
  \/ (exists d l z, a = IntArray d l /\ nth_error l i = Some z /\ w = IZR z
                    /\ nth_error (as_float64 (array_square a)) i
                       = Some (Number (IZR (wrap d (z * z))))).
Proof.
  destruct a as [l|d l]; cbn [as_float64 array_square]; intros H.
  - left; exists l; split; [reflexivity|].
    rewrite nth_error_map, H; reflexivity.
  - right.
    rewrite nth_error_map in H.
    destruct (nth_error l i) as [z|] eqn:E; [|discriminate].
    cbn in H; injection H as <-.
    exists d, l, z; repeat split; try assumption.
    rewrite !nth_error_map, E; reflexivity.
Qed.

(** An entry of the difference [s - b]. *)
Lemma scalar_sub_array_entry (v : promotion) (s : pynum) (b den : ndarray)
    (i : nat) (q : float64) :
  scalar_sub_array v s b = Some den ->
  nth_error (as_float64 b) i = Some q ->
  (exists c0,
      (s = PyFloat c0 \/ exists n, s = PyInt n /\ c0 = Number (IZR n)
                                   /\ (Z.abs n < 2 ^ 1024 - 2 ^ 970)%Z)
      /\ nth_error (as_float64 den) i = Some (fsub c0 q))
  \/ (exists d n l k,
        s = PyInt n /\ b = IntArray d l /\ fits d n = true
        /\ nth_error l i = Some k /\ q = Number (IZR k)
        /\ nth_error (as_float64 den) i = Some (Number (IZR (wrap d (n - k))))).
Proof.
  unfold scalar_sub_array; intros H Hq.
  apply bind_Some in H; destruct H as ([d n l|c l] & Hp & [= <-]).
  - right.
    apply promote_int in Hp; destruct Hp as (-> & -> & Hf).
    cbn [as_float64] in Hq; rewrite nth_error_map in Hq.
    destruct (nth_error l i) as [k|] eqn:E; [|discriminate].
    cbn in Hq; injection Hq as <-.
    exists d, n, l, k; repeat split; try assumption.
    cbn [as_float64]; rewrite !nth_error_map, E; reflexivity.
  - left; exists c.
    apply promote_float in Hp; destruct Hp as (-> & Hs).
    split; [exact Hs|].
    cbn [as_float64]; rewrite nth_error_map, Hq; reflexivity.
Qed.

(** What [phase] computes, step by step. *)
Lemma phase_steps (v : promotion) (omega : pyarg) (omega_0 beta : pynum)
    (phi : list float64) :
  phase v omega omega_0 beta = Some phi <->
  exists a f square den,
    as_array omega = Some a
    /\ py_float beta = Some f
    /\ py_square omega_0 = Some square
    /\ scalar_sub_array v square (array_square a) = Some den
    /\ phi = map (fun nd => lower_branch (arctan (divide_entry (fst nd) (snd nd))))
                 (combine (map (fun e => fmul (fmul (Number (-2)) f) e)
                               (as_float64 a))
                          (as_float64 den)).
Proof.
  unfold phase, py_mul_float, divide; split.
  - intros H.
    apply bind_Some in H; destruct H as (a & Ha & H).
    apply bind_Some in H; destruct H as (c & Hc & H).
    apply bind_Some in Hc; destruct Hc as (f & Hf & [= <-]).
    apply bind_Some in H; destruct H as (square & Hs & H).
    apply bind_Some in H; destruct H as (den & Hd & [= <-]).
    exists a, f, square, den; repeat split; try assumption.
    rewrite !map_map; reflexivity.
  - intros (a & f & square & den & -> & -> & -> & Hd & ->).
    cbn [bind ret]; rewrite Hd; cbn [bind ret].
    rewrite !map_map; reflexivity.
Qed.

(** An entry of the result. *)
Lemma phase_entry (v : promotion) (omega : pyarg) (omega_0 beta : pynum)
    (phi : list float64) :
  phase v omega omega_0 beta = Some phi ->
  exists a f square den,
    as_array omega = Some a
    /\ py_float beta = Some f
    /\ py_square omega_0 = Some square
    /\ scalar_sub_array v square (array_square a) = Some den
    /\ length phi = length (as_float64 a)
    /\ forall i e, nth_error (as_float64 a) i = Some e ->
         exists dn, nth_error (as_float64 den) i = Some dn
                    /\ nth_error phi i
                       = Some (lower_branch
                                 (arctan (divide_entry
                                            (fmul (fmul (Number (-2)) f) e) dn))).
Proof.
  intros H; apply phase_steps in H.
  destruct H as (a & f & square & den & Ha & Hf & Hs & Hd & ->).
  exists a, f, square, den; repeat split; try assumption.
  - pose proof (scalar_sub_array_length _ _ _ _ Hd) as Hl.
    rewrite length_as_float64_square in Hl.
    rewrite length_map, length_combine, length_map, Hl; apply Nat.min_id.
  - intros i e He.
    pose proof (scalar_sub_array_length _ _ _ _ Hd) as Hl.
    rewrite length_as_float64_square in Hl.
    destruct (nth_error (as_float64 den) i) as [dn|] eqn:E.
    + exists dn; split; [reflexivity|].
      rewrite nth_error_map, nth_error_combine, nth_error_map, He, E.
      reflexivity.
    + apply nth_error_None in E.
      assert (nth_error (as_float64 a) i <> None) by (rewrite He; discriminate).
      apply nth_error_Some in H; lia.
Qed.

(** *** The range of the phase *)

(** C9, as the code has it.  Every entry of the array that [phase]
    returns is [nan] or lies in [(-PI, 0]]; it lies in [(-PI, 0]]
    where the entry of [omega], [omega_0] and [beta] are finite and
    neither [-2 * beta] nor [-2 * beta * omega] overflows. *)
Theorem phase_range (v : promotion) (omega : pyarg) (omega_0 beta : pynum)
    (phi : list float64) :
  phase v omega omega_0 beta = Some phi ->
  Forall (fun e => e = NaN \/ in_lower_half e) phi
  /\ forall (a : ndarray) (w0 b : R),
       as_array omega = Some a ->
       py_value omega_0 = Some w0 ->
       py_value beta = Some b ->
       Rabs (2 * b) < overflow_threshold ->
       forall (i : nat) (w : R),
         entry_value a i = Some w ->
         Rabs (2 * b * w) < overflow_threshold ->
         exists e, nth_error phi i = Some e /\ in_lower_half e.
Proof.
  intros H; split.
  - apply phase_steps in H.
    destruct H as (a & f & square & den & _ & _ & _ & _ & ->).
    rewrite Forall_map, Forall_forall; intros nd _.
    apply lower_branch_arctan.
  - intros a w0 b Ha Hw0 Hb Hb2 i w Hi Hnum.
    apply phase_entry in H.
    destruct H as (a' & f & square & den & Ha' & Hf & Hs & Hd & _ & Hent).
    rewrite Ha in Ha'; injection Ha' as <-.
    unfold entry_value in Hi.
    destruct (nth_error (as_float64 a) i) as [[w'| | |]|] eqn:Ei;
      try discriminate.
    injection Hi as ->.
    destruct (Hent i _ Ei) as (dn & Edn & Ephi).
    eexists; split; [exact Ephi|].
    apply lower_branch_number.
    (* the numerator is a number *)
    rewrite (py_float_value _ _ _ Hf Hb).
    assert (Hc : exists c, fmul (Number (-2)) (Number b) = Number c
                           /\ Rabs c <= Rabs (2 * b)).
    { cbn [fmul].
      destruct (round_small (-2 * b)) as [E|E].
      - replace (-2 * b) with (- (2 * b)) by ring; rewrite Rabs_Ropp; exact Hb2.
      - rewrite E; eexists; split; [reflexivity|].
        replace (-2 * b) with (- (2 * b)) by ring; rewrite Rabs_Ropp; lra.
      - rewrite E; eexists; split; [reflexivity|].
        rewrite Rabs_R0; apply Rabs_pos. }
    destruct Hc as (c & -> & Hc).
    assert (Hn : exists n, fmul (Number c) (Number w) = Number n).
    { cbn [fmul]; apply round_finite.
      rewrite Rabs_mult.
      replace (2 * b * w) with ((2 * b) * w) in Hnum by ring.
      rewrite Rabs_mult in Hnum.
      pose proof (Rabs_pos w); pose proof (Rabs_pos c).
      assert (Rabs c * Rabs w <= Rabs (2 * b) * Rabs w)
        by (apply Rmult_le_compat_r; assumption).
      lra. }
    destruct Hn as (n & ->).
    apply divide_entry_not_nan.
    (* the denominator is not nan *)
    destruct (array_square_entry a i w Ei) as [(l & -> & Eq)|(d & l & z & -> & Ez & -> & Eq)].
    + destruct (scalar_sub_array_entry _ _ _ _ i _ Hd Eq)
        as [(c0 & Hc0 & E)|(d & n' & l' & k & _ & Hb' & _)]; [|discriminate].
      rewrite E in Edn; injection Edn as <-.
      destruct (py_square_value _ _ _ Hs Hw0)
        as [(m & _ & -> & _)|(_ & y & -> & _)].
      * destruct Hc0 as [[=]|(m' & [= <-] & -> & _)].
        apply fsub_number_not_nan, round_not_nan.
      * destruct Hc0 as [[= <-]|(m' & [=] & _)].
        apply fsub_number_not_nan, round_not_nan.
    + destruct (scalar_sub_array_entry _ _ _ _ i _ Hd Eq)
        as [(c0 & Hc0 & E)|(d' & n' & l' & k & _ & _ & _ & _ & _ & E)].
      * rewrite E in Edn; injection Edn as <-.
        destruct (py_square_value _ _ _ Hs Hw0)
          as [(m & _ & -> & _)|(_ & y & -> & _)].
        -- destruct Hc0 as [[=]|(m' & [= <-] & -> & _)].
           apply fsub_number_not_nan; discriminate.
        -- destruct Hc0 as [[= <-]|(m' & [=] & _)].
           apply fsub_number_not_nan; discriminate.
      * rewrite E in Edn; injection Edn as <-; discriminate.
Qed.

Lemma huge_facts :
  0 < huge
  /\ round (-2 * huge) = Number (-2 * huge)
  /\ round (-2 * huge * huge) = NegInf
  /\ round (huge * huge) = PosInf.
Proof.
  unfold huge; split; [|split; [|split]].
  - apply IZR_lt; vm_compute; reflexivity.
  - apply round_exact.
    change (-2) with (IZR (-2)); rewrite <- mult_IZR.
    apply exact_IZR; vm_compute; reflexivity.
  - apply round_overflow_neg.
    change (-2) with (IZR (-2)); rewrite <- !mult_IZR.
    unfold overflow_threshold; rewrite <- opp_IZR.
    apply IZR_le; vm_compute; discriminate.
  - apply round_overflow.
    rewrite <- mult_IZR; apply IZR_le; vm_compute; discriminate.
Qed.

(** C9 fails: for the frequency [1e200], [omega_0 = 4] and
    [beta = 1e200] both [-2 * beta * omega] and [omega ** 2] overflow,
    the quotient of the two infinities is [nan], and so is the entry
    that [phase] returns. *)
Lemma phase_overflow_nan :
  0 < huge
  /\ phase ValueBased (NdArray (FloatArray [Number huge])) (PyInt 4)
           (PyFloat (Number huge)) = Some [NaN]
  /\ phase Weak (NdArray (FloatArray [Number huge])) (PyInt 4)
           (PyFloat (Number huge)) = Some [NaN]
  /\ ~ in_lower_half NaN.
Proof.
  destruct huge_facts as (H0 & H1 & H2 & H3).
  split; [exact H0|].
  assert (E : forall v, phase v (NdArray (FloatArray [Number huge])) (PyInt 4)
                          (PyFloat (Number huge)) = Some [NaN]).
  { intros v; apply phase_steps.
    exists (FloatArray [Number huge]), (Number huge), (PyInt 16),
           (FloatArray [NegInf]).
    repeat split.
    - unfold scalar_sub_array, promote.
      cbn [array_square map fmul]; rewrite H3.
      destruct v; reflexivity.
    - cbn [as_float64 map combine fst snd fmul].
      rewrite H1; cbn [fmul]; rewrite H2; reflexivity. }
  split; [apply E|]; split; [apply E|].
  intros (p & Hp & _); discriminate.
Qed.

(** The inputs of the notebook: [omega_0 = 4] and [beta = 0.3]. *)
Lemma phase_range_witness :
  exists phi,
    phase ValueBased (NdArray (FloatArray [Number 3; Number 4; Number 6]))
          (PyInt 4) (PyFloat (Number (3 / 10))) = Some phi
    /\ Forall (fun e => e = NaN \/ in_lower_half e) phi
    /\ forall (i : nat) (w : R),
         entry_value (FloatArray [Number 3; Number 4; Number 6]) i = Some w ->
         Rabs (2 * (3 / 10) * w) < overflow_threshold ->
         exists e, nth_error phi i = Some e /\ in_lower_half e.
Proof.
  assert (H : exists phi,
             phase ValueBased (NdArray (FloatArray [Number 3; Number 4; Number 6]))
                   (PyInt 4) (PyFloat (Number (3 / 10))) = Some phi).
  { eexists; apply phase_steps.
    do 4 eexists; repeat split; reflexivity. }
  destruct H as (phi & H); exists phi; split; [exact H|].
  destruct (phase_range ValueBased _ _ _ _ H) as [H1 H2].
  split; [exact H1|].
  intros i w Hw Hn.
  assert (Hb : Rabs (2 * (3 / 10)) < overflow_threshold).
  { pose proof thresholds as [_ Ho]; apply Rabs_def1; lra. }
  exact (H2 _ 4 (3 / 10) eq_refl eq_refl eq_refl Hb i w Hw Hn).
Defined.

(** *** The resonance *)









End OscillatorFacts.

(** ** Further facts on the oscillator *)

Module OscillatorMore.
Import ListFacts ErrorProp Oscillator OscillatorFacts.

(** *** Results that are computed as they are *)



Lemma py_float_exists (s : pynum) (b : R) :
  py_value s = Some b -> Rabs b < overflow_threshold ->
  py_float s = Some (Number b).
Proof.
  destruct s as [z|[y| | |]]; cbn; intros H Hb; try discriminate.
  - injection H as <-.
    unfold float_of_int.
    rewrite <- abs_IZR in Hb; apply lt_IZR in Hb.
    destruct (Z.ltb_spec (Z.abs z) (2 ^ 1024 - 2 ^ 970)); [reflexivity | lia].
  - injection H as <-; reflexivity.
Qed.


(** *** The free oscillator *)

(** X16.  An overdamped oscillator has no oscillation to show: for a
    finite [omega_0] (a float, or an [int] whose square is a float)
    and a float [beta] with [omega_0^2 < beta^2], where [beta^2] is in
    the range of the normal floats, [x] takes the square root of a
    negative number and returns [nan] for every time, whatever [x0]
    is. *)
Theorem x_overdamped (v : promotion) (t : ndarray) (x0 : float64)
    (omega_0 : pynum) (w0 b : R) :
  py_value omega_0 = Some w0 -> int_square_exact omega_0 ->
  w0 * w0 < b * b ->
  smallest_normal <= b * b < overflow_threshold ->
  x v t (PyFloat x0) omega_0 (PyFloat (Number b))
  = Some (map (fun _ => NaN) (as_float64 t)).
Proof.
  intros Hw0 _ Hlt [Hb1 Hb2].
  assert (Hbe : exact (b * b)).
  { right; rewrite Rabs_pos_eq by nra; split; assumption. }
  assert (Hw : 0 <= w0 * w0 < overflow_threshold) by nra.
  (* the radicand is a negative number *)
  assert (Hd : exists square_0 d,
             py_square omega_0 = Some square_0
             /\ py_sub square_0 (PyFloat (Number (b * b))) = Some (PyFloat (Number d))
             /\ d < 0).
  { destruct omega_0 as [z|[y| | |]]; cbn in Hw0; try discriminate;
      injection Hw0 as <-.
    - exists (PyInt (z * z)), (IZR (z * z) + - (b * b)).
      split; [reflexivity|]; split.
      + cbn [py_sub py_float bind ret]; unfold float_of_int.
        pose proof (mult_IZR z z) as Hzz.
        assert (Hz : (Z.abs (z * z) < 2 ^ 1024 - 2 ^ 970)%Z).
        { rewrite Z.abs_eq by apply Z.square_nonneg.
          apply lt_IZR; rewrite Hzz; apply Hw. }
        destruct (Z.ltb_spec (Z.abs (z * z)) (2 ^ 1024 - 2 ^ 970)); [|lia].
        cbn [bind ret]; unfold fsub; cbn [fneg fadd].
        rewrite round_sum_finite; [reflexivity|].
        apply Rabs_def1; lra.
      + rewrite mult_IZR; lra.
    - destruct (round_small (y * y)) as [E|E].
      + rewrite Rabs_pos_eq; lra.
      + exists (PyFloat (Number (y * y))), (y * y + - (b * b)).
        split; [cbn [py_square]; rewrite E; reflexivity|]; split; [|lra].
        cbn [py_sub py_float bind ret]; unfold fsub; cbn [fneg fadd].
        rewrite round_sum_finite; [reflexivity | apply Rabs_def1; lra].
      + exists (PyFloat (Number 0)), (0 + - (b * b)).
        split; [cbn [py_square]; rewrite E; reflexivity|]; split; [|lra].
        cbn [py_sub py_float bind ret]; unfold fsub; cbn [fneg fadd].
        rewrite round_sum_finite; [reflexivity | apply Rabs_def1; lra]. }
  destruct Hd as (square_0 & d & Hs & Hsub & Hneg).
  unfold x, scalar_mul_array.
  cbn [py_neg promote bind ret py_float py_square].
  rewrite Hs, (round_exact _ Hbe); cbn [bind ret]; rewrite Hsub.
  cbn [bind ret np_sqrt_scalar np_sqrt].
  destruct (Rle_dec 0 d) as [H|_]; [lra|].
  cbn [as_float64]; unfold ret; f_equal.
  rewrite map_map, combine_map_same, map_map.
  apply map_ext; intros e; cbn [fst snd fmul np_cos].
  destruct (fmul x0 (np_exp (fmul (fneg (Number b)) e))); reflexivity.
Qed.

(** A number in the range of the floats is computed as it is. *)
Lemma round_in_range (r : R) : in_float_range r -> round r = Number r.
Proof.
  pose proof thresholds as [[Hu0 _] [_ Ho]].
  unfold round; intros [->|[H1 H2]].
  - rewrite Rabs_R0.
    destruct (Rle_dec overflow_threshold 0); [lra|].
    destruct (Rle_dec 0 underflow_threshold); [reflexivity | lra].
  - destruct (Rle_dec overflow_threshold (Rabs r)); [lra|].
    destruct (Rle_dec (Rabs r) underflow_threshold); [lra | reflexivity].
Qed.

(** Rounding keeps the order of two squares. *)
Lemma round_monotone (a b : R) :
  0 <= a <= b -> b < overflow_threshold ->
  exists a' b', round a = Number a' /\ round b = Number b' /\ 0 <= a' <= b'.
Proof.
  intros [H0 Hab] Hb; unfold round.
  rewrite !Rabs_pos_eq by lra.
  destruct (Rle_dec overflow_threshold a); [lra|].
  destruct (Rle_dec overflow_threshold b); [lra|].
  destruct (Rle_dec a underflow_threshold), (Rle_dec b underflow_threshold);
    do 2 eexists; (split; [reflexivity|]); (split; [reflexivity|]); lra.
Qed.

(** With a damping that is at most critical the frequency of the free
    oscillation is a number. *)
Lemma x_frequency (omega_0 : pynum) (w0 b : R) :
  py_value omega_0 = Some w0 -> int_square_exact omega_0 ->
  b * b <= w0 * w0 -> w0 * w0 < overflow_threshold ->
  exists square_0 square_b d w,
    py_square omega_0 = Some square_0
    /\ py_square (PyFloat (Number b)) = Some square_b
    /\ py_sub square_0 square_b = Some d
    /\ np_sqrt_scalar d = Some (Number w).
Proof.
  intros Hw0 Hfit Hle Hw.
  assert (Hb0 : 0 <= b * b) by nra.
  destruct omega_0 as [z|[y| | |]]; cbn in Hw0; try discriminate;
    injection Hw0 as <-.
  - destruct (round_monotone (b * b) (b * b)) as (sb & sb' & E & E' & Hsb);
      [lra | lra |].
    assert (Hsb' : sb <= b * b).
    { destruct (round_small (b * b)) as [E1|E1];
        [rewrite Rabs_pos_eq; lra | |];
        rewrite E1 in E; injection E as <-; lra. }
    exists (PyInt (z * z)), (PyFloat (Number sb)),
           (PyFloat (Number (IZR (z * z) + - sb))),
           (sqrt (IZR (z * z) + - sb)).
    pose proof (mult_IZR z z) as Hzz.
    split; [reflexivity|]; split; [cbn [py_square]; rewrite E; reflexivity|].
    split.
    + cbn [py_sub py_float bind ret]; unfold float_of_int.
      assert (Hz : (Z.abs (z * z) < 2 ^ 1024 - 2 ^ 970)%Z).
      { rewrite Z.abs_eq by apply Z.square_nonneg.
        apply lt_IZR; rewrite Hzz; exact Hw. }
      destruct (Z.ltb_spec (Z.abs (z * z)) (2 ^ 1024 - 2 ^ 970)); [|lia].
      cbn [bind ret]; unfold fsub; cbn [fneg fadd].
      rewrite round_sum_finite; [reflexivity | apply Rabs_def1; lra].
    + cbn [np_sqrt_scalar np_sqrt].
      destruct (Rle_dec 0 (IZR (z * z) + - sb)); [reflexivity | lra].
  - destruct (round_monotone (b * b) (y * y)) as (sb & s0 & E & E' & Hsb);
      [lra | lra |].
    assert (Hs0 : s0 <= y * y).
    { destruct (round_small (y * y)) as [E1|E1];
        [rewrite Rabs_pos_eq; lra | |];
        rewrite E1 in E'; injection E' as <-; lra. }
    exists (PyFloat (Number s0)), (PyFloat (Number sb)),
           (PyFloat (Number (s0 + - sb))), (sqrt (s0 + - sb)).
    split; [cbn [py_square]; rewrite E'; reflexivity|].
    split; [cbn [py_square]; rewrite E; reflexivity|].
    split.
    + cbn [py_sub py_float bind ret]; unfold fsub; cbn [fneg fadd].
      rewrite round_sum_finite; [reflexivity | apply Rabs_def1; lra].
    + cbn [np_sqrt_scalar np_sqrt].
      destruct (Rle_dec 0 (s0 + - sb)); [reflexivity | lra].
Qed.

(** The array that [x] returns, once the frequency is known. *)
Lemma x_steps (v : promotion) (l : list float64) (x0 b w : R)
    (omega_0 square_0 square_b d : pynum) :
  py_square omega_0 = Some square_0 ->
  py_square (PyFloat (Number b)) = Some square_b ->
  py_sub square_0 square_b = Some d ->
  np_sqrt_scalar d = Some (Number w) ->
  x v (FloatArray l) (PyFloat (Number x0)) omega_0 (PyFloat (Number b))
  = Some (map (fun ti =>
                 fmul (fmul (Number x0) (np_exp (fmul (Number (- b)) ti)))
                      (np_cos (fmul (Number w) ti))) l).
Proof.
  intros Hs0 Hsb Hd Hw.
  unfold x, scalar_mul_array.
  cbn [py_neg fneg promote bind ret py_float as_float64].
  rewrite Hs0; cbn [bind]; rewrite Hsb; cbn [bind].
  rewrite Hd; cbn [bind]; rewrite Hw; cbn [bind].
  unfold ret; f_equal.
  rewrite map_map, combine_map_same, map_map; reflexivity.
Qed.

(** X17.  The oscillation starts at [x0]: with a damping that is at
    most critical ([beta^2 <= omega_0^2], for a float [beta] and a
    finite [omega_0] whose square does not overflow), the entry of [x]
    for the time [0] is [x0] itself. *)
Theorem x_at_time_zero (v : promotion) (l : list float64) (omega_0 : pynum)
    (x0 w0 b : R) (i : nat) :
  py_value omega_0 = Some w0 -> int_square_exact omega_0 ->
  b * b <= w0 * w0 -> w0 * w0 < overflow_threshold ->
  in_float_range x0 ->
  nth_error l i = Some (Number 0) ->
  exists r,
    x v (FloatArray l) (PyFloat (Number x0)) omega_0 (PyFloat (Number b))
    = Some r
    /\ length r = length l
    /\ nth_error r i = Some (Number x0).
Proof.
  intros Hw0 Hfit Hle Hw Hx Hi.
  destruct (x_frequency omega_0 w0 b Hw0 Hfit Hle Hw)
    as (square_0 & square_b & d & w & Hs0 & Hsb & Hd & Hsq).
  eexists; split; [exact (x_steps v l x0 b w _ _ _ _ Hs0 Hsb Hd Hsq)|].
  split; [apply length_map|].
  rewrite nth_error_map, Hi; cbn [option_map fmul].
  assert (E0 : round 0 = Number 0) by (apply round_in_range; left; reflexivity).
  assert (E1 : round 1 = Number 1).
  { apply round_exact; right.
    pose proof thresholds as [_ [Hu Ho]].
    assert (H : / 1000000000000000000000000000000 < / 1)
      by (apply Rinv_lt_contravar; lra).
    rewrite Rinv_1 in H.
    rewrite Rabs_pos_eq; lra. }
  rewrite !Rmult_0_r, E0; cbn [np_exp np_cos].
  rewrite exp_0, cos_0, E1; cbn [fmul].
  rewrite Rmult_1_r, (round_in_range _ Hx); cbn [fmul].
  rewrite Rmult_1_r, (round_in_range _ Hx); reflexivity.
Qed.










(** *** The phase in closed form *)





(** *** The driven oscillator *)



(** A number next to an array of floats. *)
Lemma promote_float_array (v : promotion) (square : pynum) (c : float64)
    (l : list float64) :
  py_float square = Some c ->
  (exists c', square = PyFloat c')
  \/ (exists n, square = PyInt n /\ (0 <= n < 2 ^ 63)%Z) ->
  promote v square (FloatArray l) = Some (FloatOperands c l).
Proof.
  intros Hc [(c' & ->)|(n & -> & Hn)]; cbn in Hc.
  - injection Hc as ->; reflexivity.
  - cbn [promote].
    assert (H1 : in_int64 n = true) by (unfold in_int64; lia).
    pose proof (float_of_int_Some _ _ Hc) as [-> _].
    destruct v; [rewrite H1 | rewrite Hc]; reflexivity.
Qed.


(** Numbers that are not negative, and [inf]. *)
Lemma round_nonnegative (r : R) : 0 <= r -> nonnegative (round r).
Proof.
  pose proof thresholds as [_ [_ Ho]].
  intros H; unfold round, infinity, is_positive.
  rewrite Rabs_pos_eq by exact H.
  destruct (Rle_dec overflow_threshold r).
  - destruct (Rlt_dec 0 r); [left; reflexivity | lra].
  - destruct (Rle_dec r underflow_threshold); right; eexists;
      (split; [reflexivity|]); lra.
Qed.

Lemma round_sum_nonnegative (r : R) : 0 <= r -> nonnegative (round_sum r).
Proof.
  pose proof thresholds as [_ [_ Ho]].
  intros H; unfold round_sum, infinity, is_positive.
  rewrite Rabs_pos_eq by exact H.
  destruct (Rle_dec overflow_threshold r).
  - destruct (Rlt_dec 0 r); [left; reflexivity | lra].
  - right; eexists; split; [reflexivity | exact H].
Qed.

Lemma square_nonnegative (e : float64) : e <> NaN -> nonnegative (fmul e e).
Proof.
  destruct e as [y| | |]; cbn [fmul]; intros H.
  - apply round_nonnegative; nra.
  - left; reflexivity.
  - left; reflexivity.
  - contradiction.
Qed.

Lemma fadd_nonnegative (a b : float64) :
  nonnegative a -> nonnegative b -> nonnegative (fadd a b).
Proof.
  intros [->|(x & -> & Hx)] [->|(y & -> & Hy)]; cbn [fadd];
    try (left; reflexivity).
  apply round_sum_nonnegative; lra.
Qed.

Lemma np_sqrt_nonnegative (a : float64) : nonnegative a -> nonnegative (np_sqrt a).
Proof.
  intros [->|(x & -> & Hx)]; cbn [np_sqrt]; [left; reflexivity|].
  destruct (Rle_dec 0 x); [|lra].
  right; eexists; split; [reflexivity | apply sqrt_pos].
Qed.

Lemma fdiv_nonnegative (k : R) (e : float64) :
  0 < k -> nonnegative e -> nonnegative (fdiv (Number k) e).
Proof.
  intros Hk [->|(x & -> & Hx)]; cbn [fdiv].
  - right; eexists; split; [reflexivity | lra].
  - destruct (Req_dec_T x 0) as [->|Hne].
    + destruct (Req_dec_T k 0); [lra|].
      unfold infinity, is_positive.
      destruct (Rlt_dec 0 k); [left; reflexivity | lra].
    + apply round_nonnegative.
      apply Rmult_le_pos; [lra|].
      left; apply Rinv_0_lt_compat; lra.
Qed.

Lemma fsub_not_nan (q : float64) (s : R) :
  q <> NaN -> fsub q (Number s) <> NaN.
Proof.
  destruct q as [y| | |]; cbn; intros H; try discriminate.
  - apply round_sum_not_nan.
  - contradiction.
Qed.

(** The square of a finite parameter, next to an array of floats. *)
Lemma py_square_float (v : promotion) (s : pynum) (w0 : R) (l : list float64) :
  py_value s = Some w0 -> int_square_fits s -> w0 * w0 < overflow_threshold ->
  exists square c,
    py_square s = Some square
    /\ promote v square (FloatArray l) = Some (FloatOperands (Number c) l).
Proof.
  destruct s as [z|[y| | |]]; cbn [py_value int_square_fits];
    intros H Hf Hw; try discriminate; injection H as <-.
  - exists (PyInt (z * z)), (IZR (z * z)); split; [reflexivity|].
    apply promote_float_array.
    + cbn [py_float]; unfold float_of_int.
      assert (2 ^ 63 < 2 ^ 1024 - 2 ^ 970)%Z by (vm_compute; reflexivity).
      pose proof (Z.square_nonneg z).
      destruct (Z.ltb_spec (Z.abs (z * z)) (2 ^ 1024 - 2 ^ 970)); [reflexivity | lia].
    + right; exists (z * z)%Z; split; [reflexivity|].
      split; [apply Z.square_nonneg | exact Hf].
  - destruct (round_small (y * y)) as [E|E]; [rewrite Rabs_pos_eq; nra | |];
      eexists; eexists; (split; [cbn [py_square]; rewrite E; reflexivity|]);
      reflexivity.
Qed.

(** X19.  The amplitude has a sign: for an array of floats, finite
    [omega_0] and [beta] (the square of [omega_0] and [2 beta] do not
    overflow) and a float [K > 0], [A] raises nothing, the square root
    is never taken of a negative number, and the entry for every
    finite frequency is a number that is not negative, or [inf]; it is
    never [nan]. *)
Theorem A_nonnegative (v : promotion) (l : list float64)
    (omega_0 beta : pynum) (w0 b k : R) :
  py_value omega_0 = Some w0 -> int_square_fits omega_0 ->
  w0 * w0 < overflow_threshold ->
  py_value beta = Some b -> Rabs (2 * b) < overflow_threshold ->
  0 < k ->
  exists r,
    A v (FloatArray l) omega_0 beta (PyFloat (Number k)) = Some r
    /\ length r = length l
    /\ forall (i : nat) (w : R),
         nth_error l i = Some (Number w) ->
         exists e, nth_error r i = Some e /\ nonnegative e.
Proof.
  intros Hw0 Hfit Hw Hb Hb2 Hk.
  destruct (py_square_float v omega_0 w0 (map (fun e => fmul e e) l) Hw0 Hfit Hw)
    as (square & c0 & Hs & Hp).
  assert (Hbf : py_float beta = Some (Number b)).
  { apply py_float_exists; [exact Hb|].
    rewrite Rabs_mult, (Rabs_pos_eq 2) in Hb2 by lra.
    pose proof (Rabs_pos b); lra. }
  destruct (round_small (2 * b) Hb2) as [Ec|Ec].
  all: eexists; split;
    [ unfold A, array_sub_scalar, py_mul_float, divide_scalar;
      rewrite Hs; cbn [bind ret array_square]; rewrite Hp, Hbf;
      cbn [bind ret py_float fmul as_float64 array_square]; rewrite Ec;
      rewrite !map_map, combine_map_same, !map_map;
      destruct v; reflexivity
    | split; [apply length_map|] ].
  all: intros i w Hi; rewrite nth_error_map, Hi; cbn [option_map fst snd];
    eexists; (split; [reflexivity|]);
    apply fdiv_nonnegative; [exact Hk|];
    apply np_sqrt_nonnegative, fadd_nonnegative;
    apply square_nonnegative.
  all: try (apply fsub_not_nan); cbn [fmul]; apply round_not_nan.
Qed.






(** *** The theorems at the parameters of the notebook

    [omega_0 = 4], [beta = 0.3], [x0 = 0.1] and [K = 0.2]. *)


Lemma notebook_fits : int_square_fits (PyInt 4).
Proof. cbn; lia. Qed.



(** An overdamped call: [beta = 5]. *)
Lemma x_overdamped_witness :
  py_value (PyInt 4) = Some 4
  /\ int_square_exact (PyInt 4)
  /\ 4 * 4 < 5 * 5
  /\ smallest_normal <= 5 * 5 < overflow_threshold
  /\ x ValueBased (FloatArray [Number 0; Number 1]) (PyFloat (Number (1 / 10)))
       (PyInt 4) (PyFloat (Number 5))
     = Some (map (fun _ => NaN) (as_float64 (FloatArray [Number 0; Number 1]))).
Proof.
  assert (H1 : int_square_exact (PyInt 4)) by (cbn; lia).
  assert (H2 : 4 * 4 < 5 * 5) by lra.
  assert (H3 : smallest_normal <= 5 * 5 < overflow_threshold).
  { pose proof thresholds as [[_ Hu1] [Hu Ho]].
    assert (/ 1000000000000000000000000000000 < 1) by lra; lra. }
  exact (conj eq_refl (conj H1 (conj H2 (conj H3
           (x_overdamped ValueBased (FloatArray [Number 0; Number 1])
              (Number (1 / 10)) (PyInt 4) 4 5 eq_refl H1 H2 H3))))).
Defined.

Lemma x_at_time_zero_witness :
  py_value (PyInt 4) = Some 4
  /\ int_square_exact (PyInt 4)
  /\ 3 / 10 * (3 / 10) <= 4 * 4
  /\ 4 * 4 < overflow_threshold
  /\ in_float_range (1 / 10)
  /\ nth_error [Number 0; Number 1] 0 = Some (Number 0)
  /\ exists r,
       x Weak (FloatArray [Number 0; Number 1]) (PyFloat (Number (1 / 10)))
         (PyInt 4) (PyFloat (Number (3 / 10)))
       = Some r
       /\ length r = length [Number 0; Number 1]
       /\ nth_error r 0 = Some (Number (1 / 10)).
Proof.
  pose proof thresholds as [[Hu0 Hu1] [Hu Ho]].
  assert (H2 : int_square_exact (PyInt 4)) by (cbn; lia).
  assert (H3 : 3 / 10 * (3 / 10) <= 4 * 4) by lra.
  assert (H4 : 4 * 4 < overflow_threshold) by lra.
  assert (H5 : in_float_range (1 / 10)).
  { right; rewrite Rabs_pos_eq by lra.
    assert (/ 1000000000000000000000000000000 < 1 / 10) by lra; lra. }
  exact (conj eq_refl (conj H2 (conj H3 (conj H4 (conj H5 (conj eq_refl
           (x_at_time_zero Weak [Number 0; Number 1] (PyInt 4)
              (1 / 10) 4 (3 / 10) 0 eq_refl H2 H3 H4 H5 eq_refl))))))).
Defined.





Lemma A_nonnegative_witness :
  py_value (PyInt 4) = Some 4
  /\ int_square_fits (PyInt 4)
  /\ 4 * 4 < overflow_threshold
  /\ py_value (PyFloat (Number (3 / 10))) = Some (3 / 10)
  /\ Rabs (2 * (3 / 10)) < overflow_threshold
  /\ 0 < 2 / 10
  /\ exists r,
       A ValueBased (FloatArray [Number 3; Number 4; Number 6]) (PyInt 4)
         (PyFloat (Number (3 / 10))) (PyFloat (Number (2 / 10)))
       = Some r
       /\ length r = length [Number 3; Number 4; Number 6]
       /\ forall (i : nat) (w : R),
            nth_error [Number 3; Number 4; Number 6] i = Some (Number w) ->
            exists e, nth_error r i = Some e /\ nonnegative e.
Proof.
  pose proof thresholds as [_ [_ Ho]].
  pose proof notebook_fits as H2.
  assert (H3 : 4 * 4 < overflow_threshold) by lra.
  assert (H5 : Rabs (2 * (3 / 10)) < overflow_threshold)
    by (rewrite Rabs_pos_eq; lra).
  assert (H6 : 0 < 2 / 10) by lra.
  exact (conj eq_refl (conj H2 (conj H3 (conj eq_refl (conj H5 (conj H6
           (A_nonnegative ValueBased [Number 3; Number 4; Number 6] (PyInt 4)
              (PyFloat (Number (3 / 10))) 4 (3 / 10) (2 / 10)
              eq_refl H2 H3 eq_refl H5 H6))))))).
Defined.



End OscillatorMore.

